(** * teyeler: image tiler for the SpatialEye ST App

    A shallow embedding of [teyeler.py]: the tilemap coordinate basis
    ([tilecoordinates]), the in-place padder ([pad]), the tile extractor
    ([gettiles]), the 2x downsampler ([zoom]), the pyramid walker ([tile])
    and the worker pool ([Threader]).

    Python integers are unbounded, so indices are [Z] and array extents are
    [nat].  A [numpy.ndarray] is a shape together with its C-ordered flat
    buffer; arrays live in a store and are named by their position in it, so
    that in-place mutation and views sharing a buffer can be told apart from
    copies.  Exceptions are the [Raise] branch of [result]. *)

From Stdlib Require Import ZArith Lia Bool List Permutation Sorted.
From Stdlib Require Ascii String DecimalString DecimalZ.
From stdpp Require Import base option list.
Import ListNotations.

Local Open Scope Z_scope.

(** ** Exceptions *)

Inductive exn : Type :=
  | ValueError
  | RuntimeError
  | IndexError
  | ZeroDivisionError
  | TypeError.

Inductive result (A : Type) : Type :=
  | Ok (a : A)
  | Raise (e : exn).

Arguments Ok {A} a.
Arguments Raise {A} e.

(** ** Enumerations *)

Inductive Corner : Type :=
  | SouthWest
  | NorthWest
  | SouthEast
  | NorthEast.

Inductive Order : Type :=
  | ColMajor
  | RowMajor.

Definition Corner_eqb (a b : Corner) : bool :=
  match a, b with
  | SouthWest, SouthWest | NorthWest, NorthWest
  | SouthEast, SouthEast | NorthEast, NorthEast => true
  | _, _ => false
  end.

Definition Order_eqb (a b : Order) : bool :=
  match a, b with
  | ColMajor, ColMajor | RowMajor, RowMajor => true
  | _, _ => false
  end.

Definition DEF_TILE_SIZE : nat * nat := (256%nat, 256%nat).
Definition DEF_ORDER : Order := ColMajor.
Definition DEF_CORNER : Corner := SouthWest.
Definition DEF_THREADS : nat := 8%nat.

(** ** Coordinate basis *)

(** [tilecoordinates order corner shape coordinates]: the two conditional
    reassignments of [col] and [row], then the final swap. *)
Definition tilecoordinates (order : Order) (corner : Corner)
    (shape : Z * Z) (coordinates : Z * Z) : Z * Z :=
  let '(rows, cols) := shape in
  let '(row, col) := coordinates in
  let col :=
    if Corner_eqb corner SouthEast || Corner_eqb corner NorthEast
    then cols - col - 1 else col in
  let row :=
    if Corner_eqb corner SouthWest || Corner_eqb corner SouthEast
    then rows - row - 1 else row in
  if Order_eqb order ColMajor then (col, row) else (row, col).

(** The map that undoes [tilecoordinates].  The program has no such function;
    it is written here so that the round trip can be stated: undo the swap,
    then undo the two reflections. *)
Definition tilecoordinates_inv (order : Order) (corner : Corner)
    (shape : Z * Z) (basis : Z * Z) : Z * Z :=
  let '(rows, cols) := shape in
  let '(row, col) :=
    if Order_eqb order ColMajor then (snd basis, fst basis) else basis in
  let col :=
    if Corner_eqb corner SouthEast || Corner_eqb corner NorthEast
    then cols - col - 1 else col in
  let row :=
    if Corner_eqb corner SouthWest || Corner_eqb corner SouthEast
    then rows - row - 1 else row in
  (row, col).

(** Extent of the grid as seen in the target basis: transposed when the
    order is column-major. *)
Definition basis_shape (order : Order) (shape : Z * Z) : Z * Z :=
  if Order_eqb order ColMajor then (snd shape, fst shape) else shape.

Definition in_grid (shape : Z * Z) (p : Z * Z) : Prop :=
  0 <= fst p < fst shape /\ 0 <= snd p < snd shape.

Definition east_anchored (c : Corner) : Prop := c = SouthEast \/ c = NorthEast.
Definition south_anchored (c : Corner) : Prop := c = SouthWest \/ c = SouthEast.

(** ** Arrays *)

(** A [numpy.ndarray]: its shape and its flat buffer in C order. *)
Record ndarray : Type := mk_ndarray {
  nd_shape : list nat;
  nd_data : list Z
}.

Definition prod_shape (s : list nat) : nat := foldr Nat.mul 1%nat s.

(** Well-formed arrays carry exactly one scalar per cell. *)
Definition nd_wf (a : ndarray) : Prop :=
  length (nd_data a) = prod_shape (nd_shape a).

(** Bound of a Python slice on an axis of extent [n]: negative indices count
    from the end, and everything is clipped to [0, n]. *)
Definition slice_bound (n : nat) (i : Z) : nat :=
  if i <? 0 then Z.to_nat (Z.max 0 (i + Z.of_nat n))
  else Nat.min (Z.to_nat i) n.

(** [ndarray.resize(new_shape, refcheck=False)] on the flat buffer: the
    leading cells are kept, new cells are zero. *)
Definition resize (new_shape : list nat) (flat : list Z) : list Z :=
  take (prod_shape new_shape) (flat ++ replicate (prod_shape new_shape) 0).

(** [flat[dst : dst + len] = flat[src : src + len]]; the right-hand side is
    read before the left-hand side is written. *)
Definition assign_slice (flat : list Z) (dst src len : nat) : list Z :=
  take dst flat ++ take len (drop src flat) ++ drop (dst + len) flat.

(** [img[lo:hi, :] = fill] and [img[:, lo:hi] = fill] on the flat buffer of
    an array with [w] columns and [px_len] scalars per pixel; [fill] is
    broadcast over the pixel axes. *)
Definition setitem_rows (w px_len lo hi : nat) (fill flat : list Z) : list Z :=
  imap (fun idx v =>
          let r := ((idx / px_len) / w)%nat in
          if (lo <=? r)%nat && (r <? hi)%nat
          then nth (idx mod px_len)%nat fill 0 else v) flat.

Definition setitem_cols (w px_len lo hi : nat) (fill flat : list Z) : list Z :=
  imap (fun idx v =>
          let c := ((idx / px_len) mod w)%nat in
          if (lo <=? c)%nat && (c <? hi)%nat
          then nth (idx mod px_len)%nat fill 0 else v) flat.

Definition is_south (corner : Corner) : bool :=
  Corner_eqb corner SouthWest || Corner_eqb corner SouthEast.

Definition is_east (corner : Corner) : bool :=
  Corner_eqb corner NorthEast || Corner_eqb corner SouthEast.

(** ** Padder *)

(** [np.prod(px_shape)] is an integer for a tuple of integers, but the float
    [1.0] for the empty tuple, that is, for an image with two axes only.
    A float as a slice bound is a TypeError (numpy 1.12 and later). *)
Definition px_len_is_float (px_shape : list nat) : bool :=
  match px_shape with
  | [] => true
  | _ :: _ => false
  end.

(** [pad corner shape img fill] with the default [order='C'], for which
    [np.ravel] is a view of the resized buffer.  The function mutates [img];
    here it returns the array that [img] has become.  [fill], when given, is
    the flat buffer of an array of the pixel shape.  The bounds of the slices
    in the row loop are products with [px_len]: when [px_len] is a float
    they are floats, and the first pass through the loop raises TypeError.
    Otherwise every slice that is assigned lies within the resized buffer. *)
Definition pad (corner : Corner) (shape : nat * nat) (img : ndarray)
    (fill : option (list Z)) : result ndarray :=
  let old_shape := take 2 (nd_shape img) in
  let px_shape := drop 2 (nd_shape img) in
  let px_len := prod_shape px_shape in
  let new_shape := [fst shape; snd shape] ++ px_shape in
  let fill := default (replicate px_len 0) fill in
  match old_shape with
  | [old_r; old_c] =>
      let marv := Z.of_nat (fst shape) - Z.of_nat old_r in
      let marh := Z.of_nat (snd shape) - Z.of_nat old_c in
      if (marv <? 0) || (marh <? 0) then Raise ValueError
      else if px_len_is_float px_shape && (0 <? old_r)%nat then Raise TypeError
      else
        let '(top, bottom) := (0, marv) in
        let '(top, bottom) :=
          if is_south corner then (bottom, top) else (top, bottom) in
        let bottom := Z.of_nat (fst shape) - bottom - 1 in
        let '(left_, right_) := (0, marh) in
        let '(left_, right_) :=
          if is_east corner then (right_, left_) else (left_, right_) in
        let right_ := Z.of_nat (snd shape) - right_ - 1 in
        let flat := resize new_shape (nd_data img) in
        let flat :=
          foldl (fun flat row =>
                   let old_idx := (row * old_c)%nat in
                   let new_idx :=
                     ((row + Z.to_nat top) * snd shape + Z.to_nat left_)%nat in
                   assign_slice flat (new_idx * px_len) (old_idx * px_len)
                     (old_c * px_len))
                flat (rev (seq 0 old_r)) in
        let r := fst shape in
        let w := snd shape in
        let flat := setitem_rows w px_len 0 (slice_bound r top) fill flat in
        let flat := setitem_rows w px_len (slice_bound r bottom) r fill flat in
        let flat := setitem_cols w px_len 0 (slice_bound w left_) fill flat in
        let flat := setitem_cols w px_len (slice_bound w right_) w fill flat in
        Ok (mk_ndarray new_shape flat)
  | _ => Raise ValueError
  end.

(** Scalar of pixel [(r, c)], channel [k], of an array with a flat pixel
    axis. *)
Definition pixel (a : ndarray) (r c k : nat) : Z :=
  match nd_shape a with
  | _ :: w :: px =>
      nth ((r * w + c) * prod_shape px + k)%nat (nd_data a) 0
  | _ => 0
  end.

Definition img5 : ndarray :=
  mk_ndarray [5; 5; 1]%nat (map Z.of_nat (seq 1 25)).

(** ** Store, views and tiles *)

(** The heap of arrays.  An array object is named by its index; a new array
    is appended, an in-place mutation replaces the entry. *)
Abbreviation store := (list ndarray).

Definition alloc (st : store) (a : ndarray) : store * nat :=
  (st ++ [a], length st).

(** What basic slicing [img[r0:r1, c0:c1]] returns: no buffer of its own, but
    the base array and the addressing fixed when it was sliced: the first
    cell [(v_row0, v_col0)] and the number of columns [v_width] that the base
    had then, which give numpy's offset [(v_row0 * v_width + v_col0) * px_len]
    and row stride [v_width * px_len]. *)
Record view : Type := mk_view {
  v_base : nat;
  v_row0 : nat;
  v_col0 : nat;
  v_width : nat;
  v_rows : nat;
  v_cols : nat;
  v_px : list nat
}.

Definition view_shape (v : view) : list nat :=
  [v_rows v; v_cols v] ++ v_px v.

(** [img[slice(r0, r1), slice(c0, c1)]] for the array [a] stored at [base]. *)
Definition getitem (base : nat) (a : ndarray) (r0 r1 c0 c1 : nat) : view :=
  match nd_shape a with
  | r :: w :: px =>
      let r0 := Nat.min r0 r in
      let r1 := Nat.min r1 r in
      let c0 := Nat.min c0 w in
      let c1 := Nat.min c1 w in
      mk_view base r0 c0 w (r1 - r0) (c1 - c0) px
  | _ => mk_view base 0 0 0 0 0 []
  end.

(** The scalars a consumer reads through a view, in C order of the view. *)
Definition read_view (st : store) (v : view) : list Z :=
  match st !! v_base v with
  | Some a =>
      let px_len := prod_shape (v_px v) in
      flat_map (fun i =>
        flat_map (fun j =>
          map (fun k =>
                 nth (((v_row0 v + i) * v_width v + (v_col0 v + j)) * px_len
                      + k)%nat
                     (nd_data a) 0)
              (seq 0 px_len))
          (seq 0 (v_cols v)))
        (seq 0 (v_rows v))
  | None => []
  end.

(** The cells of the base array that a view covers, as (row, column) pairs
    of the base at slicing time. *)
Definition view_cells (v : view) : list (nat * nat) :=
  flat_map (fun i => map (fun j => ((v_row0 v + i)%nat, (v_col0 v + j)%nat))
                         (seq 0 (v_cols v)))
           (seq 0 (v_rows v)).

(** All cells of a grid of [r] rows and [c] columns, row by row. *)
Definition grid_cells (r c : nat) : list (nat * nat) :=
  flat_map (fun i => map (fun j => (i, j)) (seq 0 c)) (seq 0 r).

(** What a call of [pad] that raised has made of [img]: ValueError is raised
    before anything is written, TypeError by the first row copy, after
    [img.resize]. *)
Definition pad_raised (shape : nat * nat) (img : ndarray) (e : exn)
    : ndarray :=
  match e with
  | TypeError =>
      let new_shape := [fst shape; snd shape] ++ drop 2 (nd_shape img) in
      mk_ndarray new_shape (resize new_shape (nd_data img))
  | _ => img
  end.

(** [pad] as the in-place operation on the array object [img].  A name
    always denotes a live array; the last branch only makes the function
    total.  A view sliced earlier is read through its base: this is what
    numpy does as long as [resize] keeps the buffer where it is, as it does
    for an unchanged size; once the buffer has moved, what an earlier view
    shows is not defined by numpy. *)
Definition pad_at (corner : Corner) (shape : nat * nat) (st : store)
    (img : nat) (fill : option (list Z)) : result store :=
  match st !! img with
  | Some a =>
      match pad corner shape a fill with
      | Ok a' => Ok (<[img := a']> st)
      | Raise e => Raise e
      end
  | None => Raise IndexError
  end.

(** ** Tile extractor *)

(** [ceil(s / t)] for positive [t]. *)
Definition ceil_div (s t : nat) : nat := ((s + t - 1) / t)%nat.

(** The loop [for (row, col) in ((r, c) for r in range(rows) for c in
    range(cols))] with its [yield]: one slice of [img] per grid position,
    paired with the converted coordinate. *)
Definition scan_tiles (tile_shape : nat * nat) (img : nat) (a : ndarray)
    (corner : Corner) (order : Order) (rows cols : nat)
    : list (view * (Z * Z)) :=
  let tilecoordinates_ :=
    tilecoordinates order corner (Z.of_nat rows, Z.of_nat cols) in
  flat_map (fun row =>
    map (fun col =>
           (getitem img a
              (fst tile_shape * row) (fst tile_shape * (row + 1))
              (snd tile_shape * col) (snd tile_shape * (col + 1)),
            tilecoordinates_ (Z.of_nat row, Z.of_nat col)))
        (seq 0 cols))
    (seq 0 rows).

(** The generator [gettiles tile_shape img corner order], run to exhaustion:
    the store after the padding that precedes the first [yield], and the
    yielded (tile, coordinate) pairs in order.  The tiles are views of
    [img]. *)
Definition gettiles (tile_shape : nat * nat) (st : store) (img : nat)
    (corner : Corner) (order : Order)
    : result (store * list (view * (Z * Z))) :=
  let '(th, tw) := tile_shape in
  match st !! img with
  | None => Raise IndexError
  | Some a =>
      match nd_shape a with
      | [] => Raise ValueError
      | [_] => if (th =? 0)%nat then Raise ZeroDivisionError
               else Raise ValueError
      | r :: c :: _ =>
          if (th =? 0)%nat || (tw =? 0)%nat then Raise ZeroDivisionError
          else
            let padded :=
              if (r mod th =? 0)%nat && (c mod tw =? 0)%nat then Ok st
              else pad_at corner
                     ((th * ceil_div r th)%nat, (tw * ceil_div c tw)%nat)
                     st img None in
            match padded with
            | Raise e => Raise e
            | Ok st' =>
                match st' !! img with
                | None => Raise IndexError
                | Some a' =>
                    let rows := (nth 0 (nd_shape a') 0 / th)%nat in
                    let cols := (nth 1 (nd_shape a') 0 / tw)%nat in
                    Ok (st',
                        scan_tiles tile_shape img a' corner order rows cols)
                end
            end
      end
  end.

(** The store that a call of [gettiles] that raised leaves behind: only
    [pad] writes, and only to [img]. *)
Definition gettiles_raised (tile_shape : nat * nat) (st : store) (img : nat)
    (e : exn) : store :=
  let '(th, tw) := tile_shape in
  match st !! img with
  | Some a =>
      match nd_shape a with
      | r :: c :: _ =>
          <[img := pad_raised ((th * ceil_div r th)%nat,
                               (tw * ceil_div c tw)%nat) a e]> st
      | _ => st
      end
  | None => st
  end.

(** ** Downsampler *)

(** A zoom factor as the fraction [num / den], [den > 0]. *)
Definition factor : Type := (Z * Z)%type.

(** Python 3 [round]: to nearest, ties to even. *)
Definition py_round (num den : Z) : Z :=
  let q := num / den in
  let r2 := 2 * (num mod den) in
  if r2 <? den then q
  else if den <? r2 then q + 1
  else if Z.even q then q else q + 1.

(** scipy's order-0 kernel in exact arithmetic: output index [j] along an
    axis zoomed from [n] to [m] cells reads input index
    [floor (j * (n - 1) / (m - 1) + 1/2)]. *)
Definition nearest_index (n m j : nat) : nat :=
  if (m <=? 1)%nat then j
  else ((2 * j * (n - 1) + (m - 1)) / (2 * (m - 1)))%nat.

(** Exact order-0 resampling of a three-axis array. *)
Definition nearest_resample (ishape oshape : list nat) (flat : list Z)
    : list Z :=
  match ishape, oshape with
  | [r; c; p], [r'; c'; p'] =>
      flat_map (fun i =>
        flat_map (fun j =>
          map (fun k =>
                 nth ((nearest_index r r' i * c + nearest_index c c' j) * p
                      + nearest_index p p' k)%nat flat 0)
              (seq 0 p'))
          (seq 0 c'))
        (seq 0 r')
  | _, _ => []
  end.

Section Resampling.

(** scipy's spline kernel: the scalars of the output buffer, given the
    input shape, the output shape and the input buffer.  It belongs to the
    library, not to the program; the development is parametric in it. *)
Variable resample : list nat -> list nat -> list Z -> list Z.

(** [scipy.ndimage.zoom(input, zoom, order=0)]: one factor per axis is
    required; the output extent of an axis is [int(round(s * z))]. *)
Definition libzoom (input : ndarray) (zoom : list factor) : result ndarray :=
  if (length zoom =? length (nd_shape input))%nat then
    let output_shape :=
      zip_with (fun s z => Z.to_nat (py_round (Z.of_nat s * fst z) (snd z)))
               (nd_shape input) zoom in
    Ok (mk_ndarray output_shape
          (resample (nd_shape input) output_shape (nd_data input)))
  else Raise RuntimeError.

(** [zoom img]: the log line formats [img.shape[:2]] with four [{:d}]
    fields, then [libzoom] is called with the fixed triple
    [(0.5, 0.5, 1)].  The result is a new array object. *)
Definition zoom (st : store) (img : nat) : result (store * nat) :=
  match st !! img with
  | None => Raise IndexError
  | Some a =>
      if (length (take 2 (nd_shape a)) <? 2)%nat then Raise IndexError
      else
        match libzoom a [(1, 2); (1, 2); (1, 1)] with
        | Ok a' => Ok (alloc st a')
        | Raise e => Raise e
        end
  end.

(** ** Pyramid walker *)

(** [ceil(log2(s / t))] for positive [s] and [t], as an exact integer. *)
Definition ceil_log2_ratio (s t : Z) : Z :=
  if s <=? t then - Z.log2 (t / s)
  else Z.log2_up ((s + t - 1) / t).

(** One element of the list comprehension: the division raises on a zero
    tile extent, [log2] on a zero image extent. *)
Definition level_term (s t : nat) : result Z :=
  if (t =? 0)%nat then Raise ZeroDivisionError
  else if (s =? 0)%nat then Raise ValueError
  else Ok (ceil_log2_ratio (Z.of_nat s) (Z.of_nat t)).

(** [1 + max([ceil(log2(s / t)) for (s, t) in zip(img.shape, tile_shape)])] *)
Definition auto_nlevels (shape : list nat) (tile_shape : nat * nat)
    : result Z :=
  match shape with
  | [] => Raise ValueError
  | [r] =>
      match level_term r (fst tile_shape) with
      | Ok a => Ok (1 + a)
      | Raise e => Raise e
      end
  | r :: c :: _ =>
      match level_term r (fst tile_shape) with
      | Raise e => Raise e
      | Ok a =>
          match level_term c (snd tile_shape) with
          | Raise e => Raise e
          | Ok b => Ok (1 + Z.max a b)
          end
      end
  end.

(** A record yielded by [tile].  [y_seen] is not part of the Python tuple:
    it keeps the scalars that the tile showed at the moment of the
    [yield]. *)
Record yielded : Type := mk_yielded {
  y_tile : view;
  y_major : Z;
  y_minor : Z;
  y_level : nat;
  y_seen : list Z
}.

(** The body of [for level in reversed(range(nlevels))], over the list of
    levels still to visit.  A generator that raises has already handed out
    what it yielded before; the store is then the one that the raising call
    left behind. *)
Fixpoint tile_levels (tile_shape : nat * nat) (st : store) (img : nat)
    (levels : list nat) : list yielded * option exn * store :=
  match levels with
  | [] => ([], None, st)
  | level :: rest =>
      match gettiles tile_shape st img SouthWest ColMajor with
      | Raise e => ([], Some e, gettiles_raised tile_shape st img e)
      | Ok (st1, tiles) =>
          let out :=
            map (fun t =>
                   mk_yielded (fst t) (fst (snd t)) (snd (snd t)) level
                     (read_view st1 (fst t)))
                tiles in
          if (0 <? level)%nat then
            match zoom st1 img with
            | Raise e => (out, Some e, st1)
            | Ok (st2, img2) =>
                let '(out', e, st3) := tile_levels tile_shape st2 img2 rest in
                (out ++ out', e, st3)
            end
          else
            let '(out', e, st3) := tile_levels tile_shape st1 img rest in
            (out ++ out', e, st3)
      end
  end.

(** [tile tile_shape img nlevels] *)
Definition tile (tile_shape : nat * nat) (st : store) (img : nat)
    (nlevels : option Z) : list yielded * option exn * store :=
  let n :=
    match nlevels with
    | Some n => Ok n
    | None =>
        match st !! img with
        | Some a => auto_nlevels (nd_shape a) tile_shape
        | None => Raise IndexError
        end
    end in
  match n with
  | Raise e => ([], Some e, st)
  | Ok n => tile_levels tile_shape st img (rev (seq 0 (Z.to_nat n)))
  end.

End Resampling.

(** ** Worker pool *)

Module Threader.

(** A job is a zero-argument callable.  What matters to the pool is
    whether the call returns or raises. *)
Record job : Type := mk_job {
  job_id : nat;
  job_raises : bool
}.

(** Where a worker thread stands in [_worker]: blocked in [queue.get()],
    inside [job()], past the [break], or terminated by an exception that
    left [job()] and the loop. *)
Inductive thread_state : Type :=
  | Waiting
  | Running (j : job)
  | Finished
  | Died.

(** The [Threader] object.  [queue] and [unfinished_tasks] are the state of
    its [queue.Queue]: [put] appends and increments the counter,
    [task_done] decrements it, [join] returns once it is zero. *)
Record t : Type := mk_t {
  queue : list (option job);
  unfinished_tasks : nat;
  nthreads : nat;
  threads : list thread_state
}.

Definition init (nthreads : nat) : t := mk_t [] 0 nthreads [].

Definition add (item : option job) (s : t) : t :=
  mk_t (queue s ++ [item]) (S (unfinished_tasks s)) (nthreads s) (threads s).

Definition start (s : t) : t :=
  mk_t (queue s) (unfinished_tasks s) (nthreads s)
       (replicate (nthreads s) Waiting).

(** [await] is [queue.join()]: it returns exactly in the states where the
    counter is zero. *)
Definition await_returns (s : t) : Prop := unfinished_tasks s = 0%nat.

(** What a worker step did. *)
Inductive event : Type :=
  | Got (item : option job)
  | Returned (j : job)
  | Raised (j : job).

Definition set_thread (i : nat) (ts : thread_state) (s : t) : t :=
  mk_t (queue s) (unfinished_tasks s) (nthreads s) (<[i := ts]> (threads s)).

(** One step of worker [i] of [_worker], if it can move: take the head of
    the queue; or leave [job()], by returning (then [task_done]) or by an
    exception (then neither [task_done] nor another iteration). *)
Definition worker_step (i : nat) (s : t) : option (t * event) :=
  match threads s !! i with
  | Some Waiting =>
      match queue s with
      | [] => None
      | item :: q =>
          let s' := mk_t q (unfinished_tasks s) (nthreads s) (threads s) in
          match item with
          | None => Some (set_thread i Finished s', Got item)
          | Some j => Some (set_thread i (Running j) s', Got item)
          end
      end
  | Some (Running j) =>
      if job_raises j then Some (set_thread i Died s, Raised j)
      else
        Some (set_thread i Waiting
                (mk_t (queue s) (pred (unfinished_tasks s)) (nthreads s)
                      (threads s)),
              Returned j)
  | _ => None
  end.

(** States of a pool of [n] workers that was started and then given jobs,
    under any interleaving of the producer's [add] with the workers.  The
    three lists record the jobs submitted, those whose call returned, and
    those whose call raised. *)
Inductive reach (n : nat) : list job -> list job -> list job -> t -> Prop :=
  | reach_start : reach n [] [] [] (start (init n))
  | reach_add sub ret exc s j :
      reach n sub ret exc s ->
      reach n (sub ++ [j]) ret exc (add (Some j) s)
  | reach_got sub ret exc s i s' item :
      reach n sub ret exc s ->
      worker_step i s = Some (s', Got item) ->
      reach n sub ret exc s'
  | reach_returned sub ret exc s i s' j :
      reach n sub ret exc s ->
      worker_step i s = Some (s', Returned j) ->
      reach n sub (ret ++ [j]) exc s'
  | reach_raised sub ret exc s i s' j :
      reach n sub ret exc s ->
      worker_step i s = Some (s', Raised j) ->
      reach n sub ret (exc ++ [j]) s'.

(** Whatever the workers' schedule from [s], [await] gets to return. *)
Inductive drains : t -> Prop :=
  | drains_now s : await_returns s -> drains s
  | drains_later s :
      (exists i s' ev, worker_step i s = Some (s', ev)) ->
      (forall i s' ev, worker_step i s = Some (s', ev) -> drains s') ->
      drains s.

(** No worker can ever move again. *)
Definition stuck (s : t) : Prop := forall i, worker_step i s = None.

(** A worker that holds a job it took from the queue and has not marked
    done, or that has left the loop. *)
Definition occupied (ts : thread_state) : nat :=
  match ts with Waiting => 0 | _ => 1 end.

Definition running (ts : thread_state) : nat :=
  match ts with Running _ => 1 | _ => 0 end.

Definition dead (ts : thread_state) : nat :=
  match ts with Died => 1 | _ => 0 end.

Definition count (f : thread_state -> nat) (l : list thread_state) : nat :=
  foldr (fun ts n => (f ts + n)%nat) 0%nat l.

Definition queued_jobs (q : list (option job)) : list job :=
  flat_map (fun item => match item with Some j => [j] | None => [] end) q.

Definition job_of (ts : thread_state) : list job :=
  match ts with Running j => [j] | _ => [] end.

Definition running_jobs (l : list thread_state) : list job :=
  flat_map job_of l.

(** What holds of every state of a started pool that is given jobs only:
    the counter counts the queued items and the workers that are not
    blocked in [get]; no stop signal is queued and no worker has left the
    loop; one worker is dead per job that raised; and every submitted job
    has returned, has raised, is queued or is being run. *)
Definition inv (n : nat) (sub ret exc : list job) (s : t) : Prop :=
  unfinished_tasks s = (length (queue s) + count occupied (threads s))%nat /\
  Forall (fun item => item <> None) (queue s) /\
  Forall (fun ts => ts <> Finished) (threads s) /\
  count dead (threads s) = length exc /\
  Permutation sub
    (ret ++ exc ++ queued_jobs (queue s) ++ running_jobs (threads s)) /\
  Forall (fun j => job_raises j = false) ret /\
  Forall (fun j => job_raises j = true) exc /\
  length (threads s) = n.

(** A pool with at least one worker, all of them alive, in which no queued
    or running job raises. *)
Definition calm (s : t) : Prop :=
  Forall (fun item => exists j, item = Some j /\ job_raises j = false)
         (queue s) /\
  Forall (fun ts => ts = Waiting \/
                    exists j, ts = Running j /\ job_raises j = false)
         (threads s) /\
  threads s <> [] /\
  unfinished_tasks s = (length (queue s) + count running (threads s))%nat.

(** Two steps per queued item and one per running job are left. *)
Definition measure (s : t) : nat :=
  (2 * length (queue s) + count running (threads s))%nat.

End Threader.

(** ** Auxiliary notions for the statements *)

(** The first two extents of the array at [img] are multiples of the tile
    shape, so that [gettiles] does not pad it. *)
Definition divisible (tile_shape : nat * nat) (st : store) (img : nat) : Prop :=
  exists a r c px,
    st !! img = Some a /\ nd_shape a = r :: c :: px /\
    (r mod fst tile_shape = 0)%nat /\ (c mod snd tile_shape = 0)%nat.

(** ** Where [pad] puts things *)

(** Row and column at which the first pixel of the image lands: the margin
    is above for the south corners and to the left for the east corners. *)
Definition pad_top (corner : Corner) (new_r old_r : nat) : nat :=
  if is_south corner then (new_r - old_r)%nat else 0%nat.

Definition pad_left (corner : Corner) (new_c old_c : nat) : nat :=
  if is_east corner then (new_c - old_c)%nat else 0%nat.

(** First row of [img[bottom:, :]] and first column of [img[:, right:]]. *)
Definition pad_bottom (corner : Corner) (new_r old_r : nat) : nat :=
  if is_south corner then (new_r - 1)%nat
  else if (old_r =? 0)%nat then (new_r - 1)%nat else (old_r - 1)%nat.

Definition pad_right (corner : Corner) (new_c old_c : nat) : nat :=
  if is_east corner then (new_c - 1)%nat
  else if (old_c =? 0)%nat then (new_c - 1)%nat else (old_c - 1)%nat.

(** The fill pixel that [pad] uses. *)
Definition pad_fill (px_len : nat) (fill : option (list Z)) : list Z :=
  default (replicate px_len 0) fill.

(** The row loop of [pad] over the first [n] rows, last row first. *)
Definition shift_rows (w new_w px_len top left_ n : nat) (flat : list Z)
    : list Z :=
  foldl (fun flat row =>
           assign_slice flat (((row + top) * new_w + left_) * px_len)
             (row * w * px_len) (w * px_len))
        flat (rev (seq 0 n)).

(** The cells of the tile at grid position [(row, col)], row by row. *)
Definition tile_cells (th tw row col : nat) : list (nat * nat) :=
  flat_map (fun i => map (fun j => ((th * row + i)%nat, (tw * col + j)%nat))
                         (seq 0 tw))
           (seq 0 th).

(** ** Stopping the pool *)

Module ThreaderStop.

(** [stop] after its [self.await()] has returned: one [queue.put(None)] per
    thread, while the workers go on; [stopping n k s] are the states with
    [k] of the [n] stop signals put. *)
Inductive stopping (n : nat) : nat -> Threader.t -> Prop :=
  | stopping_begin sub ret exc s :
      Threader.reach n sub ret exc s ->
      Threader.await_returns s ->
      stopping n 0 s
  | stopping_put k s :
      stopping n k s -> (k < n)%nat ->
      stopping n (S k) (Threader.add None s)
  | stopping_work k s i s' ev :
      stopping n k s ->
      Threader.worker_step i s = Some (s', ev) ->
      stopping n k s'.

Definition finished (ts : Threader.thread_state) : nat :=
  match ts with Threader.Finished => 1 | _ => 0 end.

Definition waiting (ts : Threader.thread_state) : nat :=
  match ts with Threader.Waiting => 1 | _ => 0 end.

(** While the signals are put: the counter counts the signals, the queue
    holds nothing else, every worker is blocked in [get] or has left its
    loop, one per signal taken. *)
Definition inv (n k : nat) (s : Threader.t) : Prop :=
  Threader.unfinished_tasks s = k /\
  Forall (fun item => item = None) (Threader.queue s) /\
  Forall (fun ts => ts = Threader.Waiting \/ ts = Threader.Finished)
         (Threader.threads s) /\
  (length (Threader.queue s)
   + Threader.count finished (Threader.threads s) = k)%nat /\
  length (Threader.threads s) = n /\
  (k <= n)%nat.

(** The state in which the loop of [thread.join()] is through: every worker
    has left its loop, the queue is empty, the counter still counts the [n]
    signals, and no worker can move. *)
Definition joined (n : nat) (s : Threader.t) : Prop :=
  Forall (fun ts => ts = Threader.Finished) (Threader.threads s) /\
  Threader.queue s = [] /\
  Threader.unfinished_tasks s = n /\
  Threader.stuck s.

(** Whatever the workers' schedule from [s], a state with [P] is reached. *)
Inductive eventually (P : Threader.t -> Prop) : Threader.t -> Prop :=
  | eventually_now s : P s -> eventually P s
  | eventually_later s :
      (exists i s' ev, Threader.worker_step i s = Some (s', ev)) ->
      (forall i s' ev,
         Threader.worker_step i s = Some (s', ev) -> eventually P s') ->
      eventually P s.

End ThreaderStop.

(** ** Tile writer: where a tile is saved *)

Module Save.

Import Ascii String.
Local Open Scope string_scope.

(** [str(n)] and ['{:d}'.format(n)] for a Python integer: decimal digits,
    with a leading minus sign for negative numbers. *)
Definition str (n : Z) : string :=
  DecimalString.NilEmpty.string_of_int (Z.to_int n).

Definition startswith_sep (s : string) : bool :=
  match s with
  | String c _ => Ascii.eqb c "/"
  | EmptyString => false
  end.

Fixpoint endswith_sep (s : string) : bool :=
  match s with
  | EmptyString => false
  | String c EmptyString => Ascii.eqb c "/"
  | String _ s' => endswith_sep s'
  end.

(** One round of the loop of [posixpath.join]: a component that starts with
    the separator replaces the path; otherwise it is appended, after a
    separator unless the path is empty or ends with one. *)
Definition path_join (path b : string) : string :=
  if startswith_sep b then b
  else if String.eqb path EmptyString || endswith_sep path then path ++ b
  else path ++ "/" ++ b.

(** [os.path.join(output_dir, str(level), str(major))] *)
Definition dirname (output_dir : string) (major level : Z) : string :=
  path_join (path_join output_dir (str level)) (str major).

(** ['{:d}.png'.format(minor)] *)
Definition basename (minor : Z) : string := str minor ++ ".png".

(** The file that [save output_dir major minor level tile] writes. *)
Definition filename (output_dir : string) (major minor level : Z) : string :=
  path_join (dirname output_dir major level) (basename minor).

(** The characters of a string. *)
Fixpoint chars (s : string) : list ascii :=
  match s with
  | EmptyString => []
  | String c s' => c :: chars s'
  end.

(** What [path_join] puts in front of a component that does not start with
    the separator. *)
Definition stem (path : string) : string :=
  if String.eqb path EmptyString || endswith_sep path then path
  else path ++ "/".

End Save.

(** ** Log records *)

Module Log.

Import Ascii String.
Local Open Scope string_scope.

(** The escape character, written [\033] in the source. *)
Definition esc : string := String (ascii_of_nat 27) EmptyString.

(** [FormattedLogRecordFactory.color_codes] *)
Definition color_codes : list (string * string) :=
  [("green", esc ++ "[92m"); ("blue", esc ++ "[94m"); ("red", esc ++ "[91m");
   ("purple", esc ++ "[95m"); ("bold", esc ++ "[1m"); ("end", esc ++ "[0m")].

(** [d[key]] on a dict with string keys; [None] is KeyError. *)
Fixpoint getitem (d : list (string * string)) (key : string) : option string :=
  match d with
  | [] => None
  | (k, v) :: d' => if String.eqb k key then Some v else getitem d' key
  end.

(** [logging.getLevelName] on an integer level. *)
Definition getLevelName (level : Z) : string :=
  if Z.eqb level 50 then "CRITICAL"
  else if Z.eqb level 40 then "ERROR"
  else if Z.eqb level 30 then "WARNING"
  else if Z.eqb level 20 then "INFO"
  else if Z.eqb level 10 then "DEBUG"
  else if Z.eqb level 0 then "NOTSET"
  else "Level " ++ Save.str level.

(** A colour code that is known to be in [color_codes]. *)
Definition code (key : string) : string :=
  match getitem color_codes key with Some v => v | None => EmptyString end.

(** The [level_formats] that the module hands to the factory. *)
Definition level_formats : list (string * string) :=
  [("WARNING", code "bold" ++ code "red"); ("INFO", code "green");
   ("DEBUG", code "purple")].

(** [FormattedLogRecordFactory(level_formats).__call__]: the format codes
    [start] and [end] given to the record, or KeyError. *)
Definition factory (level_formats : list (string * string)) (level : Z)
    : option (string * string) :=
  match getitem level_formats (getLevelName level) with
  | None => None
  | Some start =>
      match getitem color_codes "end" with
      | None => None
      | Some e => Some (start, e)
      end
  end.

End Log.

(** ** Sample data *)

Definition img2 : ndarray := mk_ndarray [2; 2; 1]%nat [1; 2; 3; 4].

Definition img4 : ndarray :=
  mk_ndarray [4; 4; 3]%nat (map Z.of_nat (seq 1 48)).

Definition img8_flat : ndarray :=
  mk_ndarray [8; 8]%nat (map Z.of_nat (seq 1 64)).

Definition img3_flat : ndarray :=
  mk_ndarray [3; 3]%nat (map Z.of_nat (seq 1 9)).

Definition failing_job : Threader.job := Threader.mk_job 0 true.
Definition sound_job : Threader.job := Threader.mk_job 1 false.

(** * Properties *)

(** ** Coordinate basis *)

Lemma Corner_eqb_eq a b : Corner_eqb a b = true <-> a = b.
Proof. destruct a, b; simpl; split; congruence. Qed.

Lemma Order_eqb_eq a b : Order_eqb a b = true <-> a = b.
Proof. destruct a, b; simpl; split; congruence. Qed.

Lemma east_anchored_dec c :
  Corner_eqb c SouthEast || Corner_eqb c NorthEast = true <-> east_anchored c.
Proof.
  unfold east_anchored. rewrite orb_true_iff, !Corner_eqb_eq. tauto.
Qed.

Lemma south_anchored_dec c :
  Corner_eqb c SouthWest || Corner_eqb c SouthEast = true <-> south_anchored c.
Proof.
  unfold south_anchored. rewrite orb_true_iff, !Corner_eqb_eq. tauto.
Qed.

(** C8: [tilecoordinates] reflects the column exactly for the east-anchored
    corners, reflects the row exactly for the south-anchored corners, emits
    (col', row') in column-major order and (row', col') otherwise, and is the
    identity for NorthWest with RowMajor.  Holds for all integers, in range
    or not. *)
Theorem tilecoordinates_reflects (order : Order) (corner : Corner)
    (rows cols row col : Z) :
  exists row' col',
    (east_anchored corner -> col' = cols - col - 1) /\
    (~ east_anchored corner -> col' = col) /\
    (south_anchored corner -> row' = rows - row - 1) /\
    (~ south_anchored corner -> row' = row) /\
    (order = ColMajor ->
     tilecoordinates order corner (rows, cols) (row, col) = (col', row')) /\
    (order = RowMajor ->
     tilecoordinates order corner (rows, cols) (row, col) = (row', col')) /\
    tilecoordinates RowMajor NorthWest (rows, cols) (row, col) = (row, col).
Proof.
  exists (if Corner_eqb corner SouthWest || Corner_eqb corner SouthEast
          then rows - row - 1 else row),
         (if Corner_eqb corner SouthEast || Corner_eqb corner NorthEast
          then cols - col - 1 else col).
  repeat split.
  - intros H%east_anchored_dec. now rewrite H.
  - intros H. destruct (_ || _) eqn:E; [|reflexivity].
    apply east_anchored_dec in E. contradiction.
  - intros H%south_anchored_dec. now rewrite H.
  - intros H. destruct (Corner_eqb corner SouthWest || _) eqn:E; [|reflexivity].
    apply south_anchored_dec in E. contradiction.
  - intros ->. reflexivity.
  - intros ->. reflexivity.
Qed.

Lemma tilecoordinates_inv_left order corner shape p :
  tilecoordinates_inv order corner shape (tilecoordinates order corner shape p)
  = p.
Proof.
  destruct shape as [rows cols], p as [row col].
  destruct order, corner; simpl; f_equal; lia.
Qed.

Lemma tilecoordinates_inv_right order corner shape b :
  tilecoordinates order corner shape (tilecoordinates_inv order corner shape b)
  = b.
Proof.
  destruct shape as [rows cols], b as [x y].
  destruct order, corner; simpl; f_equal; lia.
Qed.

Lemma tilecoordinates_in_grid order corner shape p :
  in_grid shape p ->
  in_grid (basis_shape order shape) (tilecoordinates order corner shape p).
Proof.
  destruct shape as [rows cols], p as [row col]. unfold in_grid. simpl.
  destruct order, corner; simpl; lia.
Qed.

Lemma tilecoordinates_inv_in_grid order corner shape b :
  in_grid (basis_shape order shape) b ->
  in_grid shape (tilecoordinates_inv order corner shape b).
Proof.
  destruct shape as [rows cols], b as [x y]. unfold in_grid. simpl.
  destruct order, corner; simpl; lia.
Qed.

(** C7: for every corner, order and grid shape, [tilecoordinates] followed by
    its inverse returns the original in-range (row, col); the image lies in
    the grid of the target basis, and [tilecoordinates] is one-to-one on the
    grid and onto the grid of the target basis. *)
Theorem tilecoordinates_roundtrip (order : Order) (corner : Corner)
    (shape p : Z * Z) :
  in_grid shape p ->
  tilecoordinates_inv order corner shape (tilecoordinates order corner shape p)
  = p /\
  in_grid (basis_shape order shape) (tilecoordinates order corner shape p) /\
  (forall q, in_grid shape q ->
     tilecoordinates order corner shape q = tilecoordinates order corner shape p ->
     q = p) /\
  (forall b, in_grid (basis_shape order shape) b ->
     exists q, in_grid shape q /\ tilecoordinates order corner shape q = b).
Proof.
  intros Hp. split; [apply tilecoordinates_inv_left|].
  split; [now apply tilecoordinates_in_grid|]. split.
  - intros q _ Heq.
    rewrite <- (tilecoordinates_inv_left order corner shape q), Heq.
    apply tilecoordinates_inv_left.
  - intros b Hb. exists (tilecoordinates_inv order corner shape b).
    split; [now apply tilecoordinates_inv_in_grid|].
    apply tilecoordinates_inv_right.
Qed.

Lemma tilecoordinates_roundtrip_witness :
  in_grid (3, 4) (1, 3) /\
  tilecoordinates_inv ColMajor SouthWest (3, 4)
    (tilecoordinates ColMajor SouthWest (3, 4) (1, 3)) = (1, 3).
Proof.
  assert (H : in_grid (3, 4) (1, 3)) by (unfold in_grid; simpl; lia).
  split; [exact H|].
  exact (proj1 (tilecoordinates_roundtrip ColMajor SouthWest (3, 4) (1, 3) H)).
Defined.

(** ** Padder *)

(** A target smaller than the image in either dimension is refused before
    anything is resized. *)
Lemma pad_smaller_raises corner shape img fill r c px :
  nd_shape img = r :: c :: px ->
  (fst shape < r)%nat \/ (snd shape < c)%nat ->
  pad corner shape img fill = Raise ValueError.
Proof.
  intros Hs Hlt. unfold pad. rewrite Hs. simpl.
  destruct (_ || _) eqn:E; [reflexivity|].
  apply orb_false_iff in E as [E1 E2].
  apply Z.ltb_ge in E1, E2. lia.
Qed.

(** The shape after a successful [pad] is the target with the pixel axes
    of the image. *)
Lemma pad_shape corner shape img fill out :
  pad corner shape img fill = Ok out ->
  nd_shape out = [fst shape; snd shape] ++ drop 2 (nd_shape img).
Proof.
  unfold pad. intros H.
  destruct (take 2 (nd_shape img)) as [|r [|c [|]]]; try discriminate.
  destruct (_ || _); [discriminate|].
  destruct (_ && _); [discriminate|].
  destruct (is_south corner), (is_east corner); simpl in H;
    injection H as <-; reflexivity.
Qed.

(** The row loop runs without error when [px_len] is an integer, or when
    there is no row to copy. *)
Lemma px_len_int r px :
  px <> [] \/ r = 0%nat -> px_len_is_float px && (0 <? r)%nat = false.
Proof.
  intros [Hpx| ->]; [|apply andb_false_r].
  destruct px; [congruence|reflexivity].
Qed.

Lemma px_len_float r px :
  px_len_is_float px && (0 <? r)%nat = true <-> px = [] /\ (0 < r)%nat.
Proof.
  rewrite andb_true_iff, Nat.ltb_lt.
  destruct px; simpl; intuition congruence.
Qed.

(** [pad] up to the row loop, on an image with at least two axes and a
    target that is not smaller. *)
Lemma pad_float_test corner shape img fill r c px :
  nd_shape img = r :: c :: px ->
  (r <= fst shape)%nat -> (c <= snd shape)%nat ->
  (px_len_is_float px && (0 <? r)%nat = true ->
   pad corner shape img fill = Raise TypeError) /\
  (px_len_is_float px && (0 <? r)%nat = false ->
   exists out, pad corner shape img fill = Ok out).
Proof.
  intros Hs Hr Hc. unfold pad. rewrite Hs.
  change (take 2 (r :: c :: px)) with (r :: c :: take 0 px).
  change (drop 2 (r :: c :: px)) with (drop 0 px).
  rewrite !take_0, !drop_0.
  destruct (_ || _) eqn:E.
  { apply orb_true_iff in E as [E|E]; apply Z.ltb_lt in E; lia. }
  split; intros ->; [reflexivity|].
  destruct (is_south corner), (is_east corner); simpl; eauto.
Qed.

Lemma pad_ok corner shape img fill r c px :
  nd_shape img = r :: c :: px ->
  (r <= fst shape)%nat -> (c <= snd shape)%nat ->
  px <> [] \/ r = 0%nat ->
  exists out, pad corner shape img fill = Ok out.
Proof.
  intros Hs Hr Hc Hpx.
  now apply (pad_float_test corner shape img fill r c px Hs Hr Hc), px_len_int.
Qed.

(** On an image with two axes only and at least one row, [pad] raises
    TypeError when it gets to the row loop. *)
Lemma pad_two_axes_raises corner shape img fill r c :
  nd_shape img = [r; c] ->
  (0 < r)%nat -> (r <= fst shape)%nat -> (c <= snd shape)%nat ->
  pad corner shape img fill = Raise TypeError.
Proof.
  intros Hs H0 Hr Hc.
  apply (pad_float_test corner shape img fill r c [] Hs Hr Hc).
  now apply px_len_float.
Qed.

(** When [pad] returns, the image has a pixel axis or no row, and the target
    is not smaller than the image. *)
Lemma pad_ok_px corner shape img fill out r c px :
  nd_shape img = r :: c :: px ->
  pad corner shape img fill = Ok out ->
  (r <= fst shape)%nat /\ (c <= snd shape)%nat /\ (px <> [] \/ r = 0%nat).
Proof.
  intros Hs H.
  destruct (Nat.le_gt_cases r (fst shape)) as [Hr|Hr];
    [destruct (Nat.le_gt_cases c (snd shape)) as [Hc|Hc]|].
  - split; [exact Hr|]. split; [exact Hc|].
    destruct px as [|p px]; [|left; discriminate].
    destruct r as [|r]; [now right|].
    rewrite (pad_two_axes_raises corner shape img fill (S r) c Hs) in H;
      [discriminate|lia|exact Hr|exact Hc].
  - rewrite (pad_smaller_raises corner shape img fill r c px Hs) in H;
      [discriminate|right; exact Hc].
  - rewrite (pad_smaller_raises corner shape img fill r c px Hs) in H;
      [discriminate|left; exact Hr].
Qed.

(** What [pad] does on an image with at least two axes: ValueError for a
    smaller target, TypeError when the row loop meets a float [px_len], and
    a result otherwise. *)
Lemma pad_cases corner shape img fill r c px :
  nd_shape img = r :: c :: px ->
  ((fst shape < r)%nat \/ (snd shape < c)%nat) /\
    pad corner shape img fill = Raise ValueError \/
  ((r <= fst shape)%nat /\ (c <= snd shape)%nat /\ px = [] /\ (0 < r)%nat) /\
    pad corner shape img fill = Raise TypeError \/
  ((r <= fst shape)%nat /\ (c <= snd shape)%nat /\
   (px <> [] \/ r = 0%nat)) /\
    exists out, pad corner shape img fill = Ok out.
Proof.
  intros Hs.
  destruct (Nat.le_gt_cases r (fst shape)) as [Hr|Hr];
    [destruct (Nat.le_gt_cases c (snd shape)) as [Hc|Hc]|].
  - destruct (pad_float_test corner shape img fill r c px Hs Hr Hc) as [T F].
    destruct (px_len_is_float px && (0 <? r)%nat) eqn:E.
    + right; left. apply px_len_float in E as [-> H0]. auto.
    + right; right. destruct (F eq_refl) as [out Hout].
      split; [|now exists out].
      split; [exact Hr|]. split; [exact Hc|].
      now apply (pad_ok_px corner shape img fill out r c px Hs Hout).
  - left. split; [now right|].
    apply (pad_smaller_raises corner shape img fill r c px Hs). now right.
  - left. split; [now left|].
    apply (pad_smaller_raises corner shape img fill r c px Hs). now left.
Qed.

(** C2: padding the 5x5 raster [img5] (pixels 1..25, row by row) to 8x8
    anchored SouthWest.  The pixels of rows 0..3, columns 0..3 arrive at rows
    3..6, columns 0..3 and the border is the fill value 0; but the slices
    [img[bottom:, :]] and [img[:, right:]] start one cell early, so the last
    original row (21..25, expected in row 7) and the last original column
    (5, 10, .., 25, expected in column 4) are overwritten with the fill
    value.  A smaller target raises ValueError. *)
Theorem pad_southwest_5x5_drops_last_row_and_column :
  pad SouthWest (8, 8)%nat img5 None =
    Ok (mk_ndarray [8; 8; 1]%nat
          [0; 0; 0; 0; 0; 0; 0; 0;
           0; 0; 0; 0; 0; 0; 0; 0;
           0; 0; 0; 0; 0; 0; 0; 0;
           1; 2; 3; 4; 0; 0; 0; 0;
           6; 7; 8; 9; 0; 0; 0; 0;
           11; 12; 13; 14; 0; 0; 0; 0;
           16; 17; 18; 19; 0; 0; 0; 0;
           0; 0; 0; 0; 0; 0; 0; 0]) /\
  pixel img5 4 0 0 = 21 /\
  pixel img5 0 4 0 = 5 /\
  (forall out, pad SouthWest (8, 8)%nat img5 None = Ok out ->
     pixel out 7 0 0 = 0 /\ pixel out 3 4 0 = 0) /\
  pad SouthWest (4, 8)%nat img5 None = Raise ValueError /\
  pad SouthWest (8, 4)%nat img5 None = Raise ValueError.
Proof.
  assert (E : pad SouthWest (8, 8)%nat img5 None =
    Ok (mk_ndarray [8; 8; 1]%nat
          [0; 0; 0; 0; 0; 0; 0; 0;
           0; 0; 0; 0; 0; 0; 0; 0;
           0; 0; 0; 0; 0; 0; 0; 0;
           1; 2; 3; 4; 0; 0; 0; 0;
           6; 7; 8; 9; 0; 0; 0; 0;
           11; 12; 13; 14; 0; 0; 0; 0;
           16; 17; 18; 19; 0; 0; 0; 0;
           0; 0; 0; 0; 0; 0; 0; 0])) by (vm_compute; reflexivity).
  split; [exact E|]. split; [reflexivity|]. split; [reflexivity|].
  split; [|split; vm_compute; reflexivity].
  intros out H. rewrite E in H. injection H as <-. split; reflexivity.
Qed.

(** The same slices lose the last row and the last column for every corner,
    also when the target equals the current shape. *)
Example pad_same_shape_not_identity :
  pad NorthWest (2, 2)%nat img2 None = Ok (mk_ndarray [2; 2; 1]%nat [1; 0; 0; 0]).
Proof. vm_compute. reflexivity. Qed.

(** ** Tile extractor *)

Lemma ceil_div_covers s t : (0 < t)%nat -> (s <= t * ceil_div s t)%nat.
Proof.
  intros Ht. unfold ceil_div.
  pose proof (Nat.div_mod_eq (s + t - 1) t) as E.
  pose proof (Nat.mod_upper_bound (s + t - 1) t) as B. lia.
Qed.

Lemma ceil_div_mul_div s t : (0 < t)%nat -> (t * ceil_div s t / t = ceil_div s t)%nat.
Proof. intros Ht. rewrite Nat.mul_comm. apply Nat.div_mul. lia. Qed.

Lemma ceil_div_exact s t :
  (0 < t)%nat -> (s mod t = 0)%nat -> (t * ceil_div s t = s)%nat.
Proof.
  intros Ht Hm. unfold ceil_div.
  pose proof (Nat.div_mod_eq s t) as E. rewrite Hm in E.
  assert (Hq : ((s + t - 1) / t = s / t)%nat).
  { symmetry. apply (Nat.div_unique _ _ _ (t - 1)); lia. }
  rewrite Hq. lia.
Qed.

Lemma ceil_div_mul_mod s t : (0 < t)%nat -> ((t * ceil_div s t) mod t = 0)%nat.
Proof. intros Ht. rewrite Nat.mul_comm. apply Nat.Div0.mod_mul. Qed.

Lemma flat_map_length_const {A B : Type} (f : A -> list B) (l : list A) n :
  (forall x, length (f x) = n) ->
  length (flat_map f l) = (length l * n)%nat.
Proof.
  intros Hf. induction l as [|x l IH]; simpl; [reflexivity|].
  rewrite length_app, Hf, IH. reflexivity.
Qed.

Lemma scan_tiles_length ts img a corner order rows cols :
  length (scan_tiles ts img a corner order rows cols) = (rows * cols)%nat.
Proof.
  unfold scan_tiles. rewrite (flat_map_length_const _ _ cols).
  - now rewrite length_seq.
  - intros row. now rewrite length_map, length_seq.
Qed.

Lemma scan_tiles_base ts img a corner order rows cols :
  Forall (fun t => v_base (fst t) = img)
         (scan_tiles ts img a corner order rows cols).
Proof.
  unfold scan_tiles. apply List.Forall_forall. intros t Hin.
  apply in_flat_map in Hin as (row & _ & Hin).
  apply in_map_iff in Hin as (col & <- & _). simpl.
  unfold getitem. destruct (nd_shape a) as [|? [|? ?]]; reflexivity.
Qed.

(** What [gettiles] computes on an image with at least two axes and a tile
    shape with positive extents: the image is replaced in place by its padded
    self [a'] (itself when nothing was to pad), whose first two extents are
    the next multiples of the tile shape, and the grid is scanned. *)
Lemma gettiles_eq th tw st img corner order a r c px :
  st !! img = Some a ->
  nd_shape a = r :: c :: px ->
  (0 < th)%nat -> (0 < tw)%nat ->
  ((r mod th = 0)%nat /\ (c mod tw = 0)%nat) \/ px <> [] \/ r = 0%nat ->
  exists a',
    ((r mod th = 0)%nat /\ (c mod tw = 0)%nat /\ a' = a \/
     ~ ((r mod th = 0)%nat /\ (c mod tw = 0)%nat) /\
     pad corner ((th * ceil_div r th)%nat, (tw * ceil_div c tw)%nat) a None
       = Ok a') /\
    nd_shape a' = (th * ceil_div r th)%nat :: (tw * ceil_div c tw)%nat :: px /\
    gettiles (th, tw) st img corner order =
      Ok (<[img := a']> st,
          scan_tiles (th, tw) img a' corner order
            (ceil_div r th) (ceil_div c tw)).
Proof.
  intros Hst Hs Hth Htw Hpx.
  assert (Hlt : (img < length st)%nat) by (eapply lookup_lt_Some; eassumption).
  unfold gettiles. rewrite Hst, Hs.
  destruct (Nat.eqb_spec th 0) as [->|_]; [lia|].
  destruct (Nat.eqb_spec tw 0) as [->|_]; [lia|]. simpl orb. cbv iota.
  destruct (Nat.eqb_spec (r mod th) 0) as [Hr|Hr];
    [destruct (Nat.eqb_spec (c mod tw) 0) as [Hc|Hc]|]; simpl andb; cbv iota.
  - exists a. rewrite !ceil_div_exact by assumption.
    split; [left; auto|]. split; [assumption|].
    rewrite Hst, Hs. simpl nth.
    rewrite list_insert_id by assumption.
    rewrite <- (ceil_div_exact r th) at 1 by assumption.
    rewrite <- (ceil_div_exact c tw) at 1 by assumption.
    rewrite !ceil_div_mul_div by assumption. reflexivity.
  - destruct (pad_ok corner ((th * ceil_div r th)%nat, (tw * ceil_div c tw)%nat)
                a None r c px Hs) as [a' Ha'];
      [apply ceil_div_covers; assumption..|tauto|].
    exists a'. split; [right; split; [tauto|assumption]|].
    pose proof (pad_shape _ _ _ _ _ Ha') as Hs'. rewrite Hs in Hs'. simpl in Hs'.
    split; [assumption|].
    unfold pad_at. rewrite Hst, Ha'.
    rewrite list_lookup_insert_eq by assumption. rewrite Hs'. simpl nth.
    rewrite !ceil_div_mul_div by assumption. reflexivity.
  - destruct (pad_ok corner ((th * ceil_div r th)%nat, (tw * ceil_div c tw)%nat)
                a None r c px Hs) as [a' Ha'];
      [apply ceil_div_covers; assumption..|tauto|].
    exists a'. split; [right; split; [tauto|assumption]|].
    pose proof (pad_shape _ _ _ _ _ Ha') as Hs'. rewrite Hs in Hs'. simpl in Hs'.
    split; [assumption|].
    unfold pad_at. rewrite Hst, Ha'.
    rewrite list_lookup_insert_eq by assumption. rewrite Hs'. simpl nth.
    rewrite !ceil_div_mul_div by assumption. reflexivity.
Qed.

(** When [gettiles] does not raise, the image has two axes at least, the
    tile extents are positive, and the image needed no padding or could be
    padded. *)
Lemma gettiles_ok_inv ts st img corner order res :
  gettiles ts st img corner order = Ok res ->
  exists a r c px,
    st !! img = Some a /\ nd_shape a = r :: c :: px /\
    (0 < fst ts)%nat /\ (0 < snd ts)%nat /\
    (((r mod fst ts = 0)%nat /\ (c mod snd ts = 0)%nat) \/
     px <> [] \/ r = 0%nat).
Proof.
  destruct ts as [th tw]. unfold gettiles. intros H.
  destruct (st !! img) as [a|] eqn:Hst; [|discriminate].
  destruct (nd_shape a) as [|r [|c px]] eqn:Hs; [discriminate| |].
  - destruct (th =? 0)%nat; discriminate.
  - exists a, r, c, px. cbn [fst snd].
    destruct (Nat.eqb_spec th 0) as [->|Hth]; [discriminate|].
    destruct (Nat.eqb_spec tw 0) as [->|Htw]; [discriminate|].
    split; [reflexivity || assumption|]. split; [reflexivity || assumption|].
    split; [lia|]. split; [lia|].
    simpl orb in H. cbv iota in H.
    destruct ((r mod th =? 0)%nat && (c mod tw =? 0)%nat) eqn:E.
    + left. apply andb_true_iff in E as [E1 E2].
      apply Nat.eqb_eq in E1, E2. auto.
    + right. unfold pad_at in H. rewrite Hst in H.
      destruct (pad corner _ a None) as [a'|err] eqn:Hp; [|discriminate].
      now apply (pad_ok_px _ _ _ _ _ _ _ _ Hs Hp).
Qed.

(** [gettiles] raises TypeError only out of [pad], on an image with two axes
    only that has a row and needs padding. *)
Lemma gettiles_type_error ts st img corner order :
  gettiles ts st img corner order = Raise TypeError ->
  exists a r c,
    st !! img = Some a /\ nd_shape a = [r; c] /\ (0 < r)%nat /\
    (0 < fst ts)%nat /\ (0 < snd ts)%nat /\
    ~ ((r mod fst ts = 0)%nat /\ (c mod snd ts = 0)%nat).
Proof.
  destruct ts as [th tw]. unfold gettiles. intros H.
  destruct (st !! img) as [a|] eqn:Hst; [|discriminate].
  destruct (nd_shape a) as [|r [|c px]] eqn:Hs; [discriminate| |].
  - destruct (th =? 0)%nat; discriminate.
  - destruct (Nat.eqb_spec th 0) as [->|Hth]; [discriminate|].
    destruct (Nat.eqb_spec tw 0) as [->|Htw]; [discriminate|].
    simpl orb in H. cbv iota in H.
    destruct ((r mod th =? 0)%nat && (c mod tw =? 0)%nat) eqn:E.
    + rewrite Hst in H. discriminate.
    + unfold pad_at in H. rewrite Hst in H.
      destruct (pad_cases corner ((th * ceil_div r th)%nat,
                  (tw * ceil_div c tw)%nat) a None r c px Hs)
        as [[_ Hp]|[[(_ & _ & -> & H0) Hp]|[_ [out Hp]]]];
        rewrite Hp in H.
      * discriminate.
      * exists a, r, c. cbn [fst snd].
        split; [reflexivity|]. split; [reflexivity || assumption|].
        split; [exact H0|]. split; [lia|]. split; [lia|].
        intros [E1 E2]. apply Nat.eqb_eq in E1, E2.
        rewrite E1, E2 in E. discriminate.
      * destruct (<[img := out]> st !! img); discriminate.
Qed.

Lemma gettiles_two_axes_raises th tw st img corner order a r c :
  st !! img = Some a ->
  nd_shape a = [r; c] ->
  (0 < r)%nat -> (0 < th)%nat -> (0 < tw)%nat ->
  ~ ((r mod th = 0)%nat /\ (c mod tw = 0)%nat) ->
  gettiles (th, tw) st img corner order = Raise TypeError.
Proof.
  intros Hst Hs H0 Hth Htw Hn. unfold gettiles. rewrite Hst, Hs.
  destruct (Nat.eqb_spec th 0) as [->|_]; [lia|].
  destruct (Nat.eqb_spec tw 0) as [->|_]; [lia|]. simpl orb. cbv iota.
  destruct ((r mod th =? 0)%nat && (c mod tw =? 0)%nat) eqn:E.
  { apply andb_true_iff in E as [E1 E2]. apply Nat.eqb_eq in E1, E2. tauto. }
  unfold pad_at. rewrite Hst.
  rewrite (pad_two_axes_raises corner _ a None r c Hs H0);
    [reflexivity|apply ceil_div_covers; assumption..].
Qed.

(** Distinctness of the members of an explicit list. *)
Ltac nodup_concrete :=
  repeat (constructor;
          [rewrite list_elem_of_In; simpl; intuition congruence|]);
  constructor.

(** The array that [gettiles] leaves at [img], and the number of tiles. *)
Lemma gettiles_count th tw st img corner order a r c px :
  st !! img = Some a ->
  nd_shape a = r :: c :: px ->
  (0 < th)%nat -> (0 < tw)%nat ->
  ((r mod th = 0)%nat /\ (c mod tw = 0)%nat) \/ px <> [] \/ r = 0%nat ->
  exists st' a' tiles pr pc,
    gettiles (th, tw) st img corner order = Ok (st', tiles) /\
    st' !! img = Some a' /\
    nd_shape a' = pr :: pc :: px /\
    (pr mod th = 0)%nat /\ (pc mod tw = 0)%nat /\
    (r <= pr)%nat /\ (c <= pc)%nat /\
    length tiles = ((pr / th) * (pc / tw))%nat.
Proof.
  intros Hst Hs Hth Htw Hpx.
  destruct (gettiles_eq th tw st img corner order a r c px Hst Hs Hth Htw Hpx)
    as (a' & _ & Hs' & Heq).
  exists (<[img := a']> st), a',
    (scan_tiles (th, tw) img a' corner order (ceil_div r th) (ceil_div c tw)),
    (th * ceil_div r th)%nat, (tw * ceil_div c tw)%nat.
  split; [exact Heq|]. split.
  { apply list_lookup_insert_eq. eapply lookup_lt_Some; eassumption. }
  split; [exact Hs'|].
  split; [now apply ceil_div_mul_mod|]. split; [now apply ceil_div_mul_mod|].
  split; [now apply ceil_div_covers|]. split; [now apply ceil_div_covers|].
  rewrite scan_tiles_length, !ceil_div_mul_div by assumption. reflexivity.
Qed.

(** C6: on an image with a pixel axis, or whose first two extents are
    multiples of the tile shape already, and for a tile shape with positive
    extents, [gettiles] returns; and whenever it returns, on any image, it
    leaves at [img] an array whose first two extents [pr], [pc] are
    multiples of the tile shape, not smaller than the original ones, and
    yields [(pr / th) * (pc / tw)] tiles.  On every raster with 4 rows and
    4 columns and tile shape (2, 2), for any corner and order, it pads
    nothing and yields exactly 4 tiles of 2 by 2 pixels, in row-major scan
    order, whose cells together are the 16 cells of the raster, each
    once. *)
Theorem gettiles_tile_count (th tw : nat) (st : store) (img : nat)
    (corner : Corner) (order : Order) (a : ndarray) (r c : nat)
    (px : list nat) :
  st !! img = Some a ->
  nd_shape a = r :: c :: px ->
  (0 < th)%nat -> (0 < tw)%nat ->
  (px <> [] \/ ((r mod th = 0)%nat /\ (c mod tw = 0)%nat) ->
   exists st' a' tiles pr pc,
     gettiles (th, tw) st img corner order = Ok (st', tiles) /\
     st' !! img = Some a' /\
     nd_shape a' = pr :: pc :: px /\
     (pr mod th = 0)%nat /\ (pc mod tw = 0)%nat /\
     (r <= pr)%nat /\ (c <= pc)%nat /\
     length tiles = ((pr / th) * (pc / tw))%nat) /\
  (forall st' tiles,
     gettiles (th, tw) st img corner order = Ok (st', tiles) ->
     exists a' pr pc,
       st' !! img = Some a' /\
       nd_shape a' = pr :: pc :: px /\
       (pr mod th = 0)%nat /\ (pc mod tw = 0)%nat /\
       (r <= pr)%nat /\ (c <= pc)%nat /\
       length tiles = ((pr / th) * (pc / tw))%nat) /\
  (forall (px4 : list nat) (data : list Z),
     let a4 := mk_ndarray (4 :: 4 :: px4)%nat data in
     exists tiles,
       gettiles (2, 2)%nat [a4] 0 corner order = Ok ([a4], tiles) /\
       length tiles = 4%nat /\
       Forall (fun t => view_shape (fst t) = (2 :: 2 :: px4)%nat) tiles /\
       map (fun t => view_cells (fst t)) tiles =
         [[(0, 0); (0, 1); (1, 0); (1, 1)];
          [(0, 2); (0, 3); (1, 2); (1, 3)];
          [(2, 0); (2, 1); (3, 0); (3, 1)];
          [(2, 2); (2, 3); (3, 2); (3, 3)]]%nat /\
       NoDup (concat (map (fun t => view_cells (fst t)) tiles)) /\
       Permutation (concat (map (fun t => view_cells (fst t)) tiles))
                   (grid_cells 4 4)).
Proof.
  intros Hst Hs Hth Htw. split; [|split].
  - intros Hpx.
    apply (gettiles_count th tw st img corner order a r c px Hst Hs Hth Htw).
    tauto.
  - intros st' tiles Hg.
    destruct (gettiles_ok_inv _ _ _ _ _ _ Hg)
      as (a0 & r0 & c0 & px0 & Hst0 & Hs0 & _ & _ & Hpx).
    rewrite Hst in Hst0. injection Hst0 as <-.
    rewrite Hs in Hs0. injection Hs0 as <- <- <-. cbn [fst snd] in Hpx.
    destruct (gettiles_count th tw st img corner order a r c px Hst Hs Hth Htw
                Hpx) as (st2 & a' & tiles2 & pr & pc & Hg2 & Hrest).
    rewrite Hg in Hg2. injection Hg2 as <- <-.
    exists a', pr, pc. exact Hrest.
  - intros px4 data a4.
    exists (scan_tiles (2, 2)%nat 0 a4 corner order 2 2).
    split; [reflexivity|]. split; [reflexivity|].
    split; [repeat constructor|]. split; [reflexivity|].
    assert (Hnd : NoDup (concat (map (fun t => view_cells (fst t))
                     (scan_tiles (2, 2)%nat 0 a4 corner order 2 2)))).
    { cbn. nodup_concrete. }
    split; [exact Hnd|].
    apply NoDup_Permutation; [exact Hnd|cbn; nodup_concrete|].
    intros [x y]. cbn. rewrite !list_elem_of_In. simpl. tauto.
Qed.

Lemma gettiles_tile_count_witness :
  exists st' a' tiles pr pc,
    gettiles (2, 2)%nat [img5] 0 SouthWest ColMajor = Ok (st', tiles) /\
    st' !! 0%nat = Some a' /\
    nd_shape a' = pr :: pc :: [1%nat] /\
    (pr mod 2 = 0)%nat /\ (pc mod 2 = 0)%nat /\
    (5 <= pr)%nat /\ (5 <= pc)%nat /\
    length tiles = ((pr / 2) * (pc / 2))%nat.
Proof.
  refine (proj1 (gettiles_tile_count 2 2 [img5] 0 SouthWest ColMajor img5 5 5
                   [1%nat] _ _ _ _) _).
  - reflexivity.
  - reflexivity.
  - lia.
  - lia.
  - left. discriminate.
Defined.

(** ** Downsampler *)

Lemma py_round_one n : py_round n 1 = n.
Proof. unfold py_round. rewrite Z.div_1_r, Z.mod_1_r. reflexivity. Qed.

Lemma py_round_even_half n : py_round (2 * n) 2 = n.
Proof.
  unfold py_round.
  replace (2 * n) with (n * 2) by lia.
  rewrite Z.div_mul, Z.mod_mul by lia. reflexivity.
Qed.

Section ResamplingFacts.

Variable resample : list nat -> list nat -> list Z -> list Z.

(** On a three-axis array the first two extents are halved (rounding ties
    to even) and the third is kept. *)
Lemma libzoom_three_axes r w c data :
  libzoom resample (mk_ndarray [r; w; c] data) [(1, 2); (1, 2); (1, 1)] =
    Ok (mk_ndarray
          [Z.to_nat (py_round (Z.of_nat r) 2);
           Z.to_nat (py_round (Z.of_nat w) 2); c]
          (resample [r; w; c]
             [Z.to_nat (py_round (Z.of_nat r) 2);
              Z.to_nat (py_round (Z.of_nat w) 2); c] data)).
Proof.
  unfold libzoom. simpl.
  rewrite !Z.mul_1_r, py_round_one, Nat2Z.id. reflexivity.
Qed.

Lemma libzoom_rank a :
  length (nd_shape a) <> 3%nat ->
  libzoom resample a [(1, 2); (1, 2); (1, 1)] = Raise RuntimeError.
Proof.
  intros H. unfold libzoom. simpl length.
  destruct (Nat.eqb_spec 3 (length (nd_shape a))); [congruence|reflexivity].
Qed.


(** C10: [zoom] always hands [libzoom] the three factors (0.5, 0.5, 1), so
    it raises on every array that does not have exactly three axes: a
    raster with two axes gets RuntimeError, and [zoom] returns only on
    three-axis rasters. *)
Theorem zoom_requires_channel_axis (st : store) (img : nat) (a : ndarray) :
  st !! img = Some a ->
  (length (nd_shape a) = 2%nat -> zoom resample st img = Raise RuntimeError) /\
  (length (nd_shape a) <> 3%nat ->
     libzoom resample a [(1, 2); (1, 2); (1, 1)] = Raise RuntimeError) /\
  (forall res, zoom resample st img = Ok res -> length (nd_shape a) = 3%nat).
Proof.
  intros Hst. split; [|split].
  - intros H2. unfold zoom. rewrite Hst.
    destruct (nd_shape a) as [|r [|c [|]]] eqn:Hs; try discriminate.
    cbn [take length Nat.ltb Nat.leb].
    rewrite libzoom_rank; [reflexivity|]. rewrite Hs. discriminate.
  - apply libzoom_rank.
  - intros res. unfold zoom. rewrite Hst.
    destruct (_ <? _)%nat; [discriminate|].
    destruct (Nat.eq_dec (length (nd_shape a)) 3%nat) as [|Hne]; [trivial|].
    rewrite libzoom_rank by assumption. discriminate.
Qed.

End ResamplingFacts.


Lemma zoom_requires_channel_axis_witness :
  zoom nearest_resample [img8_flat] 0 = Raise RuntimeError.
Proof.
  exact (proj1 (zoom_requires_channel_axis nearest_resample [img8_flat] 0
                  img8_flat eq_refl) eq_refl).
Defined.

(** ** Frame properties of the store operations *)

Lemma read_view_ext (st st' : store) v :
  st' !! v_base v = st !! v_base v -> read_view st' v = read_view st v.
Proof. intros H. unfold read_view. now rewrite H. Qed.

(** [gettiles] touches no array but [img], which it leaves with extents that
    are multiples of the tile shape; it touches nothing at all when they
    already were.  Every tile it yields addresses the buffer of [img]. *)
Lemma gettiles_frame ts (st : store) img corner order st1 tiles :
  gettiles ts st img corner order = Ok (st1, tiles) ->
  length st1 = length st /\
  (forall id, id <> img -> st1 !! id = st !! id) /\
  divisible ts st1 img /\
  (divisible ts st img -> st1 = st) /\
  Forall (fun t => v_base (fst t) = img) tiles.
Proof.
  intros H.
  destruct (gettiles_ok_inv _ _ _ _ _ _ H) as (a & r & c & px & Hst & Hs & Hth & Htw & Hpx).
  destruct ts as [th tw]. simpl in Hth, Htw, Hpx.
  destruct (gettiles_eq th tw st img corner order a r c px Hst Hs Hth Htw
              Hpx)
    as (a' & Hcase & Hs' & Heq).
  rewrite Heq in H. injection H as <- <-.
  assert (Hlt : (img < length st)%nat) by (eapply lookup_lt_Some; eassumption).
  split; [apply length_insert|].
  split; [intros id Hne; apply list_lookup_insert_ne; congruence|].
  split.
  { exists a', (th * ceil_div r th)%nat, (tw * ceil_div c tw)%nat, px.
    split; [now apply list_lookup_insert_eq|]. split; [exact Hs'|].
    simpl. split; now apply ceil_div_mul_mod. }
  split; [|apply scan_tiles_base].
  intros (b & r' & c' & px' & Hb & Hsb & Hr & Hc).
  rewrite Hst in Hb. injection Hb as <-.
  rewrite Hs in Hsb. injection Hsb as <- <- <-. simpl in Hr, Hc.
  destruct Hcase as [(_ & _ & ->)|[Hn _]]; [|tauto].
  now apply list_insert_id.
Qed.

(** A call of [gettiles] that raised has touched at most [img]; it has
    touched nothing unless the exception is the TypeError of [pad], which
    does not come when the extents of [img] are multiples of the tile
    shape. *)
Lemma gettiles_raised_frame ts (st : store) img e :
  length (gettiles_raised ts st img e) = length st /\
  (forall id, id <> img -> gettiles_raised ts st img e !! id = st !! id).
Proof.
  destruct ts as [th tw]. unfold gettiles_raised.
  destruct (st !! img) as [a|]; [|auto].
  destruct (nd_shape a) as [|r [|c px]]; auto.
  split; [apply length_insert|].
  intros id Hne. apply list_lookup_insert_ne. congruence.
Qed.

Lemma gettiles_raised_id ts (st : store) img e :
  e <> TypeError -> gettiles_raised ts st img e = st.
Proof.
  intros He. destruct ts as [th tw]. unfold gettiles_raised.
  destruct (st !! img) as [a|] eqn:Hst; [|reflexivity].
  destruct (nd_shape a) as [|r [|c px]]; try reflexivity.
  apply list_insert_id. rewrite Hst. f_equal.
  destruct e; try reflexivity. congruence.
Qed.

Lemma gettiles_raised_divisible ts (st : store) img corner order e :
  gettiles ts st img corner order = Raise e ->
  divisible ts st img ->
  gettiles_raised ts st img e = st.
Proof.
  intros H (a & r & c & px & Hst & Hs & Hr & Hc).
  apply gettiles_raised_id. intros ->.
  destruct (gettiles_type_error _ _ _ _ _ H)
    as (a0 & r0 & c0 & Hst0 & Hs0 & _ & _ & _ & Hn).
  rewrite Hst in Hst0. injection Hst0 as <-.
  rewrite Hs in Hs0. injection Hs0 as <- <- _. tauto.
Qed.

Section WalkerFacts.

Variable resample : list nat -> list nat -> list Z -> list Z.

(** [zoom] mutates nothing: it appends one array. *)
Lemma zoom_frame (st : store) img st2 img2 :
  zoom resample st img = Ok (st2, img2) ->
  exists a', st2 = st ++ [a'] /\ img2 = length st.
Proof.
  unfold zoom. destruct (st !! img) as [a|]; [|discriminate].
  destruct (_ <? _)%nat; [discriminate|].
  destruct (libzoom _ _ _) as [a'|]; [|discriminate].
  unfold alloc. intros [= <- <-]. eauto.
Qed.

Lemma zoom_three_axes (st : store) img r w c data :
  st !! img = Some (mk_ndarray [r; w; c] data) ->
  zoom resample st img =
    Ok (st ++ [mk_ndarray
                 [Z.to_nat (py_round (Z.of_nat r) 2);
                  Z.to_nat (py_round (Z.of_nat w) 2); c]
                 (resample [r; w; c]
                    [Z.to_nat (py_round (Z.of_nat r) 2);
                     Z.to_nat (py_round (Z.of_nat w) 2); c] data)],
        length st).
Proof.
  intros Hst. unfold zoom. rewrite Hst.
  cbn [nd_shape take length Nat.ltb Nat.leb].
  rewrite libzoom_three_axes. reflexivity.
Qed.

Lemma tile_levels_cons ts st img level rest :
  tile_levels resample ts st img (level :: rest) =
    match gettiles ts st img SouthWest ColMajor with
    | Raise e => ([], Some e, gettiles_raised ts st img e)
    | Ok (st1, tiles) =>
        let out :=
          map (fun t =>
                 mk_yielded (fst t) (fst (snd t)) (snd (snd t)) level
                   (read_view st1 (fst t)))
              tiles in
        if (0 <? level)%nat then
          match zoom resample st1 img with
          | Raise e => (out, Some e, st1)
          | Ok (st2, img2) =>
              let '(out', e, st3) := tile_levels resample ts st2 img2 rest in
              (out ++ out', e, st3)
          end
        else
          let '(out', e, st3) := tile_levels resample ts st1 img rest in
          (out ++ out', e, st3)
    end.
Proof. reflexivity. Qed.

(** The walk never writes to an array after a tile of it was yielded: the
    arrays other than the current image are left alone, the current image
    is only padded, before its first tile, and the recorded scalars of
    every yielded tile are still what the tile shows at the end. *)
Lemma tile_levels_frame ts levels :
  forall (st : store) img out e st',
    tile_levels resample ts st img levels = (out, e, st') ->
    (forall id, (id < length st)%nat -> id <> img -> st' !! id = st !! id) /\
    (divisible ts st img -> st' !! img = st !! img) /\
    Forall (fun y => read_view st' (y_tile y) = y_seen y) out.
Proof.
  induction levels as [|level rest IH]; intros st img out e st' H.
  { injection H as <- <- <-. repeat split; auto. }
  rewrite tile_levels_cons in H.
  destruct (gettiles ts st img SouthWest ColMajor) as [[st1 tiles]|err] eqn:Hg.
  2:{ injection H as <- <- <-.
      destruct (gettiles_raised_frame ts st img err) as [_ Ho].
      split; [intros id _ Hne; now apply Ho|].
      split; [|constructor].
      intros Hd. now rewrite (gettiles_raised_divisible _ _ _ _ _ _ Hg Hd). }
  destruct (gettiles_frame _ _ _ _ _ _ _ Hg) as (Hlen & Hother & Hdiv & Hsame & Hbase).
  destruct (gettiles_ok_inv _ _ _ _ _ _ Hg) as (a & _ & _ & _ & Hst & _).
  assert (Hlt : (img < length st)%nat) by (eapply lookup_lt_Some; eassumption).
  assert (Hout : forall st3 : store,
             st3 !! img = st1 !! img ->
             Forall (fun y => read_view st3 (y_tile y) = y_seen y)
               (map (fun t => mk_yielded (fst t) (fst (snd t)) (snd (snd t))
                                level (read_view st1 (fst t))) tiles)).
  { intros st3 H3. apply Forall_map. eapply Forall_impl; [exact Hbase|].
    intros t Ht. simpl. apply read_view_ext. now rewrite Ht. }
  cbv zeta in H. destruct (0 <? level)%nat.
  - destruct (zoom resample st1 img) as [[st2 img2]|err] eqn:Hz.
    + destruct (zoom_frame _ _ _ _ Hz) as (a' & -> & ->).
      destruct (tile_levels resample ts (st1 ++ [a']) (length st1) rest)
        as [[out' e'] st3] eqn:Hrec.
      injection H as <- <- <-.
      destruct (IH _ _ _ _ _ Hrec) as (IHother & _ & IHout).
      assert (Hkeep : forall id, (id < length st)%nat -> st3 !! id = st1 !! id).
      { intros id Hid. rewrite IHother.
        - apply lookup_app_l. lia.
        - rewrite length_app. simpl. lia.
        - lia. }
      split; [intros id Hid Hne; rewrite Hkeep by assumption; now apply Hother|].
      split; [intros Hd; rewrite Hkeep by assumption; now rewrite (Hsame Hd)|].
      apply Forall_app. split; [apply Hout; now apply Hkeep|exact IHout].
    + injection H as <- <- <-.
      split; [intros id _ Hne; now apply Hother|].
      split; [intros Hd; now rewrite (Hsame Hd)|]. now apply Hout.
  - destruct (tile_levels resample ts st1 img rest) as [[out' e'] st3] eqn:Hrec.
    injection H as <- <- <-.
    destruct (IH _ _ _ _ _ Hrec) as (IHother & IHimg & IHout).
    specialize (IHimg Hdiv).
    split.
    { intros id Hid Hne. rewrite IHother by (try assumption; lia).
      now apply Hother. }
    split; [intros Hd; rewrite IHimg; now rewrite (Hsame Hd)|].
    apply Forall_app. split; [now apply Hout|exact IHout].
Qed.

End WalkerFacts.

(** ** Pyramid walker *)

(** [ceil_log2_ratio s t] is the integer [n] with
    [2^(n-1) < s / t <= 2^n], written without fractions. *)
Lemma ceil_log2_ratio_spec s t :
  0 < s -> 0 < t ->
  let n := ceil_log2_ratio s t in
  (0 <= n -> s <= t * 2 ^ n /\ (0 < n -> t * 2 ^ (n - 1) < s)) /\
  (n <= 0 -> s * 2 ^ (- n) <= t /\ t < s * 2 ^ (- n + 1)).
Proof.
  intros Hs Ht. unfold ceil_log2_ratio.
  destruct (Z.leb_spec s t) as [Hle|Hlt]; cbv zeta.
  - assert (Hq : 1 <= t / s) by (apply Z.div_le_lower_bound; lia).
    destruct (Z.log2_spec (t / s)) as [L1 L2]; [lia|].
    pose proof (Z.log2_nonneg (t / s)) as L0.
    pose proof (Z.mul_div_le t s Hs) as D1.
    pose proof (Z.mul_succ_div_gt t s Hs) as D2.
    rewrite Z.opp_involutive.
    replace (Z.succ (Z.log2 (t / s))) with (Z.log2 (t / s) + 1) in L2 by lia.
    split.
    + intros H0. assert (E : Z.log2 (t / s) = 0) by lia. rewrite E in *.
      simpl. split; [lia|lia].
    + intros _. split; nia.
  - set (q := (s + t - 1) / t).
    assert (Hq1 : t * q < s + t).
    { pose proof (Z.mul_div_le (s + t - 1) t Ht). subst q. lia. }
    assert (Hq2 : s <= t * q).
    { pose proof (Z.mul_succ_div_gt (s + t - 1) t Ht). subst q. lia. }
    assert (Hq : 1 < q) by nia.
    destruct (Z.log2_up_spec q Hq) as [L1 L2].
    pose proof (Z.log2_up_pos q Hq) as L0.
    replace (Z.pred (Z.log2_up q)) with (Z.log2_up q - 1) in L1 by lia.
    split.
    + intros _. split; [nia|]. intros _.
      assert (2 ^ (Z.log2_up q - 1) + 1 <= q) by lia. nia.
    + intros H0. lia.
Qed.

(** An image that fits twice into the tile along both axes gets no level at
    all. *)
Lemma auto_nlevels_small r c px th tw :
  (0 < r)%nat -> (0 < c)%nat -> (2 * r <= th)%nat -> (2 * c <= tw)%nat ->
  exists n, auto_nlevels (r :: c :: px) (th, tw) = Ok n /\ n <= 0.
Proof.
  intros Hr Hc Hth Htw.
  assert (Hterm : forall s t, (0 < s)%nat -> (2 * s <= t)%nat ->
            exists a, level_term s t = Ok a /\ a <= -1).
  { intros s t Hs Hst. unfold level_term.
    destruct (Nat.eqb_spec t 0); [lia|]. destruct (Nat.eqb_spec s 0); [lia|].
    eexists. split; [reflexivity|]. unfold ceil_log2_ratio.
    destruct (Z.leb_spec (Z.of_nat s) (Z.of_nat t)); [|lia].
    assert (2 <= Z.of_nat t / Z.of_nat s) by (apply Z.div_le_lower_bound; lia).
    pose proof (Z.log2_le_mono 2 (Z.of_nat t / Z.of_nat s)) as M.
    change (Z.log2 2) with 1 in M. lia. }
  destruct (Hterm r th Hr Hth) as (a & Ha & La).
  destruct (Hterm c tw Hc Htw) as (b & Hb & Lb).
  unfold auto_nlevels. simpl fst. simpl snd. rewrite Ha, Hb.
  eexists. split; [reflexivity|]. lia.
Qed.

Section WalkerTheorems.

Variable resample : list nat -> list nat -> list Z -> list Z.

(** C3: the tiles that [gettiles] yields are views of the array [img], not
    copies; and in a run of [tile] no array is written to after a tile of
    it was yielded, so that at the end of the walk every yielded tile still
    shows the scalars it showed when it was yielded. *)
Theorem tile_yields_views_left_intact (ts : nat * nat) (st : store)
    (img : nat) (nlevels : option Z) (out : list yielded)
    (e : option exn) (st' : store) :
  tile resample ts st img nlevels = (out, e, st') ->
  Forall (fun y => read_view st' (y_tile y) = y_seen y) out /\
  (forall corner order st1 tiles,
     gettiles ts st img corner order = Ok (st1, tiles) ->
     Forall (fun t => v_base (fst t) = img) tiles).
Proof.
  intros H. split.
  - unfold tile in H.
    destruct (match nlevels with
              | Some n => Ok n
              | None => match st !! img with
                        | Some a => auto_nlevels (nd_shape a) ts
                        | None => Raise IndexError
                        end
              end) as [n|err].
    + now apply (tile_levels_frame resample ts _ _ _ _ _ _ H).
    + injection H as <- <- <-. constructor.
  - intros corner order st1 tiles Hg.
    now apply (gettiles_frame _ _ _ _ _ _ _ Hg).
Qed.

(** C4: on a raster of shape (128, 128, 4) with the default 256 by 256
    tiles the computed level count is [1 + max(-1, -1) = 0], and [tile]
    yields nothing; one level is what fits the image on a single tile. *)
Theorem tile_auto_levels_small_image (data : list Z) :
  let st := [mk_ndarray [128; 128; 4]%nat data] in
  auto_nlevels [128; 128; 4]%nat DEF_TILE_SIZE = Ok 0 /\
  tile resample DEF_TILE_SIZE st 0 None = ([], None, st) /\
  exists out st',
    tile resample DEF_TILE_SIZE st 0 (Some 1) = (out, None, st') /\
    length out = 1%nat.
Proof.
  intros st. split; [reflexivity|]. split; [reflexivity|].
  unfold tile. change (rev (seq 0 (Z.to_nat 1))) with [0%nat].
  rewrite tile_levels_cons.
  destruct (gettiles_eq 256 256 st 0 SouthWest ColMajor
              (mk_ndarray [128; 128; 4]%nat data) 128 128 [4%nat])
    as (a' & _ & _ & Heq);
    [reflexivity|reflexivity|lia|lia|right; left; discriminate|].
  unfold DEF_TILE_SIZE. rewrite Heq. cbv zeta. cbn [Nat.ltb Nat.leb tile_levels].
  eexists _, _. split; [reflexivity|].
  rewrite app_nil_r, length_map, scan_tiles_length. reflexivity.
Qed.

End WalkerTheorems.

Section WalkerLevels.

Variable resample : list nat -> list nat -> list Z -> list Z.

(** C5: [tile] with tile shape (2, 2) and no level count on a raster of
    shape (8, 8, c): three levels, emitted as 2, 1, 0.  Level 2 has 16
    tiles of the input raster, level 1 has 4 tiles of its (4, 4, c)
    downsample, level 0 has 1 tile of the (2, 2, c) downsample of that;
    every tile is 2 by 2 pixels, and no array is made after level 0. *)
Theorem tile_8x8_three_levels (c : nat) (data : list Z) :
  let a := mk_ndarray [8; 8; c]%nat data in
  exists a1 a2 out,
    libzoom resample a [(1, 2); (1, 2); (1, 1)] = Ok a1 /\
    nd_shape a1 = [4; 4; c]%nat /\
    libzoom resample a1 [(1, 2); (1, 2); (1, 1)] = Ok a2 /\
    nd_shape a2 = [2; 2; c]%nat /\
    tile resample (2, 2)%nat [a] 0 None = (out, None, [a; a1; a2]) /\
    map (fun y => (y_level y, v_base (y_tile y))) out =
      replicate 16 (2, 0)%nat ++ replicate 4 (1, 1)%nat ++ [(0, 2)%nat] /\
    Forall (fun y => view_shape (y_tile y) = [2; 2; c]%nat) out.
Proof.
  intros a.
  set (a1 := mk_ndarray [4; 4; c]%nat
               (resample [8; 8; c]%nat [4; 4; c]%nat data)).
  set (a2 := mk_ndarray [2; 2; c]%nat
               (resample [4; 4; c]%nat [2; 2; c]%nat (nd_data a1))).
  assert (Z1 : forall st img, st !! img = Some a ->
               zoom resample st img = Ok (st ++ [a1], length st)).
  { intros st img Hst. now rewrite (zoom_three_axes resample st img 8 8 c data). }
  assert (Z2 : forall st img, st !! img = Some a1 ->
               zoom resample st img = Ok (st ++ [a2], length st)).
  { intros st img Hst.
    now rewrite (zoom_three_axes resample st img 4 4 c (nd_data a1)). }
  exists a1, a2. eexists.
  split; [apply libzoom_three_axes|]. split; [reflexivity|].
  split; [apply libzoom_three_axes|]. split; [reflexivity|].
  split; [|split].
  - change (tile resample (2, 2)%nat [a] 0 None)
      with (tile_levels resample (2, 2)%nat [a] 0 [2; 1; 0]%nat).
    rewrite tile_levels_cons.
    change (gettiles (2, 2)%nat [a] 0 SouthWest ColMajor)
      with (Ok ([a], scan_tiles (2, 2)%nat 0 a SouthWest ColMajor 4 4)).
    cbv zeta. cbn [Nat.ltb Nat.leb]. rewrite (Z1 [a] 0%nat eq_refl).
    cbn [length app]. rewrite tile_levels_cons.
    change (gettiles (2, 2)%nat [a; a1] 1 SouthWest ColMajor)
      with (Ok ([a; a1], scan_tiles (2, 2)%nat 1 a1 SouthWest ColMajor 2 2)).
    cbv zeta. cbn [Nat.ltb Nat.leb]. rewrite (Z2 [a; a1] 1%nat eq_refl).
    cbn [length app]. rewrite tile_levels_cons.
    change (gettiles (2, 2)%nat [a; a1; a2] 2 SouthWest ColMajor)
      with (Ok ([a; a1; a2], scan_tiles (2, 2)%nat 2 a2 SouthWest ColMajor 1 1)).
    cbv zeta. cbn [Nat.ltb Nat.leb tile_levels]. reflexivity.
  - reflexivity.
  - repeat constructor.
Qed.

End WalkerLevels.

(** On a raster with two axes the walk stops after the tiles of the finest
    level: [zoom] raises before level 1. *)
Lemma tile_8x8_two_axes_raises :
  exists out,
    tile nearest_resample (2, 2)%nat [img8_flat] 0 None
      = (out, Some RuntimeError, [img8_flat]) /\
    map y_level out = replicate 16 2%nat.
Proof. eexists. split; vm_compute; reflexivity. Qed.

(** A tile yielded by [gettiles] changes when its raster is padded in place
    afterwards: by a pad to the shape it already has, and by a pad that
    grows it (the view then keeps addressing the buffer with the row stride
    it was sliced with). *)
Lemma gettiles_tile_changes_after_pad :
  exists t1 c1 st2 st3,
    gettiles (2, 2)%nat [img2] 0 SouthWest ColMajor = Ok ([img2], [(t1, c1)]) /\
    read_view [img2] t1 = [1; 2; 3; 4] /\
    pad_at SouthWest (2, 2)%nat [img2] 0 None = Ok st2 /\
    read_view st2 t1 = [1; 0; 0; 0] /\
    pad_at SouthWest (4, 4)%nat [img2] 0 None = Ok st3 /\
    read_view st3 t1 = [0; 0; 0; 0].
Proof. do 4 eexists. repeat split; vm_compute; reflexivity. Qed.

Lemma tile_yields_views_left_intact_witness :
  exists out e st',
    tile nearest_resample (2, 2)%nat [img4] 0 None = (out, e, st') /\
    Forall (fun y => read_view st' (y_tile y) = y_seen y) out.
Proof.
  destruct (tile nearest_resample (2, 2)%nat [img4] 0 None)
    as [[out e] st'] eqn:H.
  exists out, e, st'. split; [reflexivity|].
  exact (proj1 (tile_yields_views_left_intact nearest_resample (2, 2)%nat
                  [img4] 0 None out e st' H)).
Defined.

(** ** Worker pool *)

Section ThreaderFacts.

Import Threader.

Lemma count_replicate_waiting f n :
  f Waiting = 0%nat -> count f (replicate n Waiting) = 0%nat.
Proof. intros H. induction n as [|n IH]; simpl; [reflexivity|]. now rewrite H, IH. Qed.

Lemma count_insert f (l : list thread_state) i x y :
  l !! i = Some x ->
  (count f (<[i := y]> l) + f x = count f l + f y)%nat.
Proof.
  revert i. induction l as [|z l IH]; intros [|i] H; simpl in *;
    try discriminate.
  - injection H as ->. lia.
  - specialize (IH i H). lia.
Qed.

Lemma running_jobs_insert (l : list thread_state) i x y :
  l !! i = Some x ->
  Permutation (running_jobs (<[i := y]> l) ++ job_of x)
              (running_jobs l ++ job_of y).
Proof.
  revert i. induction l as [|z l IH]; intros [|i] H; simpl in *;
    try discriminate.
  - injection H as ->. fold (job_of x) (job_of y).
    rewrite (Permutation_app_comm (job_of y)), <- app_assoc.
    rewrite (Permutation_app_comm (job_of x)), <- app_assoc.
    apply Permutation_app_head, Permutation_app_comm.
  - fold (job_of z). rewrite <- !app_assoc.
    apply Permutation_app_head, IH, H.
Qed.

Lemma running_jobs_length l : length (running_jobs l) = count running l.
Proof.
  induction l as [|[| | |] l IH]; simpl; rewrite ?IH; reflexivity.
Qed.

Lemma queued_jobs_length q :
  Forall (fun item : option job => item <> None) q ->
  length (queued_jobs q) = length q.
Proof.
  induction 1 as [|[j|] q Hx _ IH]; simpl; [reflexivity|now rewrite IH|].
  congruence.
Qed.

Lemma occupied_split l :
  Forall (fun ts => ts <> Finished) l ->
  count occupied l = (count running l + count dead l)%nat.
Proof.
  induction 1 as [|[| | |] l Hx _ IH]; simpl; rewrite ?IH; try lia.
  congruence.
Qed.

(** The three ways in which a worker moves. *)
Lemma worker_step_inv i s s' ev :
  worker_step i s = Some (s', ev) ->
  (exists item q,
     threads s !! i = Some Waiting /\ queue s = item :: q /\ ev = Got item /\
     s' = set_thread i
            (match item with None => Finished | Some j => Running j end)
            (mk_t q (unfinished_tasks s) (nthreads s) (threads s))) \/
  (exists j,
     threads s !! i = Some (Running j) /\ job_raises j = true /\
     ev = Raised j /\ s' = set_thread i Died s) \/
  (exists j,
     threads s !! i = Some (Running j) /\ job_raises j = false /\
     ev = Returned j /\
     s' = set_thread i Waiting
            (mk_t (queue s) (pred (unfinished_tasks s)) (nthreads s)
                  (threads s))).
Proof.
  unfold worker_step. intros H.
  destruct (threads s !! i) as [[|j| |]|] eqn:Hi; try discriminate.
  - left. destruct (queue s) as [|item q]; [discriminate|].
    exists item, q. destruct item; injection H as <- <-; auto.
  - destruct (job_raises j) eqn:Hj; injection H as <- <-.
    + right; left. eauto.
    + right; right. eauto.
Qed.

Lemma reach_inv n sub ret exc s :
  reach n sub ret exc s -> inv n sub ret exc s.
Proof.
  induction 1 as [|sub ret exc s j _ IH
                   |sub ret exc s i s' item _ IH Hstep
                   |sub ret exc s i s' j _ IH Hstep
                   |sub ret exc s i s' j _ IH Hstep].
  - unfold inv, start, init. simpl.
    rewrite !count_replicate_waiting by reflexivity.
    repeat split; auto.
    + apply Forall_replicate. discriminate.
    + induction n as [|n IHn]; simpl; [constructor|exact IHn].
    + apply length_replicate.
  - destruct IH as (I1 & I2 & I3 & I4 & I5 & I6 & I7 & I8).
    unfold inv, add. simpl. rewrite length_app. simpl.
    repeat split; auto; try lia.
    + apply Forall_app. split; [exact I2|]. constructor; [discriminate|constructor].
    + unfold queued_jobs. rewrite flat_map_app. simpl.
      fold (queued_jobs (queue s)). rewrite I5, <- !app_assoc.
      do 3 apply Permutation_app_head. apply Permutation_app_comm.
  - destruct IH as (I1 & I2 & I3 & I4 & I5 & I6 & I7 & I8).
    apply worker_step_inv in Hstep
      as [(item' & q & Hi & Hq & Hev & ->)|[(j & _ & _ & Hev & _)|(j & _ & _ & Hev & _)]];
      try discriminate.
    rewrite Hq in *. apply Forall_cons in I2 as [Hsome I2].
    destruct item' as [j|]; [|congruence].
    unfold inv, set_thread. simpl in *.
    pose proof (count_insert occupied _ _ _ (Running j) Hi) as C1.
    pose proof (count_insert dead _ _ _ (Running j) Hi) as C2.
    pose proof (running_jobs_insert _ _ _ (Running j) Hi) as P.
    simpl in C1, C2, P. rewrite app_nil_r in P.
    repeat split; auto; try lia.
    + apply Forall_insert; [exact I3|discriminate].
    + rewrite I5, P.
      do 2 apply Permutation_app_head.
      rewrite app_assoc. apply Permutation_cons_append.
    + now rewrite length_insert.
  - destruct IH as (I1 & I2 & I3 & I4 & I5 & I6 & I7 & I8).
    apply worker_step_inv in Hstep
      as [(item' & q & _ & _ & Hev & _)|[(j' & _ & _ & Hev & _)|(j' & Hi & Hj & Hev & ->)]];
      try discriminate.
    injection Hev as <-.
    unfold inv, set_thread. simpl in *.
    pose proof (count_insert occupied _ _ _ Waiting Hi) as C1.
    pose proof (count_insert dead _ _ _ Waiting Hi) as C2.
    pose proof (running_jobs_insert _ _ _ Waiting Hi) as P.
    simpl in C1, C2, P. rewrite app_nil_r in P.
    repeat split; auto; try lia.
    + apply Forall_insert; [exact I3|discriminate].
    + rewrite I5, <- P, <- !app_assoc.
      apply Permutation_app_head. simpl. rewrite !app_assoc.
      symmetry. apply Permutation_cons_append.
    + apply Forall_app. split; [exact I6|]. constructor; [exact Hj|constructor].
    + now rewrite length_insert.
  - destruct IH as (I1 & I2 & I3 & I4 & I5 & I6 & I7 & I8).
    apply worker_step_inv in Hstep
      as [(item' & q & _ & _ & Hev & _)|[(j' & Hi & Hj & Hev & ->)|(j' & _ & _ & Hev & _)]];
      try discriminate.
    injection Hev as <-.
    unfold inv, set_thread. simpl in *.
    pose proof (count_insert occupied _ _ _ Died Hi) as C1.
    pose proof (count_insert dead _ _ _ Died Hi) as C2.
    pose proof (running_jobs_insert _ _ _ Died Hi) as P.
    simpl in C1, C2, P. rewrite app_nil_r in P.
    repeat split; auto; try lia.
    + apply Forall_insert; [exact I3|discriminate].
    + rewrite length_app. simpl. lia.
    + rewrite I5, <- P, <- !app_assoc.
      do 2 apply Permutation_app_head. simpl. rewrite !app_assoc.
      symmetry. apply Permutation_cons_append.
    + apply Forall_app. split; [exact I7|]. constructor; [exact Hj|constructor].
    + now rewrite length_insert.
Qed.

End ThreaderFacts.

Section ThreaderLiveness.

Import Threader.

Lemma insert_not_nil (l : list thread_state) i y : l <> [] -> <[i := y]> l <> [].
Proof.
  intros Hl E. apply (f_equal length) in E. rewrite length_insert in E.
  destruct l; [congruence|discriminate].
Qed.

(** A step from a calm state leads to a calm state and uses up some of the
    remaining work. *)
Lemma calm_step i s s' ev :
  calm s -> worker_step i s = Some (s', ev) ->
  calm s' /\ (measure s' < measure s)%nat.
Proof.
  intros (Cq & Ct & Cn & Cu) Hstep.
  apply worker_step_inv in Hstep
    as [(item & q & Hi & Hq & _ & ->)
       |[(j & Hi & Hj & _ & ->)|(j & Hi & Hj & _ & ->)]].
  - rewrite Hq in *. apply Forall_cons in Cq as [(j & -> & Hj) Cq].
    pose proof (count_insert running _ _ _ (Running j) Hi) as C.
    unfold calm, measure, set_thread. simpl in *.
    repeat split; auto; rewrite ?Hq; simpl; try lia.
    + apply Forall_insert; [exact Ct|]. right. eauto.
    + now apply insert_not_nil.
  - pose proof (Forall_lookup_1 _ _ _ _ Ct Hi) as [E|(j' & E & Hj')];
      [discriminate|]. injection E as <-. congruence.
  - pose proof (count_insert running _ _ _ Waiting Hi) as C.
    unfold calm, measure, set_thread. simpl in *.
    repeat split; auto; try lia.
    + apply Forall_insert; [exact Ct|]. now left.
    + now apply insert_not_nil.
Qed.

Lemma count_running_pos l :
  (0 < count running l)%nat -> exists i j, l !! i = Some (Running j).
Proof.
  induction l as [|ts l IH]; simpl; [lia|].
  destruct ts as [|j| |]; simpl; intros H;
    try (destruct (IH H) as (i & j' & Hi); exists (S i), j'; exact Hi).
  exists 0%nat, j. reflexivity.
Qed.

(** In a calm state with unfinished tasks some worker can move. *)
Lemma calm_progress s :
  calm s -> unfinished_tasks s <> 0%nat ->
  exists i s' ev, worker_step i s = Some (s', ev).
Proof.
  intros (Cq & Ct & Cn & Cu) Hu.
  destruct (count running (threads s)) as [|k] eqn:Hk.
  - destruct (queue s) as [|item q] eqn:Hq; [simpl in Cu; lia|].
    destruct (threads s) as [|ts l] eqn:Hl; [congruence|].
    apply Forall_cons in Ct as [[->|(j & -> & _)] _]; [|simpl in Hk; lia].
    exists 0%nat. unfold worker_step. rewrite Hl, Hq. simpl.
    destruct item; eauto.
  - destruct (count_running_pos (threads s)) as (i & j & Hi); [lia|].
    exists i. unfold worker_step. rewrite Hi.
    destruct (job_raises j); eauto.
Qed.

Lemma calm_drains m : forall s, (measure s < m)%nat -> calm s -> drains s.
Proof.
  induction m as [|m IH]; intros s Hm Hc; [lia|].
  destruct (Nat.eq_dec (unfinished_tasks s) 0%nat) as [Hz|Hnz].
  - now apply drains_now.
  - apply drains_later; [now apply calm_progress|].
    intros i s' ev Hstep.
    destruct (calm_step i s s' ev Hc Hstep) as [Hc' Hlt].
    apply IH; [lia|exact Hc'].
Qed.

Lemma reach_calm n sub ret exc s :
  (1 <= n)%nat ->
  reach n sub ret exc s ->
  Forall (fun j => job_raises j = false) sub ->
  calm s.
Proof.
  intros Hn.
  induction 1 as [|sub ret exc s j _ IH
                   |sub ret exc s i s' item _ IH Hstep
                   |sub ret exc s i s' j _ IH Hstep
                   |sub ret exc s i s' j _ IH Hstep]; intros Hsub.
  - unfold calm, start, init. simpl.
    rewrite count_replicate_waiting by reflexivity.
    repeat split; auto.
    + apply Forall_replicate. now left.
    + destruct n; [lia|discriminate].
  - apply Forall_app in Hsub as [Hsub Hj].
    apply Forall_cons in Hj as [Hj _].
    destruct (IH Hsub) as (Cq & Ct & Cn & Cu).
    unfold calm, add. simpl. rewrite length_app. simpl.
    repeat split; auto; try lia.
    apply Forall_app. split; [exact Cq|]. constructor; [eauto|constructor].
  - exact (proj1 (calm_step _ _ _ _ (IH Hsub) Hstep)).
  - exact (proj1 (calm_step _ _ _ _ (IH Hsub) Hstep)).
  - exact (proj1 (calm_step _ _ _ _ (IH Hsub) Hstep)).
Qed.

(** C1: in every state of a started pool of [n] workers to which jobs were
    submitted, the counter that [await] waits on is the number of submitted
    jobs whose call has not returned; a job that raised stays counted for
    ever.  Hence [await] returns only when every submitted job has been run
    and has returned, and then no job has raised.  If no submitted job
    raises and there is at least one worker, then on every schedule of the
    workers [await] does get to return. *)
Theorem threader_await_accounting (n : nat) (sub ret exc : list job) (s : t) :
  reach n sub ret exc s ->
  (unfinished_tasks s + length ret = length sub)%nat /\
  (length exc <= unfinished_tasks s)%nat /\
  (await_returns s ->
     Permutation sub ret /\ exc = [] /\
     Forall (fun j => job_raises j = false) sub) /\
  ((1 <= n)%nat -> Forall (fun j => job_raises j = false) sub -> drains s).
Proof.
  intros Hreach.
  destruct (reach_inv _ _ _ _ _ Hreach)
    as (I1 & I2 & I3 & I4 & I5 & I6 & I7 & I8).
  pose proof (Permutation_length I5) as L.
  rewrite !length_app, (queued_jobs_length _ I2), running_jobs_length in L.
  rewrite (occupied_split _ I3) in I1.
  split; [lia|]. split; [lia|]. split.
  - unfold await_returns. intros Hz.
    assert (Hexc : exc = []) by (destruct exc; [reflexivity|simpl in *; lia]).
    assert (Hq : queue s = []) by (destruct (queue s); [reflexivity|simpl in *; lia]).
    assert (Hr : running_jobs (threads s) = []).
    { pose proof (running_jobs_length (threads s)).
      destruct (running_jobs (threads s)); [reflexivity|simpl in *; lia]. }
    rewrite Hexc, Hq, Hr in I5. simpl in I5. rewrite app_nil_r in I5.
    split; [exact I5|]. split; [exact Hexc|].
    eapply Permutation_Forall; [symmetry; exact I5|exact I6].
  - intros Hn Hsub.
    apply (calm_drains (S (measure s))); [lia|].
    eapply reach_calm; eassumption.
Qed.

End ThreaderLiveness.

Lemma threader_await_accounting_witness :
  (Threader.unfinished_tasks
     (Threader.add (Some sound_job) (Threader.start (Threader.init 2)))
   + 0 = 1)%nat.
Proof.
  exact (proj1 (threader_await_accounting 2 [sound_job] [] [] _
                  (Threader.reach_add 2 [] [] [] _ sound_job
                     (Threader.reach_start 2)))).
Defined.

(** One worker, one job that raises: the worker dies inside [job()], the
    counter stays at 1, no worker can move any more, and [await] cannot
    return. *)
Lemma threader_raising_job_blocks_await :
  exists s,
    Threader.reach 1 [failing_job] [] [failing_job] s /\
    Threader.unfinished_tasks s = 1%nat /\
    Threader.stuck s /\
    ~ Threader.drains s.
Proof.
  exists (Threader.mk_t [] 1 1 [Threader.Died]).
  assert (Hstuck : Threader.stuck (Threader.mk_t [] 1 1 [Threader.Died])).
  { intros [|i]; reflexivity. }
  split; [|split; [reflexivity|split; [exact Hstuck|]]].
  - apply (Threader.reach_raised 1 [failing_job] [] []
             (Threader.mk_t [] 1 1 [Threader.Running failing_job]) 0);
      [|reflexivity].
    apply (Threader.reach_got 1 [failing_job] [] []
             (Threader.add (Some failing_job) (Threader.start (Threader.init 1)))
             0 _ (Some failing_job)); [|reflexivity].
    apply (Threader.reach_add 1 [] [] []). apply Threader.reach_start.
  - intros Hd. inversion Hd as [s0 Hret|s0 (i & s' & ev & Hstep) _].
    + discriminate Hret.
    + rewrite Hstuck in Hstep. discriminate.
Qed.


(** ** The padder, cell by cell *)

Section PadCells.

Local Open Scope nat_scope.

Lemma slice_bound_of_nat n k : k <= n -> slice_bound n (Z.of_nat k) = k.
Proof.
  intros H. unfold slice_bound.
  destruct (Z.ltb_spec (Z.of_nat k) 0); lia.
Qed.

Lemma slice_bound_pred n k :
  k <= n ->
  slice_bound n (Z.of_nat k - 1) = if k =? 0 then n - 1 else k - 1.
Proof.
  intros H. unfold slice_bound.
  destruct (Nat.eqb_spec k 0), (Z.ltb_spec (Z.of_nat k - 1) 0); lia.
Qed.

(** [pad] on an image with at least two axes, of which the row loop can
    copy the rows, and a target that is not smaller, with every index made
    explicit. *)
Lemma pad_unfold corner R W img fill r w px :
  nd_shape img = r :: w :: px ->
  r <= R -> w <= W ->
  px <> [] \/ r = 0 ->
  let p := prod_shape px in
  let f := pad_fill p fill in
  pad corner (R, W) img fill =
    Ok (mk_ndarray (R :: W :: px)
          (setitem_cols W p (pad_right corner W w) W f
             (setitem_cols W p 0 (pad_left corner W w) f
                (setitem_rows W p (pad_bottom corner R r) R f
                   (setitem_rows W p 0 (pad_top corner R r) f
                      (shift_rows w W p (pad_top corner R r)
                         (pad_left corner W w) r
                         (resize (R :: W :: px) (nd_data img)))))))).
Proof.
  intros Hs Hr Hw Hpx p f. unfold pad. rewrite Hs.
  cbn [fst snd app].
  change (take 2 (r :: w :: px)) with (r :: w :: take 0 px).
  change (drop 2 (r :: w :: px)) with (drop 0 px).
  rewrite !take_0, !drop_0.
  destruct (_ || _)%bool eqn:E.
  { apply orb_true_iff in E as [E|E]; apply Z.ltb_lt in E; lia. }
  rewrite (px_len_int r px Hpx).
  unfold pad_top, pad_left, pad_bottom, pad_right, shift_rows.
  fold p. fold (pad_fill p fill). fold f.
  assert (Hz : forall n, slice_bound n 0%Z = 0).
  { intros n. apply (slice_bound_of_nat n 0). lia. }
  assert (Hm : forall n k, k <= n ->
            slice_bound n (Z.of_nat n - Z.of_nat k)%Z = n - k).
  { intros n k Hk. rewrite <- Nat2Z.inj_sub by lia.
    apply slice_bound_of_nat. lia. }
  assert (Hl : forall n, slice_bound n (Z.of_nat n - 0 - 1)%Z = n - 1).
  { intros n. rewrite Z.sub_0_r, slice_bound_pred by lia.
    destruct (Nat.eqb_spec n 0); lia. }
  assert (Hi : forall n k, k <= n ->
            slice_bound n (Z.of_nat n - (Z.of_nat n - Z.of_nat k) - 1)%Z
            = if k =? 0 then n - 1 else k - 1).
  { intros n k Hk.
    replace (Z.of_nat n - (Z.of_nat n - Z.of_nat k) - 1)%Z
      with (Z.of_nat k - 1)%Z by lia.
    now apply slice_bound_pred. }
  destruct (is_south corner), (is_east corner); cbv zeta beta iota;
    rewrite ?Hz, ?Hl, ?(Hm R r Hr), ?(Hm W w Hw), ?(Hi R r Hr), ?(Hi W w Hw);
    replace (Z.to_nat (Z.of_nat R - Z.of_nat r)) with (R - r) by lia;
    replace (Z.to_nat (Z.of_nat W - Z.of_nat w)) with (W - w) by lia;
    reflexivity.
Qed.

Lemma length_resize sh data : length (resize sh data) = prod_shape sh.
Proof.
  unfold resize. rewrite length_take, length_app, length_replicate. lia.
Qed.

Lemma nth_resize sh data idx :
  idx < prod_shape sh -> nth idx (resize sh data) 0%Z = nth idx data 0%Z.
Proof.
  intros H. unfold resize. rewrite !nth_lookup, lookup_take_lt by assumption.
  destruct (Nat.lt_ge_cases idx (length data)) as [Hlt|Hge].
  - now rewrite lookup_app_l.
  - rewrite lookup_app_r by assumption.
    rewrite lookup_replicate_2 by lia.
    now rewrite (lookup_ge_None_2 data idx Hge).
Qed.

Lemma length_assign_slice flat dst src len :
  dst + len <= length flat -> src + len <= length flat ->
  length (assign_slice flat dst src len) = length flat.
Proof.
  intros Hd Hs. unfold assign_slice.
  rewrite !length_app, !length_take, !length_drop. lia.
Qed.

Lemma nth_assign_slice flat dst src len idx :
  dst + len <= length flat -> src + len <= length flat ->
  nth idx (assign_slice flat dst src len) 0%Z =
    if (dst <=? idx) && (idx <? dst + len)
    then nth (src + (idx - dst)) flat 0%Z else nth idx flat 0%Z.
Proof.
  intros Hd Hs. unfold assign_slice. rewrite !nth_lookup.
  destruct (Nat.leb_spec dst idx) as [H1|H1]; simpl.
  - rewrite lookup_app_r by (rewrite length_take; lia).
    rewrite length_take, Nat.min_l by lia.
    destruct (Nat.ltb_spec idx (dst + len)) as [H2|H2].
    + rewrite lookup_app_l by (rewrite length_take, length_drop; lia).
      rewrite lookup_take_lt by lia. now rewrite lookup_drop.
    + rewrite lookup_app_r by (rewrite length_take, length_drop; lia).
      rewrite length_take, length_drop, Nat.min_l by lia.
      rewrite lookup_drop. f_equal. f_equal. lia.
  - rewrite lookup_app_l by (rewrite length_take; lia).
    now rewrite lookup_take_lt by lia.
Qed.

Lemma shift_rows_S w W p top left_ n flat :
  shift_rows w W p top left_ (S n) flat =
    shift_rows w W p top left_ n
      (assign_slice flat (((n + top) * W + left_) * p) (n * w * p) (w * p)).
Proof.
  unfold shift_rows. rewrite seq_S, rev_unit. reflexivity.
Qed.

(** The row loop: because it runs from the last row to the first, every row
    is read before anything is written over it.  Afterwards row [i] of the
    image sits at row [i + top], column [left_] of the new grid, and the
    cells outside these rows are as they were. *)
Lemma shift_rows_spec w W p top left_ R data :
  left_ + w <= W ->
  forall n flat,
    n + top <= R ->
    length flat = R * W * p ->
    (forall idx, idx < n * w * p -> nth idx flat 0%Z = nth idx data 0%Z) ->
    length (shift_rows w W p top left_ n flat) = R * W * p /\
    (forall i x, i < n -> x < w * p ->
       nth (((i + top) * W + left_) * p + x)
           (shift_rows w W p top left_ n flat) 0%Z
       = nth (i * w * p + x) data 0%Z) /\
    (forall idx,
       (forall i, i < n ->
          ~ (((i + top) * W + left_) * p <= idx
             < ((i + top) * W + left_) * p + w * p)) ->
       nth idx (shift_rows w W p top left_ n flat) 0%Z = nth idx flat 0%Z).
Proof.
  intros HwW. induction n as [|n IH]; intros flat Hn Hlen Hsrc.
  { unfold shift_rows. simpl. repeat split; auto. intros; lia. }
  rewrite shift_rows_S.
  set (D := fun i => ((i + top) * W + left_) * p).
  assert (Hend : forall i, i + top < R -> D i + w * p <= R * W * p).
  { intros i Hi. unfold D.
    replace (((i + top) * W + left_) * p + w * p)
      with (((i + top) * W + left_ + w) * p) by lia.
    rewrite <- Nat.mul_assoc, (Nat.mul_comm W p), Nat.mul_assoc.
    replace (R * p * W) with (R * W * p) by lia.
    apply Nat.mul_le_mono_r.
    assert ((i + top + 1) * W <= R * W) by (apply Nat.mul_le_mono_r; lia).
    lia. }
  assert (Hsrc_le : n * w * p <= D n).
  { unfold D. apply Nat.mul_le_mono_r.
    assert (n * w <= n * W) by (apply Nat.mul_le_mono_l; lia). lia. }
  assert (Hsep : forall i, i < n -> D i + w * p <= D n).
  { intros i Hi. unfold D.
    replace (((i + top) * W + left_) * p + w * p)
      with (((i + top) * W + left_ + w) * p) by lia.
    apply Nat.mul_le_mono_r.
    assert ((i + top + 1) * W <= (n + top) * W)
      by (apply Nat.mul_le_mono_r; lia).
    lia. }
  assert (Hsrc_end : n * w * p + w * p <= R * W * p).
  { specialize (Hend n ltac:(lia)). lia. }
  set (flat1 := assign_slice flat (D n) (n * w * p) (w * p)).
  assert (Hlen1 : length flat1 = R * W * p).
  { unfold flat1. rewrite length_assign_slice; rewrite ?Hlen; auto;
      apply Hend; lia. }
  assert (Hnth1 : forall idx,
            nth idx flat1 0%Z =
              if (D n <=? idx) && (idx <? D n + w * p)
              then nth (n * w * p + (idx - D n)) flat 0%Z
              else nth idx flat 0%Z).
  { intros idx. unfold flat1. apply nth_assign_slice; rewrite Hlen; auto;
      apply Hend; lia. }
  destruct (IH flat1) as (L & Hrows & Hrest); [lia|exact Hlen1| |].
  { intros idx Hidx. rewrite Hnth1.
    destruct (Nat.leb_spec (D n) idx); [lia|]. simpl. apply Hsrc. lia. }
  fold (D n). split; [exact L|]. split.
  - intros i x Hi Hx. destruct (Nat.eq_dec i n) as [->|Hne].
    + fold (D n). rewrite Hrest.
      * rewrite Hnth1.
        destruct (Nat.leb_spec (D n) (D n + x)); [|lia].
        destruct (Nat.ltb_spec (D n + x) (D n + w * p)); [|lia]. simpl.
        replace (D n + x - D n) with x by lia. apply Hsrc. lia.
      * intros i' Hi'. fold (D i'). specialize (Hsep i' Hi'). lia.
    + apply Hrows; lia.
  - intros idx Hout. rewrite Hrest.
    + rewrite Hnth1. specialize (Hout n ltac:(lia)). fold (D n) in Hout.
      destruct (Nat.leb_spec (D n) idx); simpl; [|reflexivity].
      destruct (Nat.ltb_spec idx (D n + w * p)); [lia|reflexivity].
    + intros i Hi. apply Hout. lia.
Qed.

Lemma nth_setitem_rows W p lo hi f flat idx :
  idx < length flat ->
  nth idx (setitem_rows W p lo hi f flat) 0%Z =
    if (lo <=? idx / p / W) && (idx / p / W <? hi)
    then nth (idx mod p) f 0%Z else nth idx flat 0%Z.
Proof.
  intros H. unfold setitem_rows.
  rewrite (nth_lookup (imap _ _)), (nth_lookup flat), list_lookup_imap.
  destruct (lookup_lt_is_Some_2 flat idx H) as [v ->]. simpl.
  destruct (_ && _); reflexivity.
Qed.

Lemma nth_setitem_cols W p lo hi f flat idx :
  idx < length flat ->
  nth idx (setitem_cols W p lo hi f flat) 0%Z =
    if (lo <=? (idx / p) mod W) && ((idx / p) mod W <? hi)
    then nth (idx mod p) f 0%Z else nth idx flat 0%Z.
Proof.
  intros H. unfold setitem_cols.
  rewrite (nth_lookup (imap _ _)), (nth_lookup flat), list_lookup_imap.
  destruct (lookup_lt_is_Some_2 flat idx H) as [v ->]. simpl.
  destruct (_ && _); reflexivity.
Qed.

Lemma length_setitem_rows W p lo hi f flat :
  length (setitem_rows W p lo hi f flat) = length flat.
Proof. apply length_imap. Qed.

Lemma length_setitem_cols W p lo hi f flat :
  length (setitem_cols W p lo hi f flat) = length flat.
Proof. apply length_imap. Qed.

(** Flat index of cell [(a, b)], scalar [k], and back. *)
Lemma cell_index a b k W p :
  b < W -> k < p ->
  let idx := (a * W + b) * p + k in
  idx / p / W = a /\ (idx / p) mod W = b /\ idx mod p = k.
Proof.
  intros Hb Hk idx.
  assert (E1 : idx / p = a * W + b).
  { symmetry. apply (Nat.div_unique _ _ _ k); [assumption|]. unfold idx. lia. }
  rewrite E1. repeat split.
  - symmetry. apply (Nat.div_unique _ _ _ b); [assumption|]. lia.
  - symmetry. apply (Nat.mod_unique _ _ a); [assumption|]. lia.
  - symmetry. apply (Nat.mod_unique _ _ (a * W + b)); [assumption|].
    unfold idx. lia.
Qed.

Lemma cell_index_bound a b k R W p :
  a < R -> b < W -> k < p -> (a * W + b) * p + k < R * W * p.
Proof.
  intros Ha Hb Hk.
  assert ((a * W + b + 1) * p <= R * W * p).
  { apply Nat.mul_le_mono_r.
    assert ((a + 1) * W <= R * W) by (apply Nat.mul_le_mono_r; lia). lia. }
  lia.
Qed.

Lemma pad_ok_inv corner R W img fill out r w px :
  nd_shape img = r :: w :: px ->
  pad corner (R, W) img fill = Ok out ->
  r <= R /\ w <= W /\ (px <> [] \/ r = 0).
Proof.
  intros Hs H. exact (pad_ok_px corner (R, W) img fill out r w px Hs H).
Qed.

(** Every cell of the padded array: the fill pixel in the four assigned
    bands, and what the row loop left elsewhere. *)
Lemma pad_cell corner R W img fill out r w px a b k :
  nd_shape img = r :: w :: px ->
  pad corner (R, W) img fill = Ok out ->
  a < R -> b < W -> k < prod_shape px ->
  pixel out a b k =
    if (pad_right corner W w <=? b) || (b <? pad_left corner W w)
       || (pad_bottom corner R r <=? a) || (a <? pad_top corner R r)
    then nth k (pad_fill (prod_shape px) fill) 0%Z
    else nth ((a * W + b) * prod_shape px + k)
           (shift_rows w W (prod_shape px) (pad_top corner R r)
              (pad_left corner W w) r
              (resize (R :: W :: px) (nd_data img))) 0%Z.
Proof.
  intros Hs Hpad Ha Hb Hk.
  destruct (pad_ok_inv _ _ _ _ _ _ _ _ _ Hs Hpad) as (Hr & Hw & Hpx).
  rewrite (pad_unfold corner R W img fill r w px Hs Hr Hw Hpx) in Hpad.
  injection Hpad as <-. unfold pixel. cbn [nd_shape nd_data].
  set (p := prod_shape px) in *.
  set (F1 := shift_rows _ _ _ _ _ _ _).
  assert (HwW : pad_left corner W w + w <= W).
  { unfold pad_left. destruct (is_east corner); lia. }
  assert (Htop : r + pad_top corner R r <= R).
  { unfold pad_top. destruct (is_south corner); lia. }
  destruct (shift_rows_spec w W p (pad_top corner R r) (pad_left corner W w) R
              (nd_data img) HwW r (resize (R :: W :: px) (nd_data img)))
    as (L1 & _ & _); [exact Htop| | |].
  { rewrite length_resize. simpl. fold p. lia. }
  { intros idx Hi. apply nth_resize. simpl. fold p.
    assert (r * w * p <= R * W * p).
    { apply Nat.mul_le_mono_r, Nat.mul_le_mono; lia. }
    lia. }
  fold F1 in L1.
  pose proof (cell_index_bound a b k R W p Ha Hb Hk) as Hidx.
  destruct (cell_index a b k W p Hb Hk) as (E1 & E2 & E3).
  rewrite nth_setitem_cols, E2, E3
    by (rewrite ?length_setitem_cols, ?length_setitem_rows, L1; exact Hidx).
  rewrite nth_setitem_cols, E2, E3
    by (rewrite ?length_setitem_cols, ?length_setitem_rows, L1; exact Hidx).
  rewrite nth_setitem_rows, E1, E3
    by (rewrite ?length_setitem_cols, ?length_setitem_rows, L1; exact Hidx).
  rewrite nth_setitem_rows, E1, E3
    by (rewrite ?length_setitem_cols, ?length_setitem_rows, L1; exact Hidx).
  destruct (Nat.leb_spec (pad_right corner W w) b),
           (Nat.ltb_spec b W),
           (Nat.ltb_spec b (pad_left corner W w)),
           (Nat.leb_spec (pad_bottom corner R r) a),
           (Nat.ltb_spec a R),
           (Nat.ltb_spec a (pad_top corner R r));
    simpl; try reflexivity; lia.
Qed.

Lemma shift_rows_of_resize corner R W r w px data i j k :
  r <= R -> w <= W ->
  i < r -> j < w -> k < prod_shape px ->
  nth (((pad_top corner R r + i) * W + (pad_left corner W w + j))
       * prod_shape px + k)
      (shift_rows w W (prod_shape px) (pad_top corner R r)
         (pad_left corner W w) r (resize (R :: W :: px) data)) 0%Z
  = nth ((i * w + j) * prod_shape px + k) data 0%Z.
Proof.
  intros Hr Hw Hi Hj Hk. set (p := prod_shape px) in *.
  assert (HwW : pad_left corner W w + w <= W).
  { unfold pad_left. destruct (is_east corner); lia. }
  assert (Htop : r + pad_top corner R r <= R).
  { unfold pad_top. destruct (is_south corner); lia. }
  destruct (shift_rows_spec w W p (pad_top corner R r) (pad_left corner W w) R
              data HwW r (resize (R :: W :: px) data))
    as (_ & Hrows & _); [exact Htop| | |].
  { rewrite length_resize. simpl. fold p. lia. }
  { intros idx Hidx. apply nth_resize. simpl. fold p.
    assert (r * w * p <= R * W * p).
    { apply Nat.mul_le_mono_r, Nat.mul_le_mono; lia. }
    lia. }
  specialize (Hrows i (j * p + k) Hi).
  replace (((pad_top corner R r + i) * W + (pad_left corner W w + j)) * p + k)
    with (((i + pad_top corner R r) * W + pad_left corner W w) * p
          + (j * p + k)) by lia.
  replace ((i * w + j) * p + k) with (i * w * p + (j * p + k)) by lia.
  apply Hrows.
  assert ((j + 1) * p <= w * p) by (apply Nat.mul_le_mono_r; lia). lia.
Qed.

(** [pad] places pixel [(i, j)] of the image at row [pad_top + i], column
    [pad_left + j] of the result, for every pixel that is not in the last
    row or the last column of the image. *)
Theorem pad_keeps_interior (corner : Corner) (R W : nat) (img : ndarray)
    (fill : option (list Z)) (out : ndarray) (r w : nat) (px : list nat) :
  nd_shape img = r :: w :: px ->
  pad corner (R, W) img fill = Ok out ->
  forall i j k,
    i + 1 < r -> j + 1 < w -> k < prod_shape px ->
    pixel out (pad_top corner R r + i) (pad_left corner W w + j) k
    = pixel img i j k.
Proof.
  intros Hs Hpad i j k Hi Hj Hk.
  destruct (pad_ok_inv _ _ _ _ _ _ _ _ _ Hs Hpad) as (Hr & Hw & Hpx).
  rewrite (pad_cell corner R W img fill out r w px _ _ k Hs Hpad);
    [| unfold pad_top; destruct (is_south corner); lia
     | unfold pad_left; destruct (is_east corner); lia
     | exact Hk].
  assert (Hcond :
    (pad_right corner W w <=? pad_left corner W w + j)
    || (pad_left corner W w + j <? pad_left corner W w)
    || (pad_bottom corner R r <=? pad_top corner R r + i)
    || (pad_top corner R r + i <? pad_top corner R r) = false).
  { unfold pad_right, pad_left, pad_bottom, pad_top.
    destruct (is_south corner), (is_east corner),
             (Nat.eqb_spec r 0), (Nat.eqb_spec w 0);
      repeat (apply orb_false_iff; split);
      first [apply Nat.leb_gt | apply Nat.ltb_ge]; lia. }
  rewrite Hcond.
  rewrite shift_rows_of_resize by (try assumption; lia).
  unfold pixel. now rewrite Hs.
Qed.

(** Every other cell of the result holds the fill pixel, when the image is
    not empty: the rows above and the columns left of the image, and
    everything from the last row and the last column of the image on. *)
Theorem pad_fills_rest (corner : Corner) (R W : nat) (img : ndarray)
    (fill : option (list Z)) (out : ndarray) (r w : nat) (px : list nat) :
  nd_shape img = r :: w :: px ->
  pad corner (R, W) img fill = Ok out ->
  0 < r -> 0 < w ->
  forall a b k,
    a < R -> b < W -> k < prod_shape px ->
    a < pad_top corner R r \/ pad_top corner R r + r <= a + 1 \/
    b < pad_left corner W w \/ pad_left corner W w + w <= b + 1 ->
    pixel out a b k = nth k (pad_fill (prod_shape px) fill) 0%Z.
Proof.
  intros Hs Hpad Hr0 Hw0 a b k Ha Hb Hk Hout.
  destruct (pad_ok_inv _ _ _ _ _ _ _ _ _ Hs Hpad) as (Hr & Hw & Hpx).
  rewrite (pad_cell corner R W img fill out r w px a b k Hs Hpad Ha Hb Hk).
  assert (Hcond :
    (pad_right corner W w <=? b) || (b <? pad_left corner W w)
    || (pad_bottom corner R r <=? a) || (a <? pad_top corner R r) = true).
  { revert Hout. unfold pad_right, pad_left, pad_bottom, pad_top.
    destruct (is_south corner), (is_east corner),
             (Nat.eqb_spec r 0), (Nat.eqb_spec w 0); try lia;
      intros Hout;
      destruct (Nat.leb_spec (W - 1) b), (Nat.leb_spec (w - 1) b),
               (Nat.ltb_spec b (W - w)), (Nat.ltb_spec b 0),
               (Nat.leb_spec (R - 1) a), (Nat.leb_spec (r - 1) a),
               (Nat.ltb_spec a (R - r)), (Nat.ltb_spec a 0);
      simpl; try reflexivity; lia. }
  now rewrite Hcond.
Qed.

(** The result of [pad] has the target extents followed by the pixel axes of
    the image, and one scalar per cell, whatever the length of the buffer it
    started from. *)
Theorem pad_result_well_formed (corner : Corner) (R W : nat) (img : ndarray)
    (fill : option (list Z)) (out : ndarray) (r w : nat) (px : list nat) :
  nd_shape img = r :: w :: px ->
  pad corner (R, W) img fill = Ok out ->
  nd_shape out = R :: W :: px /\ nd_wf out.
Proof.
  intros Hs Hpad.
  destruct (pad_ok_inv _ _ _ _ _ _ _ _ _ Hs Hpad) as (Hr & Hw & Hpx).
  rewrite (pad_unfold corner R W img fill r w px Hs Hr Hw Hpx) in Hpad.
  injection Hpad as <-. split; [reflexivity|].
  unfold nd_wf. cbn [nd_shape nd_data].
  rewrite !length_setitem_cols, !length_setitem_rows.
  assert (HwW : pad_left corner W w + w <= W).
  { unfold pad_left. destruct (is_east corner); lia. }
  assert (Htop : r + pad_top corner R r <= R).
  { unfold pad_top. destruct (is_south corner); lia. }
  destruct (shift_rows_spec w W (prod_shape px) (pad_top corner R r)
              (pad_left corner W w) R (nd_data img) HwW r
              (resize (R :: W :: px) (nd_data img)))
    as (L1 & _ & _); [exact Htop| | |].
  { rewrite length_resize. simpl. lia. }
  { intros idx Hidx. apply nth_resize. simpl.
    assert (r * w * prod_shape px <= R * W * prod_shape px).
    { apply Nat.mul_le_mono_r, Nat.mul_le_mono; lia. }
    lia. }
  rewrite L1. simpl. lia.
Qed.

(** On an image with at least two axes, with the default fill or a fill of
    the pixel shape, [pad] raises ValueError exactly when the target is
    smaller than the image in some dimension.  It raises TypeError exactly
    when the target is not smaller and the image has two axes only and at
    least one row: [px_len] is then a float and the first row copy slices
    with it.  It raises nothing else, and returns in every other case. *)
Theorem pad_raises_iff (corner : Corner) (R W : nat) (img : ndarray)
    (fill : option (list Z)) (r w : nat) (px : list nat) :
  nd_shape img = r :: w :: px ->
  (forall f, fill = Some f -> length f = prod_shape px) ->
  (pad corner (R, W) img fill = Raise ValueError <-> R < r \/ W < w) /\
  (pad corner (R, W) img fill = Raise TypeError <->
   r <= R /\ w <= W /\ px = [] /\ 0 < r) /\
  (forall e, pad corner (R, W) img fill = Raise e ->
     e = ValueError \/ e = TypeError) /\
  ((exists out, pad corner (R, W) img fill = Ok out) <->
   r <= R /\ w <= W /\ (px <> [] \/ r = 0)).
Proof.
  intros Hs _.
  destruct (pad_cases corner (R, W) img fill r w px Hs)
    as [[Hc Hp]|[[Hc Hp]|[Hc [out Hp]]]]; cbn [fst snd] in Hc; rewrite Hp.
  - split; [split; [intros _; exact Hc|reflexivity]|].
    split; [split; [discriminate|lia]|].
    split; [intros e [= <-]; now left|].
    split; [intros [o Ho]; discriminate|lia].
  - destruct Hc as (Hr & Hw & Hpx & H0).
    split; [split; [discriminate|lia]|].
    split; [split; [intros _; auto|reflexivity]|].
    split; [intros e [= <-]; now right|].
    split; [intros [o Ho]; discriminate|].
    intros (_ & _ & [Hne|Hz]); [contradiction|lia].
  - destruct Hc as (Hr & Hw & Hpx).
    split; [split; [discriminate|lia]|].
    split; [split; [discriminate|]|].
    { intros (_ & _ & Hnil & H0). destruct Hpx as [Hne|Hz]; [contradiction|lia]. }
    split; [intros e; discriminate|].
    split; [auto|intros _; now exists out].
Qed.

End PadCells.

Lemma pad_keeps_interior_witness :
  exists out,
    pad SouthEast (8, 8)%nat img5 None = Ok out /\
    pixel out (pad_top SouthEast 8 5 + 1) (pad_left SouthEast 8 5 + 2) 0
    = pixel img5 1 2 0.
Proof.
  destruct (pad SouthEast (8, 8)%nat img5 None) as [out|e] eqn:H;
    [|vm_compute in H; discriminate].
  exists out. split; [reflexivity|].
  apply (pad_keeps_interior SouthEast 8 8 img5 None out 5 5 [1%nat]);
    [reflexivity|exact H|lia|lia|simpl; lia].
Defined.

Lemma pad_fills_rest_witness :
  exists out,
    pad NorthWest (8, 8)%nat img5 None = Ok out /\
    pixel out 4 0 0 = 0.
Proof.
  destruct (pad NorthWest (8, 8)%nat img5 None) as [out|e] eqn:H;
    [|vm_compute in H; discriminate].
  exists out. split; [reflexivity|].
  apply (pad_fills_rest NorthWest 8 8 img5 None out 5 5 [1%nat]
           eq_refl H ltac:(lia) ltac:(lia) 4%nat 0%nat 0%nat);
    [lia|lia|simpl; lia|].
  right; left. simpl. lia.
Defined.

Lemma pad_result_well_formed_witness :
  exists out,
    pad NorthEast (6, 7)%nat img5 None = Ok out /\
    nd_shape out = [6; 7; 1]%nat /\ nd_wf out.
Proof.
  destruct (pad NorthEast (6, 7)%nat img5 None) as [out|e] eqn:H;
    [|vm_compute in H; discriminate].
  exists out. split; [reflexivity|].
  exact (pad_result_well_formed NorthEast 6 7 img5 None out 5 5 [1%nat]
           eq_refl H).
Defined.

Lemma pad_raises_iff_witness :
  pad SouthWest (4, 9)%nat img5 None = Raise ValueError /\
  pad SouthWest (4, 4)%nat img3_flat None = Raise TypeError.
Proof.
  split.
  - apply (proj1 (pad_raises_iff SouthWest 4 9 img5 None 5 5 [1%nat] eq_refl
                    ltac:(discriminate))).
    left. lia.
  - apply (proj1 (proj2 (pad_raises_iff SouthWest 4 4 img3_flat None 3 3 []
                           eq_refl ltac:(discriminate)))).
    repeat split; lia.
Defined.

(** ** The tile grid *)

Lemma NoDup_map_inj {A B : Type} (f : A -> B) (l : list A) :
  (forall x y, In x l -> In y l -> f x = f y -> x = y) ->
  NoDup l -> NoDup (map f l).
Proof.
  intros Hinj Hl. induction Hl as [|x l Hx Hl IH]; simpl; [constructor|].
  constructor.
  - rewrite list_elem_of_In, in_map_iff. intros (y & Hy & Hin).
    apply Hx. rewrite list_elem_of_In.
    rewrite (Hinj x y); [exact Hin|now left|now right|now symmetry].
  - apply IH. intros a b Ha Hb. apply Hinj; now right.
Qed.

Lemma NoDup_flat_map {A B : Type} (f : A -> list B) (l : list A) :
  NoDup l ->
  (forall x, In x l -> NoDup (f x)) ->
  (forall x y z, In x l -> In y l -> In z (f x) -> In z (f y) -> x = y) ->
  NoDup (flat_map f l).
Proof.
  intros Hl. induction Hl as [|x l Hx Hl IH]; intros Hf Hdis; simpl;
    [constructor|].
  apply NoDup_app. split; [apply Hf; now left|]. split.
  - intros z Hz Hz'. rewrite list_elem_of_In in Hz, Hz'.
    apply in_flat_map in Hz' as (y & Hy & Hzy).
    apply Hx. rewrite list_elem_of_In.
    rewrite (Hdis x y z); [exact Hy|now left|now right|exact Hz|exact Hzy].
  - apply IH.
    + intros y Hy. apply Hf. now right.
    + intros a b z Ha Hb. apply Hdis; now right.
Qed.

Lemma scan_tiles_coordinates ts img a corner order rows cols :
  map snd (scan_tiles ts img a corner order rows cols) =
    flat_map (fun row =>
      map (fun col =>
             tilecoordinates order corner (Z.of_nat rows, Z.of_nat cols)
               (Z.of_nat row, Z.of_nat col))
          (seq 0 cols))
      (seq 0 rows).
Proof.
  unfold scan_tiles. induction (seq 0 rows) as [|row l IH]; cbn [flat_map];
    [reflexivity|].
  rewrite map_app, IH, map_map. reflexivity.
Qed.

Lemma tilecoordinates_inj order corner shape p q :
  tilecoordinates order corner shape p = tilecoordinates order corner shape q ->
  p = q.
Proof.
  intros E. rewrite <- (tilecoordinates_inv_left order corner shape p), E.
  apply tilecoordinates_inv_left.
Qed.

Lemma scan_tiles_coordinates_nodup ts img a corner order rows cols :
  NoDup (map snd (scan_tiles ts img a corner order rows cols)).
Proof.
  rewrite scan_tiles_coordinates. apply NoDup_flat_map.
  - apply NoDup_seq.
  - intros row _. apply NoDup_map_inj; [|apply NoDup_seq].
    intros x y _ _ E. apply tilecoordinates_inj in E. injection E as E. lia.
  - intros x y z _ _ Hx Hy.
    apply in_map_iff in Hx as (cx & <- & _).
    apply in_map_iff in Hy as (cy & E & _).
    apply tilecoordinates_inj in E. injection E as E _. lia.
Qed.

(** What [gettiles] yields is the scan of a grid of the array it left at
    [img]. *)
Lemma gettiles_scan ts (st : store) img corner order st1 tiles :
  gettiles ts st img corner order = Ok (st1, tiles) ->
  exists a' rows cols px,
    st1 !! img = Some a' /\
    nd_shape a' = (fst ts * rows)%nat :: (snd ts * cols)%nat :: px /\
    tiles = scan_tiles ts img a' corner order rows cols.
Proof.
  intros H.
  destruct (gettiles_ok_inv _ _ _ _ _ _ H)
    as (a & r & c & px & Hst & Hs & Hth & Htw & Hpx).
  destruct ts as [th tw]. simpl in Hth, Htw, Hpx.
  destruct (gettiles_eq th tw st img corner order a r c px Hst Hs Hth Htw
              Hpx)
    as (a' & _ & Hs' & Heq).
  rewrite Heq in H. injection H as <- <-.
  exists a', (ceil_div r th), (ceil_div c tw), px.
  split; [|split; [exact Hs'|reflexivity]].
  apply list_lookup_insert_eq. eapply lookup_lt_Some; eassumption.
Qed.

(** The coordinates of a scan are the positions of the grid as seen in the
    chosen basis. *)
Lemma scan_tiles_coordinates_grid ts img a corner order rows cols p :
  In p (map snd (scan_tiles ts img a corner order rows cols)) <->
  in_grid (basis_shape order (Z.of_nat rows, Z.of_nat cols)) p.
Proof.
  rewrite scan_tiles_coordinates. split.
  - intros Hin. apply in_flat_map in Hin as (row & Hrow & Hin).
    apply in_map_iff in Hin as (col & <- & Hcol).
    apply in_seq in Hrow, Hcol.
    apply (tilecoordinates_in_grid order corner
             (Z.of_nat rows, Z.of_nat cols) (Z.of_nat row, Z.of_nat col)).
    unfold in_grid. cbn [fst snd]. lia.
  - intros Hp.
    pose proof (tilecoordinates_inv_in_grid order corner _ p Hp) as Hq.
    pose proof (tilecoordinates_inv_right order corner
                  (Z.of_nat rows, Z.of_nat cols) p) as Hback.
    destruct (tilecoordinates_inv order corner
                (Z.of_nat rows, Z.of_nat cols) p) as [qr qc].
    unfold in_grid in Hq. cbn [fst snd] in Hq.
    apply in_flat_map. exists (Z.to_nat qr).
    split; [apply in_seq; lia|].
    apply in_map_iff. exists (Z.to_nat qc).
    split; [|apply in_seq; lia].
    rewrite !Z2Nat.id by lia. exact Hback.
Qed.

(** The addresses that [gettiles] hands out.  Let [rows] by [cols] be the
    grid of tiles of the array left at [img], that is, its first two extents
    divided by the tile shape.  There is one tile per position of the grid,
    no two tiles have the same address, and the addresses are exactly the
    positions of the grid as seen in the chosen basis: each of them is the
    address of a tile, and no other pair is. *)
Theorem gettiles_coordinates_distinct (ts : nat * nat) (st : store)
    (img : nat) (corner : Corner) (order : Order) (st1 : store)
    (tiles : list (view * (Z * Z))) :
  gettiles ts st img corner order = Ok (st1, tiles) ->
  exists a' rows cols px,
    st1 !! img = Some a' /\
    nd_shape a' = (fst ts * rows)%nat :: (snd ts * cols)%nat :: px /\
    (0 < fst ts)%nat /\ (0 < snd ts)%nat /\
    length tiles = (rows * cols)%nat /\
    NoDup (map snd tiles) /\
    (forall p,
       In p (map snd tiles) <->
       in_grid (basis_shape order (Z.of_nat rows, Z.of_nat cols)) p).
Proof.
  intros H.
  destruct (gettiles_ok_inv _ _ _ _ _ _ H)
    as (_ & _ & _ & _ & _ & _ & Hth & Htw & _).
  destruct (gettiles_scan _ _ _ _ _ _ _ H)
    as (a' & rows & cols & px & Hst1 & Hs' & ->).
  exists a', rows, cols, px.
  split; [exact Hst1|]. split; [exact Hs'|].
  split; [exact Hth|]. split; [exact Htw|].
  split; [apply scan_tiles_length|].
  split; [apply scan_tiles_coordinates_nodup|].
  intros p. apply scan_tiles_coordinates_grid.
Qed.

Lemma gettiles_coordinates_distinct_witness :
  exists st1 tiles a',
    gettiles (2, 2)%nat [img5] 0 NorthEast RowMajor = Ok (st1, tiles) /\
    st1 !! 0%nat = Some a' /\
    nd_shape a' = [6; 6; 1]%nat /\
    length tiles = 9%nat /\
    NoDup (map snd tiles) /\
    In (2, 0) (map snd tiles).
Proof.
  destruct (gettiles (2, 2)%nat [img5] 0 NorthEast RowMajor)
    as [[st1 tiles]|e] eqn:H; [|vm_compute in H; discriminate].
  destruct (gettiles_coordinates_distinct _ _ _ _ _ _ _ H)
    as (a' & rows & cols & px & Hst1 & Hs' & _ & _ & Hlen & Hnd & Hgrid).
  assert (E : st1 !! 0%nat = Some (mk_ndarray [6; 6; 1]%nat (nd_data a')) /\
              rows = 3%nat /\ cols = 3%nat).
  { vm_compute in H. injection H as <- _. injection Hst1 as <-.
    cbn [nd_shape fst snd] in Hs'. injection Hs' as Hr Hc _.
    split; [reflexivity|]. lia. }
  destruct E as (E & -> & ->).
  rewrite Hst1 in E. injection E as E.
  exists st1, tiles, a'. split; [reflexivity|]. split; [exact Hst1|].
  split; [now rewrite E|]. split; [exact Hlen|]. split; [exact Hnd|].
  apply Hgrid. unfold in_grid. simpl. lia.
Defined.

Section TilePartition.

Local Open Scope nat_scope.

Lemma getitem_tile img a th tw rows cols px row col :
  nd_shape a = th * rows :: tw * cols :: px ->
  row < rows -> col < cols ->
  getitem img a (th * row) (th * (row + 1)) (tw * col) (tw * (col + 1))
  = mk_view img (th * row) (tw * col) (tw * cols) th tw px.
Proof.
  intros Hs Hrow Hcol. unfold getitem. rewrite Hs.
  assert (th * row <= th * rows) by (apply Nat.mul_le_mono_l; lia).
  assert (th * (row + 1) <= th * rows) by (apply Nat.mul_le_mono_l; lia).
  assert (tw * col <= tw * cols) by (apply Nat.mul_le_mono_l; lia).
  assert (tw * (col + 1) <= tw * cols) by (apply Nat.mul_le_mono_l; lia).
  rewrite !Nat.min_l by assumption. f_equal; lia.
Qed.

Lemma view_cells_tile img th tw w px row col :
  view_cells (mk_view img (th * row) (tw * col) w th tw px)
  = tile_cells th tw row col.
Proof. reflexivity. Qed.

Lemma scan_tiles_cells th tw img a corner order rows cols px :
  nd_shape a = th * rows :: tw * cols :: px ->
  concat (map (fun t => view_cells (fst t))
            (scan_tiles (th, tw) img a corner order rows cols))
  = flat_map (fun row => flat_map (tile_cells th tw row) (seq 0 cols))
             (seq 0 rows).
Proof.
  intros Hs. unfold scan_tiles. cbn [fst snd].
  assert (Hrows : Forall (fun row => row < rows) (seq 0 rows)).
  { apply List.Forall_forall. intros x Hx%in_seq. lia. }
  induction Hrows as [|row l Hrow _ IH]; cbn [flat_map map concat];
    [reflexivity|].
  rewrite map_app, concat_app, IH. f_equal.
  assert (Hcols : Forall (fun col => col < cols) (seq 0 cols)).
  { apply List.Forall_forall. intros x Hx%in_seq. lia. }
  clear IH. induction Hcols as [|col k Hcol _ IHk]; cbn [flat_map map concat];
    [reflexivity|].
  rewrite IHk. f_equal.
  rewrite (getitem_tile img a th tw rows cols px row col Hs Hrow Hcol).
  reflexivity.
Qed.

Lemma in_tile_cells th tw row col x y :
  In (x, y) (tile_cells th tw row col) <->
  th * row <= x < th * row + th /\ tw * col <= y < tw * col + tw.
Proof.
  unfold tile_cells. rewrite in_flat_map. split.
  - intros (i & Hi%in_seq & Hin). apply in_map_iff in Hin as (j & E & Hj%in_seq).
    injection E as <- <-. lia.
  - intros [Hx Hy]. exists (x - th * row). split; [apply in_seq; lia|].
    apply in_map_iff. exists (y - tw * col). split; [f_equal; lia|].
    apply in_seq. lia.
Qed.

Lemma NoDup_tile_cells th tw row col : NoDup (tile_cells th tw row col).
Proof.
  unfold tile_cells. apply NoDup_flat_map.
  - apply NoDup_seq.
  - intros i _. apply NoDup_map_inj; [|apply NoDup_seq].
    intros x y _ _ E. injection E as E. lia.
  - intros i i' z _ _ Hi Hi'.
    apply in_map_iff in Hi as (j & <- & _).
    apply in_map_iff in Hi' as (j' & E & _). injection E as E _. lia.
Qed.

Lemma block_unique t q q' x :
  t * q <= x < t * q + t -> t * q' <= x < t * q' + t -> q = q'.
Proof.
  intros H H'.
  destruct (Nat.lt_trichotomy q q') as [Hlt|[->|Hlt]]; [|reflexivity|].
  - assert (t * (q + 1) <= t * q') by (apply Nat.mul_le_mono_l; lia). lia.
  - assert (t * (q' + 1) <= t * q) by (apply Nat.mul_le_mono_l; lia). lia.
Qed.

Lemma in_tile_grid th tw rows cols x y :
  0 < th -> 0 < tw ->
  In (x, y) (flat_map (fun row => flat_map (tile_cells th tw row) (seq 0 cols))
                      (seq 0 rows)) <->
  x < th * rows /\ y < tw * cols.
Proof.
  intros Hth Htw. rewrite in_flat_map. split.
  - intros (row & Hrow%in_seq & Hin).
    apply in_flat_map in Hin as (col & Hcol%in_seq & Hin).
    apply in_tile_cells in Hin as [Hx Hy].
    assert (th * (row + 1) <= th * rows) by (apply Nat.mul_le_mono_l; lia).
    assert (tw * (col + 1) <= tw * cols) by (apply Nat.mul_le_mono_l; lia).
    lia.
  - intros [Hx Hy].
    pose proof (Nat.div_mod_eq x th) as Ex.
    pose proof (Nat.mod_upper_bound x th ltac:(lia)) as Bx.
    pose proof (Nat.div_mod_eq y tw) as Ey.
    pose proof (Nat.mod_upper_bound y tw ltac:(lia)) as By.
    exists (x / th). split.
    { apply in_seq. split; [lia|]. simpl.
      apply Nat.Div0.div_lt_upper_bound. lia. }
    apply in_flat_map. exists (y / tw). split.
    { apply in_seq. split; [lia|]. simpl.
      apply Nat.Div0.div_lt_upper_bound. lia. }
    apply in_tile_cells. lia.
Qed.

Lemma NoDup_tile_grid th tw rows cols :
  NoDup (flat_map (fun row => flat_map (tile_cells th tw row) (seq 0 cols))
                  (seq 0 rows)).
Proof.
  apply NoDup_flat_map.
  - apply NoDup_seq.
  - intros row _. apply NoDup_flat_map.
    + apply NoDup_seq.
    + intros col _. apply NoDup_tile_cells.
    + intros col col' [x y] _ _ H H'.
      apply in_tile_cells in H as [_ Hy], H' as [_ Hy'].
      exact (block_unique tw col col' y Hy Hy').
  - intros row row' [x y] _ _ H H'.
    apply in_flat_map in H as (col & _ & H), H' as (col' & _ & H').
    apply in_tile_cells in H as [Hx _], H' as [Hx' _].
    exact (block_unique th row row' x Hx Hx').
Qed.

Lemma in_grid_cells r c x y : In (x, y) (grid_cells r c) <-> x < r /\ y < c.
Proof.
  unfold grid_cells. rewrite in_flat_map. split.
  - intros (i & Hi%in_seq & Hin).
    apply in_map_iff in Hin as (j & E & Hj%in_seq). injection E as <- <-. lia.
  - intros [Hx Hy]. exists x. split; [apply in_seq; lia|].
    apply in_map_iff. exists y. split; [reflexivity|apply in_seq; lia].
Qed.

Lemma NoDup_grid_cells r c : NoDup (grid_cells r c).
Proof.
  unfold grid_cells. apply NoDup_flat_map.
  - apply NoDup_seq.
  - intros i _. apply NoDup_map_inj; [|apply NoDup_seq].
    intros x y _ _ E. now injection E.
  - intros i i' z _ _ Hi Hi'.
    apply in_map_iff in Hi as (j & <- & _).
    apply in_map_iff in Hi' as (j' & E & _). now injection E.
Qed.

(** The tiles that [gettiles] yields have exactly the tile shape, and their
    cells are the cells of the (padded) image at [img], each in exactly one
    tile. *)
Theorem gettiles_tiles_partition (ts : nat * nat) (st : store) (img : nat)
    (corner : Corner) (order : Order) (st1 : store)
    (tiles : list (view * (Z * Z))) :
  gettiles ts st img corner order = Ok (st1, tiles) ->
  exists a' pr pc px,
    st1 !! img = Some a' /\
    nd_shape a' = pr :: pc :: px /\
    Forall (fun t => view_shape (fst t) = fst ts :: snd ts :: px) tiles /\
    NoDup (concat (map (fun t => view_cells (fst t)) tiles)) /\
    Permutation (concat (map (fun t => view_cells (fst t)) tiles))
                (grid_cells pr pc).
Proof.
  intros H.
  destruct (gettiles_ok_inv _ _ _ _ _ _ H)
    as (a & r & c & px & Hst & Hs & Hth & Htw & Hpx).
  destruct ts as [th tw]. cbn [fst snd] in *.
  destruct (gettiles_eq th tw st img corner order a r c px Hst Hs Hth Htw
              Hpx)
    as (a' & _ & Hs' & Heq).
  rewrite Heq in H. injection H as <- <-.
  set (rows := ceil_div r th) in *. set (cols := ceil_div c tw) in *.
  exists a', (th * rows), (tw * cols), px.
  split.
  { apply list_lookup_insert_eq. eapply lookup_lt_Some; eassumption. }
  split; [exact Hs'|]. split.
  { apply List.Forall_forall. intros t Hin. unfold scan_tiles in Hin.
    apply in_flat_map in Hin as (row & Hrow%in_seq & Hin).
    apply in_map_iff in Hin as (col & <- & Hcol%in_seq). cbn [fst snd].
    rewrite (getitem_tile img a' th tw rows cols px row col Hs') by lia.
    reflexivity. }
  rewrite (scan_tiles_cells th tw img a' corner order rows cols px Hs').
  split; [apply NoDup_tile_grid|].
  apply NoDup_Permutation;
    [apply NoDup_tile_grid|apply NoDup_grid_cells|].
  intros [x y]. rewrite !list_elem_of_In, in_tile_grid, in_grid_cells by lia.
  reflexivity.
Qed.

End TilePartition.

Lemma gettiles_tiles_partition_witness :
  exists st1 tiles a' pr pc px,
    gettiles (2, 2)%nat [img5] 0 SouthWest ColMajor = Ok (st1, tiles) /\
    st1 !! 0%nat = Some a' /\
    nd_shape a' = pr :: pc :: px /\
    Permutation (concat (map (fun t => view_cells (fst t)) tiles))
                (grid_cells pr pc).
Proof.
  destruct (gettiles (2, 2)%nat [img5] 0 SouthWest ColMajor)
    as [[st1 tiles]|e] eqn:H; [|vm_compute in H; discriminate].
  destruct (gettiles_tiles_partition _ _ _ _ _ _ _ H)
    as (a' & pr & pc & px & H1 & H2 & _ & _ & H3).
  exists st1, tiles, a', pr, pc, px. repeat split; assumption.
Defined.

(** ** The walk as a whole *)

Lemma StronglySorted_app_ge (l1 l2 : list nat) :
  StronglySorted ge l1 -> StronglySorted ge l2 ->
  (forall x y, In x l1 -> In y l2 -> (y <= x)%nat) ->
  StronglySorted ge (l1 ++ l2).
Proof.
  intros H1 H2 H12. induction H1 as [|x l1 Hs IH Hx]; simpl; [exact H2|].
  constructor.
  - apply IH. intros a b Ha Hb. apply H12; [now right|exact Hb].
  - apply Forall_app. split; [exact Hx|].
    apply List.Forall_forall. intros y Hy. apply H12; [now left|exact Hy].
Qed.

Lemma StronglySorted_rev_seq n : StronglySorted ge (rev (seq 0 n)).
Proof.
  induction n as [|n IH]; [constructor|].
  rewrite seq_S, rev_unit. simpl. constructor; [exact IH|].
  apply List.Forall_forall. intros y Hy%in_rev%in_seq. lia.
Qed.

Lemma le_mul_pow2 t x : 0 <= t -> 0 <= x -> t <= t * 2 ^ x.
Proof.
  intros Ht Hx. pose proof (Z.pow_pos_nonneg 2 x ltac:(lia) Hx) as Hp.
  rewrite <- (Z.mul_1_r t) at 1. apply Z.mul_le_mono_nonneg_l; lia.
Qed.

(** [ceil_log2_ratio] is negative exactly when the image extent fits twice
    into the tile extent. *)
Lemma ceil_log2_ratio_neg s t :
  0 < s -> 0 < t -> (ceil_log2_ratio s t <= -1 <-> 2 * s <= t).
Proof.
  intros Hs Ht.
  pose proof (ceil_log2_ratio_spec s t Hs Ht) as [Hpos Hneg]. cbv zeta in *.
  set (n := ceil_log2_ratio s t) in *. split.
  - intros Hn. destruct Hneg as [H1 _]; [lia|].
    assert (H2 : 2 ^ 1 <= 2 ^ (- n)) by (apply Z.pow_le_mono_r; lia).
    change (2 ^ 1) with 2 in H2.
    assert (s * 2 <= s * 2 ^ (- n)) by (apply Z.mul_le_mono_nonneg_l; lia).
    lia.
  - intros H2. destruct (Z_lt_le_dec n 0) as [|Hn]; [lia|].
    destruct (Z.eq_dec n 0) as [E|E].
    + destruct Hneg as [_ H1]; [lia|]. rewrite E in H1. simpl in H1. lia.
    + destruct Hpos as [_ H1]; [lia|]. specialize (H1 ltac:(lia)).
      pose proof (le_mul_pow2 t (n - 1) ltac:(lia) ltac:(lia)). lia.
Qed.

(** For positive extents the automatic level count [n] is defined.  It is
    below 1 exactly when the image fits twice into the tile along both
    axes.  Otherwise [n - 1] halvings are enough, and fewer are not:
    both extents are at most the tile extent times [2^(n-1)], and for
    [n > 1] one of them exceeds the tile extent times [2^(n-2)]. *)
Theorem auto_nlevels_fits (r c : nat) (px : list nat) (th tw : nat) :
  (0 < r)%nat -> (0 < c)%nat -> (0 < th)%nat -> (0 < tw)%nat ->
  exists n,
    auto_nlevels (r :: c :: px) (th, tw) = Ok n /\
    (n <= 0 <-> (2 * r <= th)%nat /\ (2 * c <= tw)%nat) /\
    (1 <= n ->
       Z.of_nat r <= Z.of_nat th * 2 ^ (n - 1) /\
       Z.of_nat c <= Z.of_nat tw * 2 ^ (n - 1) /\
       (1 < n ->
          Z.of_nat th * 2 ^ (n - 2) < Z.of_nat r \/
          Z.of_nat tw * 2 ^ (n - 2) < Z.of_nat c)).
Proof.
  intros Hr Hc Hth Htw.
  unfold auto_nlevels, level_term. cbn [fst snd].
  destruct (Nat.eqb_spec th 0); [lia|]. destruct (Nat.eqb_spec r 0); [lia|].
  destruct (Nat.eqb_spec tw 0); [lia|]. destruct (Nat.eqb_spec c 0); [lia|].
  set (a := ceil_log2_ratio (Z.of_nat r) (Z.of_nat th)).
  set (b := ceil_log2_ratio (Z.of_nat c) (Z.of_nat tw)).
  exists (1 + Z.max a b). split; [reflexivity|].
  pose proof (ceil_log2_ratio_neg (Z.of_nat r) (Z.of_nat th)
                ltac:(lia) ltac:(lia)) as Na.
  pose proof (ceil_log2_ratio_neg (Z.of_nat c) (Z.of_nat tw)
                ltac:(lia) ltac:(lia)) as Nb.
  fold a in Na. fold b in Nb.
  pose proof (ceil_log2_ratio_spec (Z.of_nat r) (Z.of_nat th)
                ltac:(lia) ltac:(lia)) as [Pa Ma].
  pose proof (ceil_log2_ratio_spec (Z.of_nat c) (Z.of_nat tw)
                ltac:(lia) ltac:(lia)) as [Pb Mb].
  cbv zeta in Pa, Ma, Pb, Mb. fold a in Pa, Ma. fold b in Pb, Mb.
  split; [lia|].
  intros Hn. replace (1 + Z.max a b - 1) with (Z.max a b) by lia.
  replace (1 + Z.max a b - 2) with (Z.max a b - 1) by lia.
  assert (Hfit : forall s t x,
            0 < s -> 0 < t ->
            (0 <= x -> s <= t * 2 ^ x) ->
            (x <= 0 -> s * 2 ^ (- x) <= t /\ t < s * 2 ^ (- x + 1)) ->
            forall m, 0 <= m -> x <= m -> s <= t * 2 ^ m).
  { intros s t x Hs Ht Hp Hm m Hm0 Hxm.
    destruct (Z_lt_le_dec x 0) as [Hx|Hx].
    - destruct Hm as [H1 _]; [lia|].
      pose proof (le_mul_pow2 s (- x) ltac:(lia) ltac:(lia)).
      pose proof (le_mul_pow2 t m ltac:(lia) ltac:(lia)). lia.
    - specialize (Hp Hx).
      assert (t * 2 ^ x <= t * 2 ^ m).
      { apply Z.mul_le_mono_nonneg_l; [lia|]. apply Z.pow_le_mono_r; lia. }
      lia. }
  split; [|split].
  - apply (Hfit _ _ a); try lia; tauto.
  - apply (Hfit _ _ b); try lia; tauto.
  - intros H1.
    destruct (Z.max_spec a b) as [[Hab E]|[Hab E]]; rewrite E.
    + right. destruct Pb as [_ Pb]; [lia|]. apply Pb. lia.
    + left. destruct Pa as [_ Pa]; [lia|]. apply Pa. lia.
Qed.

Lemma auto_nlevels_fits_witness :
  exists n,
    auto_nlevels [512; 300; 4]%nat (256, 256)%nat = Ok n /\
    (1 <= n -> 512 <= 256 * 2 ^ (n - 1)).
Proof.
  destruct (auto_nlevels_fits 512 300 [4%nat] 256 256
              ltac:(lia) ltac:(lia) ltac:(lia) ltac:(lia))
    as (n & H1 & _ & H2).
  exists n. split; [exact H1|]. intros Hn. exact (proj1 (H2 Hn)).
Defined.

Lemma StronglySorted_map_const {A : Type} (x : nat) (l : list A) :
  StronglySorted ge (map (fun _ => x) l).
Proof.
  induction l as [|a l IH]; simpl; constructor; [exact IH|].
  apply List.Forall_forall. intros y Hy%in_map_iff.
  destruct Hy as (_ & <- & _). unfold ge. lia.
Qed.

Section WalkOrder.

Variable resample : list nat -> list nat -> list Z -> list Z.

(** The levels of the yielded records are levels of the list that is
    walked, in the order of that list. *)
Lemma tile_levels_levels ts levels :
  forall (st : store) img out e st',
    tile_levels resample ts st img levels = (out, e, st') ->
    Forall (fun y => In (y_level y) levels) out /\
    (StronglySorted ge levels -> StronglySorted ge (map y_level out)).
Proof.
  induction levels as [|level rest IH]; intros st img out e st' H.
  { injection H as <- <- <-. split; constructor. }
  rewrite tile_levels_cons in H.
  destruct (gettiles ts st img SouthWest ColMajor) as [[st1 tiles]|err].
  2:{ injection H as <- <- <-. split; constructor. }
  cbv zeta in H.
  set (out1 := map (fun t => mk_yielded (fst t) (fst (snd t)) (snd (snd t))
                               level (read_view st1 (fst t))) tiles) in *.
  assert (H1 : Forall (fun y => In (y_level y) (level :: rest)) out1).
  { apply List.Forall_forall. intros y Hy%in_map_iff.
    destruct Hy as (t & <- & _). now left. }
  assert (S1 : StronglySorted ge (map y_level out1)).
  { unfold out1. rewrite map_map. cbn [y_level].
    apply StronglySorted_map_const. }
  assert (Hrec : forall st2 img2 out' e' st3,
            tile_levels resample ts st2 img2 rest = (out', e', st3) ->
            Forall (fun y => In (y_level y) (level :: rest)) (out1 ++ out') /\
            (StronglySorted ge (level :: rest) ->
             StronglySorted ge (map y_level (out1 ++ out')))).
  { intros st2 img2 out' e' st3 Hr.
    destruct (IH _ _ _ _ _ Hr) as [F2 S2]. split.
    - apply Forall_app. split; [exact H1|].
      eapply Forall_impl; [exact F2|]. intros y Hy. now right.
    - intros Hs. apply StronglySorted_inv in Hs as [Hs Hge].
      rewrite map_app. apply StronglySorted_app_ge; [exact S1|now apply S2|].
      intros x y Hx Hy.
      apply in_map_iff in Hx as (yx & <- & Hx).
      apply in_map_iff in Hx as (t & <- & _). cbn [y_level].
      apply in_map_iff in Hy as (yy & <- & Hy).
      rewrite List.Forall_forall in F2, Hge.
      exact (Hge _ (F2 _ Hy)). }
  destruct (0 <? level)%nat.
  - destruct (zoom resample st1 img) as [[st2 img2]|err].
    + destruct (tile_levels resample ts st2 img2 rest) as [[out' e'] st3] eqn:Hr.
      injection H as <- <- <-. now apply (Hrec _ _ _ _ _ Hr).
    + injection H as <- <- <-. split; [exact H1|intros _; exact S1].
  - destruct (tile_levels resample ts st1 img rest) as [[out' e'] st3] eqn:Hr.
    injection H as <- <- <-. now apply (Hrec _ _ _ _ _ Hr).
Qed.

(** [tile] yields its records level by level, highest level first, and with
    an explicit level count every level is below the count; with a count
    that is zero or negative nothing is yielded, nothing raised and nothing
    changed. *)
Theorem tile_levels_descend (ts : nat * nat) (st : store) (img : nat)
    (n : Z) (out : list yielded) (e : option exn) (st' : store) :
  tile resample ts st img (Some n) = (out, e, st') ->
  StronglySorted ge (map y_level out) /\
  Forall (fun y => Z.of_nat (y_level y) < n) out /\
  (n <= 0 -> out = [] /\ e = None /\ st' = st).
Proof.
  unfold tile. intros H.
  destruct (tile_levels_levels ts _ _ _ _ _ _ H) as [F S]. split; [|split].
  - apply S, StronglySorted_rev_seq.
  - eapply Forall_impl; [exact F|]. intros y Hy%in_rev%in_seq. lia.
  - intros Hn. replace (Z.to_nat n) with 0%nat in H by lia.
    simpl in H. now injection H as <- <- <-.
Qed.

Lemma tile_levels_alloc ts k :
  forall (st : store) img out e st',
    tile_levels resample ts st img (rev (seq 0 k)) = (out, e, st') ->
    (length st <= length st' <= length st + pred k)%nat.
Proof.
  induction k as [|k IH]; intros st img out e st' H.
  { injection H as <- <- <-. lia. }
  rewrite seq_S, rev_unit, tile_levels_cons in H. simpl plus in H.
  destruct (gettiles ts st img SouthWest ColMajor) as [[st1 tiles]|err] eqn:Hg.
  2:{ injection H as <- <- <-.
      rewrite (proj1 (gettiles_raised_frame ts st img err)). lia. }
  destruct (gettiles_frame _ _ _ _ _ _ _ Hg) as (Hlen & _).
  cbv zeta in H. destruct (Nat.ltb_spec 0 k) as [Hk|Hk].
  - destruct (zoom resample st1 img) as [[st2 img2]|err] eqn:Hz.
    + destruct (zoom_frame resample _ _ _ _ Hz) as (a' & -> & ->).
      destruct (tile_levels resample ts (st1 ++ [a']) (length st1)
                  (rev (seq 0 k))) as [[out' e'] st3] eqn:Hr.
      injection H as <- <- <-. apply IH in Hr.
      rewrite length_app in Hr. simpl in Hr. lia.
    + injection H as <- <- <-. lia.
  - destruct (tile_levels resample ts st1 img (rev (seq 0 k)))
      as [[out' e'] st3] eqn:Hr.
    injection H as <- <- <-. apply IH in Hr. lia.
Qed.

(** What [tile] does to the store: arrays other than [img] that existed
    before are left as they were; [img] itself is left as it was when its
    extents are multiples of the tile shape; arrays are only added, one per
    downsampling, at most [nlevels - 1] of them. *)
Theorem tile_store_effect (ts : nat * nat) (st : store) (img : nat)
    (n : Z) (out : list yielded) (e : option exn) (st' : store) :
  tile resample ts st img (Some n) = (out, e, st') ->
  (forall id, (id < length st)%nat -> id <> img -> st' !! id = st !! id) /\
  (divisible ts st img -> st' !! img = st !! img) /\
  (length st <= length st' <= length st + pred (Z.to_nat n))%nat.
Proof.
  unfold tile. intros H.
  destruct (tile_levels_frame resample ts _ _ _ _ _ _ H) as (H1 & H2 & _).
  split; [exact H1|]. split; [exact H2|].
  exact (tile_levels_alloc ts _ _ _ _ _ _ H).
Qed.

(** With the automatic level count, an image that fits twice into the tile
    along both axes gives no tile at all: [tile] yields nothing, raises
    nothing and leaves the store as it was. *)
Theorem tile_small_image_yields_nothing (th tw : nat) (st : store)
    (img : nat) (a : ndarray) (r c : nat) (px : list nat) :
  st !! img = Some a ->
  nd_shape a = r :: c :: px ->
  (0 < r)%nat -> (0 < c)%nat ->
  (2 * r <= th)%nat -> (2 * c <= tw)%nat ->
  tile resample (th, tw) st img None = ([], None, st).
Proof.
  intros Hst Hs Hr Hc Hth Htw. unfold tile. rewrite Hst, Hs.
  destruct (auto_nlevels_small r c px th tw Hr Hc Hth Htw) as (n & -> & Hn).
  replace (Z.to_nat n) with 0%nat by lia. reflexivity.
Qed.

End WalkOrder.

Lemma tile_levels_descend_witness :
  exists out e st',
    tile nearest_resample (2, 2)%nat [img4] 0 (Some 2) = (out, e, st') /\
    StronglySorted ge (map y_level out).
Proof.
  destruct (tile nearest_resample (2, 2)%nat [img4] 0 (Some 2))
    as [[out e] st'] eqn:H.
  exists out, e, st'. split; [reflexivity|].
  exact (proj1 (tile_levels_descend nearest_resample _ _ _ _ _ _ _ H)).
Defined.

Lemma tile_store_effect_witness :
  exists out e st',
    tile nearest_resample (2, 2)%nat [img4] 0 (Some 2) = (out, e, st') /\
    (1 <= length st' <= 1 + 1)%nat.
Proof.
  destruct (tile nearest_resample (2, 2)%nat [img4] 0 (Some 2))
    as [[out e] st'] eqn:H.
  exists out, e, st'. split; [reflexivity|].
  exact (proj2 (proj2 (tile_store_effect nearest_resample _ _ _ _ _ _ _ H))).
Defined.

Lemma tile_small_image_yields_nothing_witness :
  tile nearest_resample (8, 8)%nat [img4] 0 None = ([], None, [img4]).
Proof.
  apply (tile_small_image_yields_nothing nearest_resample 8 8 [img4] 0 img4
           4 4 [3%nat]); [reflexivity|reflexivity|lia|lia|lia|lia].
Defined.

(** ** Side effects of the tile extractor and of the downsampler *)

(** [gettiles] changes no array but [img].  It changes nothing at all when
    the extents of [img] are multiples of the tile shape; otherwise [img]
    becomes the result of [pad] to the next multiples, with zero fill. *)
Theorem gettiles_side_effect (ts : nat * nat) (st : store) (img : nat)
    (corner : Corner) (order : Order) (st1 : store)
    (tiles : list (view * (Z * Z))) :
  gettiles ts st img corner order = Ok (st1, tiles) ->
  length st1 = length st /\
  (forall id, id <> img -> st1 !! id = st !! id) /\
  (divisible ts st img -> st1 = st) /\
  (~ divisible ts st img ->
   exists a r c px out,
     st !! img = Some a /\ nd_shape a = r :: c :: px /\
     pad corner ((fst ts * ceil_div r (fst ts))%nat,
                 (snd ts * ceil_div c (snd ts))%nat) a None = Ok out /\
     st1 = <[img := out]> st).
Proof.
  intros H.
  destruct (gettiles_frame _ _ _ _ _ _ _ H) as (H1 & H2 & _ & H4 & _).
  split; [exact H1|]. split; [exact H2|]. split; [exact H4|].
  intros Hnd.
  destruct (gettiles_ok_inv _ _ _ _ _ _ H)
    as (a & r & c & px & Hst & Hs & Hth & Htw & Hpx).
  destruct ts as [th tw]. cbn [fst snd] in *.
  destruct (gettiles_eq th tw st img corner order a r c px Hst Hs Hth Htw
              Hpx)
    as (a' & Hcase & _ & Heq).
  rewrite Heq in H. injection H as <- _.
  destruct Hcase as [(Hr & Hc & _)|[_ Hpad]].
  - exfalso. apply Hnd. exists a, r, c, px. auto.
  - exists a, r, c, px, a'. auto.
Qed.

Lemma gettiles_side_effect_witness :
  exists st1 tiles,
    gettiles (2, 2)%nat [img4; img5] 0 SouthWest ColMajor = Ok (st1, tiles) /\
    st1 = [img4; img5].
Proof.
  destruct (gettiles (2, 2)%nat [img4; img5] 0 SouthWest ColMajor)
    as [[st1 tiles]|e] eqn:H; [|vm_compute in H; discriminate].
  exists st1, tiles. split; [reflexivity|].
  apply (proj1 (proj2 (proj2 (gettiles_side_effect _ _ _ _ _ _ _ H)))).
  exists img4, 4%nat, 4%nat, [3%nat]. repeat split.
Defined.

Section ZoomEffect.

Variable resample : list nat -> list nat -> list Z -> list Z.

(** When [zoom] returns, its input has exactly three axes; the store has
    grown by one array, the result, and every array that was there is as it
    was.  The result has the first two extents halved (ties to even) and the
    third kept; for even extents the halves are exact. *)
Theorem zoom_new_array (st : store) (img : nat) (st2 : store) (img2 : nat) :
  zoom resample st img = Ok (st2, img2) ->
  exists r w c data a',
    st !! img = Some (mk_ndarray [r; w; c] data) /\
    st2 = st ++ [a'] /\ img2 = length st /\
    (forall id, (id < length st)%nat -> st2 !! id = st !! id) /\
    nd_shape a' = [Z.to_nat (py_round (Z.of_nat r) 2);
                   Z.to_nat (py_round (Z.of_nat w) 2); c] /\
    (forall r' w', r = (2 * r')%nat -> w = (2 * w')%nat ->
       nd_shape a' = [r'; w'; c]).
Proof.
  intros H. destruct (zoom_frame resample _ _ _ _ H) as (a' & -> & ->).
  unfold zoom in H. destruct (st !! img) as [a|] eqn:Hst; [|discriminate].
  destruct (_ <? _)%nat; [discriminate|].
  destruct a as [sh data].
  destruct sh as [|r [|w [|c [|x sh]]]];
    try (rewrite libzoom_rank in H by (simpl; lia); discriminate).
  rewrite libzoom_three_axes in H. unfold alloc in H.
  injection H as H. apply app_inv_head in H. injection H as <-.
  exists r, w, c, data. eexists. split; [reflexivity|].
  split; [reflexivity|]. split; [reflexivity|]. split.
  { intros id Hid. now apply lookup_app_l. }
  split; [reflexivity|].
  intros r' w' -> ->. cbn [nd_shape].
  rewrite !Nat2Z.inj_mul. change (Z.of_nat 2) with 2.
  rewrite !py_round_even_half, !Nat2Z.id. reflexivity.
Qed.

End ZoomEffect.

Lemma zoom_new_array_witness :
  exists st2 img2 a',
    zoom nearest_resample [img5; img4] 1 = Ok (st2, img2) /\
    st2 = [img5; img4] ++ [a'] /\ img2 = 2%nat.
Proof.
  destruct (zoom nearest_resample [img5; img4] 1) as [[st2 img2]|e] eqn:H;
    [|vm_compute in H; discriminate].
  destruct (zoom_new_array nearest_resample _ _ _ _ H)
    as (r & w & c & data & a' & _ & H2 & H3 & _).
  exists st2, img2, a'. repeat split; assumption.
Defined.

(** ** Stopping the pool *)

Section ThreaderStopFacts.

Import Threader ThreaderStop.

Lemma count_split_waiting_finished l :
  Forall (fun ts => ts = Waiting \/ ts = Finished) l ->
  (count waiting l + count finished l = length l)%nat.
Proof.
  induction 1 as [|ts l [-> | ->] _ IH]; simpl; lia.
Qed.

Lemma count_waiting_pos l :
  (0 < count waiting l)%nat -> exists i, l !! i = Some Waiting.
Proof.
  induction l as [|ts l IH]; simpl; [lia|].
  destruct ts; simpl; intros H;
    try (destruct (IH H) as (i & Hi); exists (S i); exact Hi).
  exists 0%nat. reflexivity.
Qed.

Lemma all_finished_stuck s :
  Forall (fun ts => ts = Finished) (threads s) -> stuck s.
Proof.
  intros H i. unfold worker_step.
  destruct (threads s !! i) as [ts|] eqn:Hi; [|reflexivity].
  now rewrite (Forall_lookup_1 _ _ _ _ H Hi).
Qed.

(** In such a state a worker can only take a stop signal and leave. *)
Lemma inv_stop_step n k i s s' ev :
  ThreaderStop.inv n k s -> worker_step i s = Some (s', ev) ->
  ThreaderStop.inv n k s' /\ S (length (queue s')) = length (queue s).
Proof.
  intros (K1 & K2 & K3 & K4 & K5 & K6) Hstep.
  apply worker_step_inv in Hstep
    as [(item & q & Hi & Hq & _ & ->)
       |[(j & Hi & _)|(j & Hi & _)]].
  - rewrite Hq in *. apply Forall_cons in K2 as [-> K2].
    pose proof (count_insert finished _ _ _ Finished Hi) as C.
    unfold ThreaderStop.inv, set_thread. simpl in *.
    repeat split; auto; try lia.
    + apply Forall_insert; [exact K3|now right].
    + now rewrite length_insert.
  - pose proof (Forall_lookup_1 _ _ _ _ K3 Hi) as [E|E]; discriminate.
  - pose proof (Forall_lookup_1 _ _ _ _ K3 Hi) as [E|E]; discriminate.
Qed.

Lemma stopping_inv n k s : stopping n k s -> ThreaderStop.inv n k s.
Proof.
  induction 1 as [sub ret exc s Hreach Hret|k s _ IH Hk|k s i s' ev _ IH Hstep].
  - destruct (reach_inv _ _ _ _ _ Hreach)
      as (I1 & I2 & I3 & I4 & I5 & I6 & I7 & I8).
    unfold await_returns in Hret. rewrite Hret in I1.
    assert (Hq : queue s = []) by (destruct (queue s); [reflexivity|simpl in *; lia]).
    assert (Ho : count occupied (threads s) = 0%nat) by lia.
    assert (Hw : Forall (fun ts => ts = Waiting) (threads s)).
    { clear -Ho. induction (threads s) as [|ts l IHl]; [constructor|].
      destruct ts; simpl in Ho; try lia. constructor; [reflexivity|].
      apply IHl. exact Ho. }
    unfold ThreaderStop.inv. rewrite Hq. simpl.
    repeat split; auto; try lia.
    + eapply Forall_impl; [exact Hw|]. intros ts ->. now left.
    + clear -Hw. induction Hw as [|ts l -> _ IHl]; simpl; lia.
  - destruct IH as (K1 & K2 & K3 & K4 & K5 & K6).
    unfold ThreaderStop.inv, add. simpl. rewrite length_app. simpl.
    repeat split; auto; try lia.
    apply Forall_app. split; [exact K2|]. constructor; [reflexivity|constructor].
  - exact (proj1 (inv_stop_step _ _ _ _ _ _ IH Hstep)).
Qed.

Lemma inv_stop_joins n m :
  forall s, length (queue s) = m -> ThreaderStop.inv n n s ->
            eventually (joined n) s.
Proof.
  induction m as [|m IH]; intros s Hm Hinv.
  - apply eventually_now.
    destruct Hinv as (K1 & K2 & K3 & K4 & K5 & K6).
    pose proof (count_split_waiting_finished _ K3) as Hsplit.
    assert (Hfin : Forall (fun ts => ts = Finished) (threads s)).
    { assert (Hw : count waiting (threads s) = 0%nat) by lia.
      clear -K3 Hw. induction K3 as [|ts l [-> | ->] _ IHl];
        simpl in Hw; [constructor|lia|].
      constructor; [reflexivity|]. apply IHl. exact Hw. }
    split; [exact Hfin|]. split.
    + destruct (queue s); [reflexivity|discriminate].
    + split; [exact K1|now apply all_finished_stuck].
  - apply eventually_later.
    + destruct Hinv as (K1 & K2 & K3 & K4 & K5 & K6).
      pose proof (count_split_waiting_finished _ K3) as Hsplit.
      destruct (count_waiting_pos (threads s)) as (i & Hi); [lia|].
      exists i. unfold worker_step. rewrite Hi.
      destruct (queue s) as [|item q]; [discriminate|].
      destruct item; eauto.
    + intros i s' ev Hstep.
      destruct (inv_stop_step _ _ _ _ _ _ Hinv Hstep) as [Hinv' Hlen].
      apply IH; [lia|exact Hinv'].
Qed.

(** [stop]: once the [n] stop signals are put, on every schedule of the
    workers each worker takes one signal and leaves its loop, so that every
    [thread.join()] returns.  The signals are never marked done: the
    counter is left at [n], so that with [n >= 1] a later [await] would not
    return. *)
Theorem stop_joins_every_worker (n : nat) (s : t) :
  stopping n n s ->
  eventually (joined n) s /\
  ((1 <= n)%nat -> ~ await_returns s).
Proof.
  intros H. pose proof (stopping_inv _ _ _ H) as Hinv. split.
  - now apply (inv_stop_joins n (length (queue s))).
  - intros Hn. unfold await_returns. destruct Hinv as (K1 & _). lia.
Qed.

(** While the stop signals are being put, the counter is the number of
    signals put so far, nothing but signals is queued, and no job is
    running. *)
Theorem stop_counts_signals (n k : nat) (s : t) :
  stopping n k s ->
  unfinished_tasks s = k /\
  Forall (fun item => item = None) (queue s) /\
  running_jobs (threads s) = [] /\
  (length (queue s) + count finished (threads s) = k)%nat.
Proof.
  intros H. destruct (stopping_inv _ _ _ H) as (K1 & K2 & K3 & K4 & _).
  split; [exact K1|]. split; [exact K2|]. split; [|exact K4].
  clear -K3. induction K3 as [|ts l [-> | ->] _ IH]; simpl; auto.
Qed.

End ThreaderStopFacts.

Lemma stop_joins_every_worker_witness :
  ThreaderStop.eventually (ThreaderStop.joined 1)
    (Threader.add None (Threader.start (Threader.init 1))).
Proof.
  refine (proj1 (stop_joins_every_worker 1 _ _)).
  apply ThreaderStop.stopping_put; [|lia].
  apply (ThreaderStop.stopping_begin 1 [] [] []);
    [apply Threader.reach_start|reflexivity].
Defined.

Lemma stop_counts_signals_witness :
  Threader.unfinished_tasks
    (Threader.add None (Threader.start (Threader.init 2))) = 1%nat.
Proof.
  refine (proj1 (stop_counts_signals 2 1 _ _)).
  apply ThreaderStop.stopping_put; [|lia].
  apply (ThreaderStop.stopping_begin 2 [] [] []);
    [apply Threader.reach_start|reflexivity].
Defined.

(** ** Addresses and content of the yielded tiles *)

Lemma NoDup_rev_seq n : NoDup (rev (seq 0 n)).
Proof. rewrite <- Permutation_rev. apply NoDup_seq. Qed.

Section WalkAddresses.

Variable resample : list nat -> list nat -> list Z -> list Z.

Lemma tile_levels_addresses ts levels :
  forall (st : store) img out e st',
    tile_levels resample ts st img levels = (out, e, st') ->
    NoDup levels ->
    NoDup (map (fun y => (y_level y, (y_major y, y_minor y))) out).
Proof.
  induction levels as [|level rest IH]; intros st img out e st' H Hnd.
  { injection H as <- <- <-. constructor. }
  rewrite tile_levels_cons in H.
  destruct (gettiles ts st img SouthWest ColMajor) as [[st1 tiles]|err] eqn:Hg.
  2:{ injection H as <- <- <-. constructor. }
  cbv zeta in H.
  set (out1 := map (fun t => mk_yielded (fst t) (fst (snd t)) (snd (snd t))
                               level (read_view st1 (fst t))) tiles) in *.
  apply NoDup_cons in Hnd as [Hnotin Hnd].
  assert (E1 : map (fun y => (y_level y, (y_major y, y_minor y))) out1
               = map (fun c => (level, c)) (map snd tiles)).
  { unfold out1. rewrite !map_map. apply map_ext.
    intros [v [major minor]]. reflexivity. }
  assert (N1 : NoDup (map (fun y => (y_level y, (y_major y, y_minor y))) out1)).
  { rewrite E1. apply NoDup_map_inj.
    - intros x y _ _ E. now injection E.
    - destruct (gettiles_scan _ _ _ _ _ _ _ Hg)
        as (a' & rows & cols & px & _ & _ & ->).
      apply scan_tiles_coordinates_nodup. }
  assert (Hrec : forall st2 img2 out' e' st3,
            tile_levels resample ts st2 img2 rest = (out', e', st3) ->
            NoDup (map (fun y => (y_level y, (y_major y, y_minor y)))
                       (out1 ++ out'))).
  { intros st2 img2 out' e' st3 Hr. rewrite map_app. apply NoDup_app.
    split; [exact N1|]. split; [|now apply (IH _ _ _ _ _ Hr)].
    intros z Hz Hz'. rewrite list_elem_of_In in Hz, Hz'.
    rewrite E1 in Hz. apply in_map_iff in Hz as (c & <- & _).
    apply in_map_iff in Hz' as (y & Ey & Hy). injection Ey as El _.
    destruct (tile_levels_levels resample ts _ _ _ _ _ _ Hr) as [F _].
    rewrite List.Forall_forall in F. specialize (F y Hy). rewrite El in F.
    apply Hnotin. now rewrite list_elem_of_In. }
  destruct (0 <? level)%nat.
  - destruct (zoom resample st1 img) as [[st2 img2]|err].
    + destruct (tile_levels resample ts st2 img2 rest) as [[out' e'] st3] eqn:Hr.
      injection H as <- <- <-. now apply (Hrec _ _ _ _ _ Hr).
    + injection H as <- <- <-. exact N1.
  - destruct (tile_levels resample ts st1 img rest) as [[out' e'] st3] eqn:Hr.
    injection H as <- <- <-. now apply (Hrec _ _ _ _ _ Hr).
Qed.

(** No two records yielded by [tile] carry the same (level, major, minor)
    address. *)
Theorem tile_addresses_distinct (ts : nat * nat) (st : store) (img : nat)
    (nlevels : option Z) (out : list yielded) (e : option exn)
    (st' : store) :
  tile resample ts st img nlevels = (out, e, st') ->
  NoDup (map (fun y => (y_level y, (y_major y, y_minor y))) out).
Proof.
  unfold tile. intros H.
  destruct (match nlevels with
            | Some n => Ok n
            | None => match st !! img with
                      | Some a => auto_nlevels (nd_shape a) ts
                      | None => Raise IndexError
                      end
            end) as [n|err].
  - apply (tile_levels_addresses ts _ _ _ _ _ _ H), NoDup_rev_seq.
  - injection H as <- <- <-. constructor.
Qed.

End WalkAddresses.

Lemma tile_addresses_distinct_witness :
  exists out e st',
    tile nearest_resample (2, 2)%nat [img4] 0 None = (out, e, st') /\
    NoDup (map (fun y => (y_level y, (y_major y, y_minor y))) out).
Proof.
  destruct (tile nearest_resample (2, 2)%nat [img4] 0 None)
    as [[out e] st'] eqn:H.
  exists out, e, st'. split; [reflexivity|].
  exact (tile_addresses_distinct nearest_resample _ _ _ _ _ _ _ H).
Defined.

Lemma lookup_flat_map_grid {A : Type} (f : nat -> nat -> A) cols n b row col :
  (row < n)%nat -> (col < cols)%nat ->
  flat_map (fun r => map (fun c => f r c) (seq 0 cols)) (seq b n)
    !! (row * cols + col)%nat = Some (f (b + row)%nat col).
Proof.
  intros Hr Hc. revert row b Hr.
  induction n as [|n IHn]; intros row b Hr; [lia|].
  cbn [seq flat_map]. destruct row as [|row].
  - rewrite lookup_app_l by (rewrite length_map, length_seq; lia).
    simpl. rewrite Nat.add_0_r.
    change (map (fun c => f b c) (seq 0 cols)) with
      ((fun c => f b c) <$> seq 0 cols).
    rewrite list_lookup_fmap, lookup_seq_lt by lia. reflexivity.
  - rewrite lookup_app_r by (rewrite length_map, length_seq; lia).
    rewrite length_map, length_seq.
    replace (S row * cols + col - cols)%nat with (row * cols + col)%nat
      by lia.
    rewrite IHn by lia. f_equal. f_equal. lia.
Qed.

(** A tile of [gettiles] shows the pixels of its block of the array left at
    [img]: scalar [k] of the pixel in row [i], column [j] of the tile at
    grid position [(row, col)] is scalar [k] of pixel
    [(th * row + i, tw * col + j)]. *)
Theorem gettiles_tile_content (th tw : nat) (st : store) (img : nat)
    (corner : Corner) (order : Order) (st1 : store)
    (tiles : list (view * (Z * Z))) :
  gettiles (th, tw) st img corner order = Ok (st1, tiles) ->
  exists a' rows cols px,
    st1 !! img = Some a' /\
    nd_shape a' = (th * rows)%nat :: (tw * cols)%nat :: px /\
    length tiles = (rows * cols)%nat /\
    forall row col,
      (row < rows)%nat -> (col < cols)%nat ->
      exists t,
        tiles !! (row * cols + col)%nat = Some t /\
        snd t = tilecoordinates order corner (Z.of_nat rows, Z.of_nat cols)
                  (Z.of_nat row, Z.of_nat col) /\
        read_view st1 (fst t) =
          flat_map (fun i =>
            flat_map (fun j =>
              map (fun k => pixel a' (th * row + i) (tw * col + j) k)
                  (seq 0 (prod_shape px)))
              (seq 0 tw))
            (seq 0 th).
Proof.
  intros H.
  destruct (gettiles_scan _ _ _ _ _ _ _ H)
    as (a' & rows & cols & px & Hst & Hs & ->). cbn [fst snd] in Hs.
  exists a', rows, cols, px. split; [exact Hst|]. split; [exact Hs|].
  split; [apply scan_tiles_length|].
  intros row col Hrow Hcol.
  assert (Hlook :
    scan_tiles (th, tw) img a' corner order rows cols !! (row * cols + col)%nat
    = Some (getitem img a' (th * row) (th * (row + 1))
              (tw * col) (tw * (col + 1)),
            tilecoordinates order corner (Z.of_nat rows, Z.of_nat cols)
              (Z.of_nat row, Z.of_nat col))).
  { unfold scan_tiles. cbn [fst snd].
    apply (lookup_flat_map_grid
             (fun row col : nat =>
                (getitem img a' (th * row) (th * (row + 1))
                   (tw * col) (tw * (col + 1)),
                 tilecoordinates order corner (Z.of_nat rows, Z.of_nat cols)
                   (Z.of_nat row, Z.of_nat col)))
             cols rows 0 row col Hrow Hcol). }
  eexists. split; [exact Hlook|]. split; [reflexivity|]. cbn [fst].
  rewrite (getitem_tile img a' th tw rows cols px row col Hs Hrow Hcol).
  unfold read_view. cbn [v_base v_row0 v_col0 v_width v_rows v_cols v_px].
  rewrite Hst. unfold pixel. rewrite Hs. reflexivity.
Qed.

Lemma gettiles_tile_content_witness :
  exists st1 tiles,
    gettiles (2, 2)%nat [img4] 0 SouthWest ColMajor = Ok (st1, tiles) /\
    length tiles = 4%nat.
Proof.
  destruct (gettiles (2, 2)%nat [img4] 0 SouthWest ColMajor)
    as [[st1 tiles]|e] eqn:H; [|vm_compute in H; discriminate].
  exists st1, tiles. split; [reflexivity|].
  destruct (gettiles_tile_content 2 2 _ _ _ _ _ _ H)
    as (a' & rows & cols & px & Hst & Hs & Hlen & _).
  vm_compute in H. injection H as <- <-. reflexivity.
Defined.

(** ** Pyramids of powers of two *)

Lemma ceil_div_mul t n : (0 < t)%nat -> ceil_div (t * n) t = n.
Proof.
  intros Ht.
  assert (E : (t * ceil_div (t * n) t = t * n)%nat).
  { apply ceil_div_exact; [exact Ht|].
    rewrite Nat.mul_comm. apply Nat.Div0.mod_mul. }
  apply Nat.mul_cancel_l in E; [exact E|lia].
Qed.

(** On an image whose extents are multiples of the tile shape [gettiles]
    pads nothing and scans the grid of the image as it is. *)
Lemma gettiles_divisible th tw (st : store) img corner order a rows cols px :
  st !! img = Some a ->
  nd_shape a = (th * rows)%nat :: (tw * cols)%nat :: px ->
  (0 < th)%nat -> (0 < tw)%nat ->
  gettiles (th, tw) st img corner order =
    Ok (st, scan_tiles (th, tw) img a corner order rows cols).
Proof.
  intros Hst Hs Hth Htw.
  assert (Hd : ((th * rows) mod th = 0)%nat /\ ((tw * cols) mod tw = 0)%nat)
    by (split; rewrite Nat.mul_comm; apply Nat.Div0.mod_mul).
  destruct (gettiles_eq th tw st img corner order a _ _ px Hst Hs Hth Htw
              (or_introl Hd))
    as (a' & Hcase & _ & Heq).
  rewrite !ceil_div_mul in Heq by assumption.
  destruct Hcase as [(_ & _ & ->)|[Hn _]].
  - now rewrite list_insert_id in Heq by assumption.
  - exfalso. apply Hn.
    split; rewrite Nat.mul_comm; apply Nat.Div0.mod_mul.
Qed.

Lemma ceil_log2_ratio_pow2 t k :
  (0 < t)%nat ->
  ceil_log2_ratio (Z.of_nat (t * 2 ^ k)) (Z.of_nat t) = Z.of_nat k.
Proof.
  intros Ht. rewrite Nat2Z.inj_mul, Nat2Z.inj_pow.
  change (Z.of_nat 2) with 2.
  set (T := Z.of_nat t). set (K := Z.of_nat k).
  assert (HT : 0 < T) by (unfold T; lia).
  assert (HK : 0 <= K) by (unfold K; lia).
  pose proof (Z.pow_pos_nonneg 2 K ltac:(lia) HK) as Hp.
  unfold ceil_log2_ratio.
  destruct (Z.leb_spec (T * 2 ^ K) T) as [Hle|Hgt].
  - assert (E : 2 ^ K = 1).
    { assert (T * 2 ^ K <= T * 1) by lia.
      apply Z.mul_le_mono_pos_l in H; lia. }
    assert (K = 0).
    { destruct (Z.eq_dec K 0) as [|Hne]; [assumption|].
      assert (2 ^ 1 <= 2 ^ K) by (apply Z.pow_le_mono_r; lia).
      change (2 ^ 1) with 2 in *. lia. }
    rewrite E, Z.mul_1_r, Z.div_same by lia. simpl. lia.
  - assert (E : (T * 2 ^ K + T - 1) / T = 2 ^ K).
    { symmetry. apply (Z.div_unique_pos _ _ _ (T - 1)); lia. }
    rewrite E. apply Z.log2_up_pow2. exact HK.
Qed.

Lemma map_const_replicate {A : Type} (x : nat) (l : list A) :
  map (fun _ => x) l = replicate (length l) x.
Proof. induction l as [|a l IH]; simpl; [reflexivity|now rewrite IH]. Qed.

Section Pyramid.

Variable resample : list nat -> list nat -> list Z -> list Z.

Lemma tile_levels_pow2 th tw ch :
  (0 < th)%nat -> (0 < tw)%nat ->
  forall k (st : store) img data,
    st !! img = Some (mk_ndarray [th * 2 ^ k; tw * 2 ^ k; ch]%nat data) ->
    exists out st',
      tile_levels resample (th, tw) st img (rev (seq 0 (S k)))
        = (out, None, st') /\
      map y_level out
        = flat_map (fun l => replicate (4 ^ l) l) (rev (seq 0 (S k))) /\
      length st' = (length st + k)%nat.
Proof.
  intros Hth Htw. induction k as [|k IH]; intros st img data Hst.
  - change (rev (seq 0 1)) with [0%nat]. rewrite tile_levels_cons.
    rewrite (gettiles_divisible th tw st img SouthWest ColMajor _ 1 1 [ch] Hst)
      by (try assumption; reflexivity).
    cbv zeta. cbn [Nat.ltb Nat.leb tile_levels].
    eexists _, _. split; [reflexivity|]. split; [|lia].
    rewrite app_nil_r, map_map. cbn [y_level flat_map].
    rewrite map_const_replicate, scan_tiles_length, app_nil_r. reflexivity.
  - rewrite seq_S, rev_unit. cbn [plus]. rewrite tile_levels_cons.
    rewrite (gettiles_divisible th tw st img SouthWest ColMajor _
               (2 ^ S k) (2 ^ S k) [ch] Hst)
      by (try assumption; reflexivity).
    cbv zeta. cbn [Nat.ltb Nat.leb].
    rewrite (zoom_three_axes resample st img _ _ ch data Hst).
    assert (Hhalf : forall t,
              Z.to_nat (py_round (Z.of_nat (t * 2 ^ S k)) 2)
              = (t * 2 ^ k)%nat).
    { intros t.
      replace (Z.of_nat (t * 2 ^ S k)) with (2 * Z.of_nat (t * 2 ^ k))
        by (rewrite Nat.pow_succ_r'; lia).
      now rewrite py_round_even_half, Nat2Z.id. }
    rewrite !Hhalf.
    set (a1 := mk_ndarray [th * 2 ^ k; tw * 2 ^ k; ch]%nat _).
    destruct (IH (st ++ [a1]) (length st)
                (nd_data a1)) as (out' & st' & Hrec & Hlev & Hlen).
    { unfold a1. cbn [nd_data]. apply list_lookup_middle. reflexivity. }
    rewrite Hrec. eexists _, _. split; [reflexivity|]. split.
    + rewrite map_app, map_map, Hlev. cbn [y_level flat_map].
      rewrite map_const_replicate, scan_tiles_length. f_equal.
      f_equal. rewrite <- Nat.pow_mul_l. reflexivity.
    + rewrite Hlen, length_app. simpl. lia.
Qed.

(** For an image of [th * 2^k] by [tw * 2^k] pixels with a channel axis the
    automatic level count is [k + 1]; [tile] pads nothing, raises nothing,
    downsamples [k] times and yields [4^l] tiles for each level [l], from
    level [k] down to the single tile of level 0. *)
Theorem tile_power_of_two_pyramid (th tw ch k : nat) (st : store)
    (img : nat) (data : list Z) :
  (0 < th)%nat -> (0 < tw)%nat ->
  st !! img = Some (mk_ndarray [th * 2 ^ k; tw * 2 ^ k; ch]%nat data) ->
  exists out st',
    tile resample (th, tw) st img None = (out, None, st') /\
    map y_level out
      = flat_map (fun l => replicate (4 ^ l) l) (rev (seq 0 (S k))) /\
    length st' = (length st + k)%nat.
Proof.
  intros Hth Htw Hst. unfold tile. rewrite Hst. cbn [nd_shape].
  unfold auto_nlevels, level_term. cbn [fst snd].
  assert (Hp : (0 < 2 ^ k)%nat) by (apply Nat.neq_0_lt_0, Nat.pow_nonzero; lia).
  destruct (Nat.eqb_spec th 0); [lia|].
  destruct (Nat.eqb_spec tw 0); [lia|].
  destruct (Nat.eqb_spec (th * 2 ^ k) 0); [nia|].
  destruct (Nat.eqb_spec (tw * 2 ^ k) 0); [nia|].
  rewrite !ceil_log2_ratio_pow2 by assumption.
  rewrite Z.max_id.
  replace (Z.to_nat (1 + Z.of_nat k)) with (S k) by lia.
  exact (tile_levels_pow2 th tw ch Hth Htw k st img data Hst).
Qed.

End Pyramid.

Lemma tile_power_of_two_pyramid_witness :
  exists out st',
    tile nearest_resample (2, 2)%nat [img4] 0 None = (out, None, st') /\
    map y_level out = [1; 1; 1; 1; 0]%nat.
Proof.
  destruct (tile_power_of_two_pyramid nearest_resample 2 2 3 1 [img4] 0
              (map Z.of_nat (seq 1 48)) ltac:(lia) ltac:(lia) eq_refl)
    as (out & st' & H1 & H2 & _).
  exists out, st'. split; [exact H1|exact H2].
Defined.


(** ** Tile writer: file names *)

Section SaveFacts.

Import Ascii String Save.
Local Open Scope string_scope.

Lemma append_assoc (a b c : string) : (a ++ b) ++ c = a ++ b ++ c.
Proof. induction a as [|x a IH]; simpl; [reflexivity|now rewrite IH]. Qed.

Lemma append_inv_head (p x y : string) : p ++ x = p ++ y -> x = y.
Proof.
  induction p as [|c p IH]; simpl; [auto|]. intros E. injection E as E. auto.
Qed.

Lemma chars_append (a b : string) : chars (a ++ b) = (chars a ++ chars b)%list.
Proof. induction a as [|x a IH]; simpl; [reflexivity|now rewrite IH]. Qed.

(** Cutting at the first occurrence of a character. *)
Lemma append_split (c : ascii) (a a' x x' : string) :
  ~ In c (chars a) -> ~ In c (chars a') ->
  a ++ String c x = a' ++ String c x' -> a = a' /\ x = x'.
Proof.
  revert a'. induction a as [|d a IH]; intros [|d' a'] Ha Ha' E; simpl in *.
  - injection E as E. auto.
  - injection E as E1 E2. exfalso. apply Ha'. now left.
  - injection E as E1 E2. exfalso. apply Ha. left. now symmetry.
  - injection E as E1 E2. subst d'.
    destruct (IH a') as [-> ->]; auto.
Qed.

Lemma uint_chars d c :
  In c (chars (DecimalString.NilEmpty.string_of_uint d)) ->
  c <> "/"%char /\ c <> "."%char.
Proof.
  induction d; simpl; try tauto;
    (intros [<-|H]; [split; discriminate|auto]).
Qed.

(** [str] writes digits and a minus sign only. *)
Lemma str_chars n c : In c (chars (str n)) -> c <> "/"%char /\ c <> "."%char.
Proof.
  unfold str. destruct (Z.to_int n) as [d|d]; simpl.
  - apply uint_chars.
  - intros [<-|H]; [split; discriminate|exact (uint_chars d c H)].
Qed.

Lemma str_inj a b : str a = str b -> a = b.
Proof.
  unfold str. intros E.
  apply (f_equal DecimalString.NilEmpty.int_of_string) in E.
  rewrite !DecimalString.NilEmpty.isi in E. injection E as E.
  apply (f_equal Z.of_int) in E. now rewrite !DecimalZ.of_to in E.
Qed.

Lemma str_nonempty n : str n <> EmptyString.
Proof.
  intros E.
  assert (H : DecimalString.NilEmpty.int_of_string (str n)
              = Some (Z.to_int n)) by apply DecimalString.NilEmpty.isi.
  rewrite E in H. simpl in H. injection H as H.
  apply (f_equal Z.of_int) in H. rewrite DecimalZ.of_to in H. simpl in H.
  subst n. discriminate.
Qed.

Lemma endswith_sep_chars s :
  ~ In "/"%char (chars s) -> endswith_sep s = false.
Proof.
  induction s as [|c s IH]; [reflexivity|]. simpl. intros H.
  destruct s as [|c' s'].
  - apply Ascii.eqb_neq. intros ->. apply H. now left.
  - apply IH. intros Hin. apply H. now right.
Qed.

Lemma endswith_sep_append a b :
  b <> EmptyString -> endswith_sep (a ++ b) = endswith_sep b.
Proof.
  intros Hb. induction a as [|c a IH]; [reflexivity|]. simpl.
  destruct (a ++ b) eqn:E; [|exact IH].
  destruct a; simpl in E; [congruence|discriminate].
Qed.

Lemma append_nonempty a b : b <> EmptyString -> a ++ b <> EmptyString.
Proof. intros Hb. destruct a; simpl; [exact Hb|discriminate]. Qed.

Lemma startswith_sep_chars s :
  ~ In "/"%char (chars s) -> startswith_sep s = false.
Proof.
  destruct s as [|c s]; [reflexivity|]. simpl. intros H.
  apply Ascii.eqb_neq. intros ->. apply H. now left.
Qed.

Lemma path_join_stem path b :
  startswith_sep b = false -> path_join path b = stem path ++ b.
Proof.
  intros Hb. unfold path_join, stem. rewrite Hb.
  destruct (_ || _); [reflexivity|]. now rewrite append_assoc.
Qed.

(** After a component that is not empty and does not end with the separator,
    the next one is appended behind a separator. *)
Lemma stem_after path b :
  b <> EmptyString -> endswith_sep b = false ->
  stem (path ++ b) = path ++ b ++ "/".
Proof.
  intros Hb He. unfold stem.
  rewrite endswith_sep_append, He by assumption.
  destruct (String.eqb_spec (path ++ b) EmptyString) as [E|_].
  - now apply append_nonempty in E.
  - simpl. apply append_assoc.
Qed.

Lemma str_no_sep n : ~ In "/"%char (chars (str n)).
Proof. intros H. now apply str_chars in H as [H _]. Qed.

Lemma str_no_dot n : ~ In "."%char (chars (str n)).
Proof. intros H. now apply str_chars in H as [_ H]. Qed.

Lemma str_ends n : endswith_sep (str n) = false.
Proof. apply endswith_sep_chars, str_no_sep. Qed.

Lemma str_starts n : startswith_sep (str n) = false.
Proof. apply startswith_sep_chars, str_no_sep. Qed.

Lemma dirname_eq output_dir major level :
  dirname output_dir major level =
    stem output_dir ++ str level ++ "/" ++ str major.
Proof.
  unfold dirname.
  rewrite (path_join_stem output_dir (str level)) by apply str_starts.
  rewrite (path_join_stem _ (str major)) by apply str_starts.
  rewrite (stem_after (stem output_dir) (str level))
    by (apply str_nonempty || apply str_ends).
  now rewrite !append_assoc.
Qed.

Lemma filename_eq output_dir major minor level :
  filename output_dir major minor level =
    stem output_dir ++ str level ++ "/" ++ str major ++ "/"
      ++ str minor ++ ".png".
Proof.
  unfold filename, basename. rewrite dirname_eq.
  rewrite path_join_stem.
  2:{ apply startswith_sep_chars. rewrite chars_append. intros H.
      apply in_app_or in H as [H|H]; [now apply str_no_sep in H|].
      simpl in H. repeat (destruct H as [H|H]; [discriminate|]). exact H. }
  replace (stem output_dir ++ str level ++ "/" ++ str major)
    with ((stem output_dir ++ str level ++ "/") ++ str major)
    by (now rewrite !append_assoc).
  rewrite (stem_after _ (str major)) by (apply str_nonempty || apply str_ends).
  now rewrite !append_assoc.
Qed.

(** The layout of the saved files: for an output directory that is not
    empty and does not end with a separator, the tile with address
    (level, major, minor) goes to [output_dir/level/major/minor.png], in the
    directory [output_dir/level/major]; a directory name that is empty or
    ends with a separator is used as it is, with no separator added. *)
Theorem save_filename_layout (output_dir : string) (major minor level : Z) :
  (output_dir <> EmptyString -> endswith_sep output_dir = false ->
   dirname output_dir major level =
     output_dir ++ "/" ++ str level ++ "/" ++ str major /\
   filename output_dir major minor level =
     output_dir ++ "/" ++ str level ++ "/" ++ str major ++ "/"
       ++ str minor ++ ".png") /\
  (output_dir = EmptyString \/ endswith_sep output_dir = true ->
   filename output_dir major minor level =
     output_dir ++ str level ++ "/" ++ str major ++ "/"
       ++ str minor ++ ".png").
Proof.
  split.
  - intros Hne He. rewrite filename_eq, dirname_eq. unfold stem. rewrite He.
    destruct (String.eqb_spec output_dir EmptyString); [contradiction|].
    simpl. now rewrite !append_assoc.
  - intros H. rewrite filename_eq. unfold stem.
    destruct H as [-> | ->]; [reflexivity|]. now rewrite orb_true_r.
Qed.

Lemma filename_inj output_dir major minor level major' minor' level' :
  filename output_dir major minor level
  = filename output_dir major' minor' level' ->
  level = level' /\ major = major' /\ minor = minor'.
Proof.
  rewrite !filename_eq. intros E.
  apply append_inv_head in E.
  apply (append_split "/"%char) in E as [EL E]; try apply str_no_sep.
  apply (append_split "/"%char) in E as [EM E]; try apply str_no_sep.
  apply (append_split "."%char _ _ "png" "png") in E as [Em _];
    try apply str_no_dot.
  repeat split; now apply str_inj.
Qed.

(** Tiles with different addresses are saved to different files of the same
    output directory. *)
Theorem save_filename_injective (output_dir : string)
    (major minor level major' minor' level' : Z) :
  (level, major, minor) <> (level', major', minor') ->
  filename output_dir major minor level
  <> filename output_dir major' minor' level'.
Proof.
  intros Hne E. apply filename_inj in E as (-> & -> & ->). now apply Hne.
Qed.

Variable resample : list nat -> list nat -> list Z -> list Z.

(** The files that the tiles of one run of [tile] are saved to are pairwise
    different: no tile overwrites another. *)
Theorem tile_files_distinct (output_dir : string) (ts : nat * nat)
    (st : store) (img : nat) (nlevels : option Z) (out : list yielded)
    (e : option exn) (st' : store) :
  tile resample ts st img nlevels = (out, e, st') ->
  NoDup (map (fun y => filename output_dir (y_major y) (y_minor y)
                         (Z.of_nat (y_level y))) out).
Proof.
  intros H.
  assert (Hadr : NoDup (map (fun y => (y_level y, (y_major y, y_minor y))) out)).
  { unfold tile in H.
    destruct (match nlevels with
              | Some n => Ok n
              | None => match st !! img with
                        | Some a => auto_nlevels (nd_shape a) ts
                        | None => Raise IndexError
                        end
              end) as [n|err].
    - apply (tile_levels_addresses resample ts _ _ _ _ _ _ H), NoDup_rev_seq.
    - injection H as <- <- <-. constructor. }
  replace (map (fun y => filename output_dir (y_major y) (y_minor y)
                           (Z.of_nat (y_level y))) out)
    with (map (fun adr : nat * (Z * Z) =>
                 filename output_dir (fst (snd adr)) (snd (snd adr))
                   (Z.of_nat (fst adr)))
              (map (fun y => (y_level y, (y_major y, y_minor y))) out))
    by (rewrite map_map; reflexivity).
  apply NoDup_map_inj; [|exact Hadr].
  intros [l [M m]] [l' [M' m']] _ _ E. cbn [fst snd] in E.
  apply filename_inj in E as (El & -> & ->).
  apply Nat2Z.inj in El. now subst.
Qed.

End SaveFacts.

Section SaveWitnesses.

Import Ascii String.
Local Open Scope string_scope.

Lemma save_filename_layout_witness :
  Save.filename "out" 3 0 2 = "out/2/3/0.png".
Proof.
  rewrite (proj2 (proj1 (save_filename_layout "out" 3 0 2)
                    ltac:(discriminate) eq_refl)).
  reflexivity.
Defined.

Lemma save_filename_injective_witness :
  Save.filename "out" 0 3 2 <> Save.filename "out" 3 0 2.
Proof.
  apply save_filename_injective. intros E. discriminate E.
Defined.

Lemma tile_files_distinct_witness :
  exists out e st',
    tile nearest_resample (2, 2)%nat [img4] 0 None = (out, e, st') /\
    NoDup (map (fun y => Save.filename "tiles" (y_major y) (y_minor y)
                           (Z.of_nat (y_level y))) out).
Proof.
  destruct (tile nearest_resample (2, 2)%nat [img4] 0 None)
    as [[out e] st'] eqn:H.
  exists out, e, st'. split; [reflexivity|].
  exact (tile_files_distinct nearest_resample "tiles" _ _ _ _ _ _ _ H).
Defined.

End SaveWitnesses.

(** ** When the extractor and the walk raise *)

(** [gettiles] on an existing array returns exactly when the array has at
    least two axes, both tile extents are positive, and the array needs no
    padding or can be padded: its first two extents are multiples of the
    tile shape, or it has a pixel axis, or it has no row.  On an array with
    two axes only that has a row and needs padding it raises the TypeError
    of [pad], and only there.  A zero first tile extent raises
    ZeroDivisionError, and an array with fewer than two axes ValueError. *)
Theorem gettiles_returns_iff (th tw : nat) (st : store) (img : nat)
    (corner : Corner) (order : Order) (a : ndarray) :
  st !! img = Some a ->
  ((exists res, gettiles (th, tw) st img corner order = Ok res) <->
   exists r c px,
     nd_shape a = r :: c :: px /\ (0 < th)%nat /\ (0 < tw)%nat /\
     (((r mod th = 0)%nat /\ (c mod tw = 0)%nat) \/
      px <> [] \/ r = 0%nat)) /\
  (gettiles (th, tw) st img corner order = Raise TypeError <->
   exists r c,
     nd_shape a = [r; c] /\ (0 < r)%nat /\ (0 < th)%nat /\ (0 < tw)%nat /\
     ~ ((r mod th = 0)%nat /\ (c mod tw = 0)%nat)) /\
  (th = 0%nat -> (1 <= length (nd_shape a))%nat ->
   gettiles (th, tw) st img corner order = Raise ZeroDivisionError) /\
  ((0 < th)%nat -> (length (nd_shape a) < 2)%nat ->
   gettiles (th, tw) st img corner order = Raise ValueError).
Proof.
  intros Hst. split; [split|split; [split|split]].
  - intros [res H].
    destruct (gettiles_ok_inv _ _ _ _ _ _ H)
      as (a0 & r & c & px & Hst0 & Hs & Hth & Htw & Hpx).
    rewrite Hst in Hst0. injection Hst0 as <-. cbn [fst snd] in *.
    exists r, c, px. auto.
  - intros (r & c & px & Hs & Hth & Htw & Hpx).
    destruct (gettiles_eq th tw st img corner order a r c px Hst Hs Hth Htw
              Hpx)
      as (a' & _ & _ & Heq).
    eexists. exact Heq.
  - intros H.
    destruct (gettiles_type_error _ _ _ _ _ H)
      as (a0 & r & c & Hst0 & Hs & H0 & Hth & Htw & Hn).
    rewrite Hst in Hst0. injection Hst0 as <-. cbn [fst snd] in *.
    exists r, c. auto.
  - intros (r & c & Hs & H0 & Hth & Htw & Hn).
    now apply (gettiles_two_axes_raises th tw st img corner order a r c).
  - intros -> Hlen. unfold gettiles. rewrite Hst.
    destruct (nd_shape a) as [|r [|c px]]; simpl in Hlen; try lia; reflexivity.
  - intros Hth Hlen. unfold gettiles. rewrite Hst.
    destruct (nd_shape a) as [|r [|c px]]; simpl in Hlen; try lia.
    + reflexivity.
    + destruct (Nat.eqb_spec th 0); [lia|reflexivity].
Qed.

Lemma gettiles_returns_iff_witness :
  (exists res, gettiles (3, 2)%nat [img5] 0 NorthWest RowMajor = Ok res) /\
  gettiles (2, 2)%nat [img3_flat] 0 SouthWest ColMajor = Raise TypeError.
Proof.
  split.
  - apply (proj1 (gettiles_returns_iff 3 2 [img5] 0 NorthWest RowMajor img5
                    eq_refl)).
    exists 5%nat, 5%nat, [1%nat].
    split; [reflexivity|]. split; [lia|]. split; [lia|].
    right; left. discriminate.
  - apply (proj1 (proj2 (gettiles_returns_iff 2 2 [img3_flat] 0 SouthWest
                           ColMajor img3_flat eq_refl))).
    exists 3%nat, 3%nat.
    split; [reflexivity|]. split; [lia|]. split; [lia|]. split; [lia|].
    simpl. lia.
Defined.

Lemma auto_nlevels_ok r c px th tw :
  (0 < r)%nat -> (0 < c)%nat -> (0 < th)%nat -> (0 < tw)%nat ->
  exists n, auto_nlevels (r :: c :: px) (th, tw) = Ok n.
Proof.
  intros Hr Hc Hth Htw. unfold auto_nlevels, level_term. cbn [fst snd].
  destruct (Nat.eqb_spec th 0); [lia|]. destruct (Nat.eqb_spec r 0); [lia|].
  destruct (Nat.eqb_spec tw 0); [lia|]. destruct (Nat.eqb_spec c 0); [lia|].
  eexists. reflexivity.
Qed.

Section WalkReturns.

Variable resample : list nat -> list nat -> list Z -> list Z.

Lemma tile_levels_three_axes th tw levels :
  (0 < th)%nat -> (0 < tw)%nat ->
  forall (st : store) img a,
    st !! img = Some a -> length (nd_shape a) = 3%nat ->
    exists out st',
      tile_levels resample (th, tw) st img levels = (out, None, st').
Proof.
  intros Hth Htw. induction levels as [|level rest IH]; intros st img a Hst Hlen.
  { eexists _, _. reflexivity. }
  destruct (nd_shape a) as [|r [|c [|ch [|x px]]]] eqn:Hs; try discriminate.
  rewrite tile_levels_cons.
  destruct (gettiles_eq th tw st img SouthWest ColMajor a r c [ch] Hst Hs
              Hth Htw) as (a' & _ & Hs' & ->);
    [right; left; discriminate|].
  cbv zeta.
  assert (Hst' : <[img := a']> st !! img = Some a').
  { apply list_lookup_insert_eq. eapply lookup_lt_Some; eassumption. }
  destruct (0 <? level)%nat.
  - destruct a' as [sh' data']. cbn [nd_shape] in Hs'. subst sh'.
    rewrite (zoom_three_axes resample _ _ _ _ _ _ Hst').
    match goal with
    | |- context [tile_levels resample (th, tw) (?s ++ [?x]) (length ?s) rest] =>
        destruct (IH (s ++ [x]) (length s) x) as (out' & st'' & ->);
          [apply list_lookup_middle; reflexivity|reflexivity|]
    end.
    eexists _, _. reflexivity.
  - destruct (IH _ _ _ Hst') as (out' & st'' & ->); [now rewrite Hs'|].
    eexists _, _. reflexivity.
Qed.

(** On an image with exactly three axes and a tile shape with positive
    extents, [tile] with an explicit level count raises nothing; with the
    automatic level count it raises nothing when the first two extents of
    the image are positive. *)
Theorem tile_returns_on_three_axes (th tw : nat) (st : store) (img : nat)
    (a : ndarray) (r c ch : nat) :
  st !! img = Some a ->
  nd_shape a = [r; c; ch] ->
  (0 < th)%nat -> (0 < tw)%nat ->
  (forall n, exists out st',
     tile resample (th, tw) st img (Some n) = (out, None, st')) /\
  ((0 < r)%nat -> (0 < c)%nat ->
   exists out st', tile resample (th, tw) st img None = (out, None, st')).
Proof.
  intros Hst Hs Hth Htw.
  assert (Hlen : length (nd_shape a) = 3%nat) by now rewrite Hs.
  split.
  - intros n. unfold tile.
    exact (tile_levels_three_axes th tw _ Hth Htw st img a Hst Hlen).
  - intros Hr Hc. unfold tile. rewrite Hst, Hs.
    destruct (auto_nlevels_ok r c [ch] th tw Hr Hc Hth Htw) as (n & ->).
    exact (tile_levels_three_axes th tw _ Hth Htw st img a Hst Hlen).
Qed.

End WalkReturns.

Lemma tile_returns_on_three_axes_witness :
  exists out st',
    tile nearest_resample (2, 2)%nat [img5] 0 None = (out, None, st').
Proof.
  apply (proj2 (tile_returns_on_three_axes nearest_resample 2 2 [img5] 0 img5
                  5 5 1 eq_refl eq_refl ltac:(lia) ltac:(lia))); lia.
Defined.

Section WalkRaises.

Variable resample : list nat -> list nat -> list Z -> list Z.

(** On an image with two axes only that has a row and needs padding, [tile]
    with a level count of at least 1 yields no tile: the first [gettiles]
    raises the TypeError of [pad].  By then [img] has been resized in place:
    it is left with the padded extents, holding its old buffer followed by
    zeros, with no row moved and no border filled; no other array is
    touched. *)
Theorem tile_two_axes_padding_raises (th tw : nat) (st : store) (img : nat)
    (a : ndarray) (r c : nat) (n : Z) :
  st !! img = Some a ->
  nd_shape a = [r; c] ->
  (0 < r)%nat -> (0 < th)%nat -> (0 < tw)%nat ->
  ~ ((r mod th = 0)%nat /\ (c mod tw = 0)%nat) ->
  1 <= n ->
  tile resample (th, tw) st img (Some n) =
    ([], Some TypeError,
     <[img := mk_ndarray [th * ceil_div r th; tw * ceil_div c tw]%nat
                (resize [th * ceil_div r th; tw * ceil_div c tw]%nat
                   (nd_data a))]> st).
Proof.
  intros Hst Hs H0 Hth Htw Hn Hn1. unfold tile.
  destruct (Z.to_nat n) as [|k] eqn:Ek; [lia|].
  rewrite seq_S, rev_unit, tile_levels_cons.
  rewrite (gettiles_two_axes_raises th tw st img SouthWest ColMajor a r c)
    by assumption.
  unfold gettiles_raised, pad_raised. rewrite Hst, !Hs. reflexivity.
Qed.

End WalkRaises.

Lemma tile_two_axes_padding_raises_witness :
  tile nearest_resample (2, 2)%nat [img3_flat] 0 (Some 2) =
    ([], Some TypeError,
     [mk_ndarray [4; 4]%nat [1; 2; 3; 4; 5; 6; 7; 8; 9; 0; 0; 0; 0; 0; 0; 0]]).
Proof.
  rewrite (tile_two_axes_padding_raises nearest_resample 2 2 [img3_flat] 0
             img3_flat 3 3 2 eq_refl eq_refl);
    [reflexivity|lia|lia|lia|simpl; lia|lia].
Defined.


(** ** Log records *)

Section LogFacts.

Import Ascii String Log.
Local Open Scope string_scope.

(** The record factory, as the module configures it, makes a record for the
    levels DEBUG (10), INFO (20) and WARNING (30), which are the levels the
    program logs at, and for no other level: for ERROR (40), CRITICAL (50)
    and every other level the lookup in [level_formats] is a KeyError. *)
Theorem log_record_levels (level : Z) :
  (exists codes, factory level_formats level = Some codes) <->
  level = 10 \/ level = 20 \/ level = 30.
Proof.
  unfold factory, getLevelName.
  destruct (Z.eqb_spec level 50) as [->|H50].
  { simpl. split; [intros [codes H]; discriminate|lia]. }
  destruct (Z.eqb_spec level 40) as [->|H40].
  { simpl. split; [intros [codes H]; discriminate|lia]. }
  destruct (Z.eqb_spec level 30) as [->|H30].
  { simpl. split; [lia|]. intros _. eexists. reflexivity. }
  destruct (Z.eqb_spec level 20) as [->|H20].
  { simpl. split; [lia|]. intros _. eexists. reflexivity. }
  destruct (Z.eqb_spec level 10) as [->|H10].
  { simpl. split; [lia|]. intros _. eexists. reflexivity. }
  destruct (Z.eqb_spec level 0) as [->|H0].
  { simpl. split; [intros [codes H]; discriminate|lia]. }
  simpl. split; [intros [codes H]; discriminate|lia].
Qed.

End LogFacts.
